(** * The anteater's tongue: grid path, loop detection, boundary tracing
      and capture test of [game.py], embedded and verified.

    The development follows [class Anteater] and [point_in_polygon] of
    [game.py].  Python integers are [Z], the tongue [deque] is a list with
    the head at index 0, the [set] of loop cells is a [gset], Python
    exceptions are an error monad, and the [float] arithmetic of
    [point_in_polygon] is IEEE binary64 ([PrimFloat]). *)

From Stdlib Require Import ZArith List Bool Lia Floats Sorted Permutation.
From stdpp Require Import base decidable option list numbers gmap sets.

Local Open Scope Z_scope.

(** * The program

    What follows is [game.py]: the tongue of [class Anteater], its
    polygon methods and [point_in_polygon], function by function. *)

(** ** Python exceptions and sequences *)

Inductive exn : Type :=
  IndexError | ZeroDivisionError | OverflowError | ValueError.

Inductive res (A : Type) : Type :=
| Ok (a : A)
| Raise (e : exn).
Arguments Ok {A} a.
Arguments Raise {A} e.

#[global] Instance res_ret : MRet res := fun A a => Ok a.
#[global] Instance res_bind : MBind res := fun A B f m =>
  match m with
  | Ok a => f a
  | Raise e => Raise e
  end.
#[global] Instance res_fmap : FMap res := fun A B f m =>
  match m with
  | Ok a => Ok (f a)
  | Raise e => Raise e
  end.

(** [a // b] on integers: floor division, [ZeroDivisionError] on [b = 0]. *)
Definition floordiv (a b : Z) : res Z :=
  if decide (b = 0) then Raise ZeroDivisionError else Ok (Z.div a b).

(** [l[0]] on a deque or list. *)
Definition getitem0 {A : Type} (l : list A) : res A :=
  match l with
  | [] => Raise IndexError
  | x :: _ => Ok x
  end.

(** [l[i]] on a list, for [i >= 0]. *)
Definition getitem {A : Type} (l : list A) (i : nat) : res A :=
  match l !! i with
  | Some x => Ok x
  | None => Raise IndexError
  end.

(** [deque.popleft()] and [deque.pop()], returning the remaining deque. *)
Definition popleft {A : Type} (l : list A) : res (list A) :=
  match l with
  | [] => Raise IndexError
  | _ :: t => Ok t
  end.

Definition pop {A : Type} (l : list A) : res (list A) :=
  match l with
  | [] => Raise IndexError
  | _ => Ok (removelast l)
  end.

(** [l.index(x)]: position of the first occurrence; [None] stands for the
    [ValueError] that [update] catches. *)
Fixpoint index {A : Type} `{EqDecision A} (x : A) (l : list A) : option nat :=
  match l with
  | [] => None
  | y :: t => if decide (x = y) then Some 0%nat else S <$> index x t
  end.

(** ** Constants and data *)

Definition WIDTH : Z := 800.
Definition HEIGHT : Z := 600.

(** A grid cell [(x, y)] and a pixel point [(x, y)]. *)
Definition cell : Type := Z * Z.
Definition point : Type := Z * Z.

(** The fields of [Anteater] that the tongue logic reads or writes.  The
    body rectangle is the constant [Rect(WIDTH // 2 - 25, 50, 50, 50)];
    trapped ants are kept as opaque identifiers. *)
Record Anteater : Type := mkAnteater {
  grid_size : Z;
  tongue : list cell;
  direction : Z * Z;
  next_direction : Z * Z;
  extending : bool;
  retracting : bool;
  move_cooldown : Z;
  move_timer : Z;
  max_segments : Z;
  min_loop_area : Z;
  loop_active : bool;
  loop_cells : gset cell;
  capture_timer : Z;
  capture_delay_frames : Z;
  trapped_ants : list nat;
  loop_path : list cell
}.

Definition set_tongue (v : list cell) (s : Anteater) : Anteater :=
  mkAnteater (grid_size s) v (direction s) (next_direction s) (extending s)
    (retracting s) (move_cooldown s) (move_timer s) (max_segments s)
    (min_loop_area s) (loop_active s) (loop_cells s) (capture_timer s)
    (capture_delay_frames s) (trapped_ants s) (loop_path s).

Definition set_direction (v : Z * Z) (s : Anteater) : Anteater :=
  mkAnteater (grid_size s) (tongue s) v (next_direction s) (extending s)
    (retracting s) (move_cooldown s) (move_timer s) (max_segments s)
    (min_loop_area s) (loop_active s) (loop_cells s) (capture_timer s)
    (capture_delay_frames s) (trapped_ants s) (loop_path s).

Definition set_next_direction (v : Z * Z) (s : Anteater) : Anteater :=
  mkAnteater (grid_size s) (tongue s) (direction s) v (extending s)
    (retracting s) (move_cooldown s) (move_timer s) (max_segments s)
    (min_loop_area s) (loop_active s) (loop_cells s) (capture_timer s)
    (capture_delay_frames s) (trapped_ants s) (loop_path s).

Definition set_extending (v : bool) (s : Anteater) : Anteater :=
  mkAnteater (grid_size s) (tongue s) (direction s) (next_direction s) v
    (retracting s) (move_cooldown s) (move_timer s) (max_segments s)
    (min_loop_area s) (loop_active s) (loop_cells s) (capture_timer s)
    (capture_delay_frames s) (trapped_ants s) (loop_path s).

Definition set_retracting (v : bool) (s : Anteater) : Anteater :=
  mkAnteater (grid_size s) (tongue s) (direction s) (next_direction s)
    (extending s) v (move_cooldown s) (move_timer s) (max_segments s)
    (min_loop_area s) (loop_active s) (loop_cells s) (capture_timer s)
    (capture_delay_frames s) (trapped_ants s) (loop_path s).

Definition set_move_timer (v : Z) (s : Anteater) : Anteater :=
  mkAnteater (grid_size s) (tongue s) (direction s) (next_direction s)
    (extending s) (retracting s) (move_cooldown s) v (max_segments s)
    (min_loop_area s) (loop_active s) (loop_cells s) (capture_timer s)
    (capture_delay_frames s) (trapped_ants s) (loop_path s).

Definition set_loop_active (v : bool) (s : Anteater) : Anteater :=
  mkAnteater (grid_size s) (tongue s) (direction s) (next_direction s)
    (extending s) (retracting s) (move_cooldown s) (move_timer s)
    (max_segments s) (min_loop_area s) v (loop_cells s) (capture_timer s)
    (capture_delay_frames s) (trapped_ants s) (loop_path s).

Definition set_loop_cells (v : gset cell) (s : Anteater) : Anteater :=
  mkAnteater (grid_size s) (tongue s) (direction s) (next_direction s)
    (extending s) (retracting s) (move_cooldown s) (move_timer s)
    (max_segments s) (min_loop_area s) (loop_active s) v (capture_timer s)
    (capture_delay_frames s) (trapped_ants s) (loop_path s).

Definition set_capture_timer (v : Z) (s : Anteater) : Anteater :=
  mkAnteater (grid_size s) (tongue s) (direction s) (next_direction s)
    (extending s) (retracting s) (move_cooldown s) (move_timer s)
    (max_segments s) (min_loop_area s) (loop_active s) (loop_cells s) v
    (capture_delay_frames s) (trapped_ants s) (loop_path s).

Definition set_trapped_ants (v : list nat) (s : Anteater) : Anteater :=
  mkAnteater (grid_size s) (tongue s) (direction s) (next_direction s)
    (extending s) (retracting s) (move_cooldown s) (move_timer s)
    (max_segments s) (min_loop_area s) (loop_active s) (loop_cells s)
    (capture_timer s) (capture_delay_frames s) v (loop_path s).

Definition set_loop_path (v : list cell) (s : Anteater) : Anteater :=
  mkAnteater (grid_size s) (tongue s) (direction s) (next_direction s)
    (extending s) (retracting s) (move_cooldown s) (move_timer s)
    (max_segments s) (min_loop_area s) (loop_active s) (loop_cells s)
    (capture_timer s) (capture_delay_frames s) (trapped_ants s) v.

(** ** [Anteater.__init__] and [Anteater.reset_tongue] *)

(** [rect.centerx] and [rect.bottom] of [Rect(WIDTH // 2 - 25, 50, 50, 50)]. *)
Definition rect_centerx : Z := Z.div WIDTH 2 - 25 + Z.div 50 2.
Definition rect_bottom : Z := 50 + 50.

Definition new_anteater (gs : Z) : res Anteater :=
  start_x ← floordiv rect_centerx gs;
  start_y ← floordiv rect_bottom gs;
  Ok {| grid_size := gs;
        tongue := [(start_x, start_y)];
        direction := (0, 1);
        next_direction := (0, 1);
        extending := false;
        retracting := false;
        move_cooldown := 5;
        move_timer := 0;
        max_segments := 40;
        min_loop_area := 2;
        loop_active := false;
        loop_cells := ∅;
        capture_timer := 0;
        capture_delay_frames := 60;
        trapped_ants := [];
        loop_path := [] |}.

Definition reset_tongue (s : Anteater) : res Anteater :=
  start_x ← floordiv rect_centerx (grid_size s);
  start_y ← floordiv rect_bottom (grid_size s);
  let s := set_tongue [(start_x, start_y)] s in
  let s := set_direction (0, 1) s in
  let s := set_next_direction (direction s) s in
  let s := set_move_timer 0 s in
  let s := set_loop_active false s in
  let s := set_loop_cells ∅ s in
  let s := set_loop_path [] s in
  let s := set_trapped_ants [] s in
  Ok (set_capture_timer 0 s).

(** ** [Anteater.handle_input] *)

(** The four entries of [pygame.key.get_pressed()] that are read. *)
Record Keys : Type := mkKeys {
  K_LEFT : bool;
  K_RIGHT : bool;
  K_UP : bool;
  K_DOWN : bool
}.

Definition handle_input (keys : Keys) (s : Anteater) : Anteater :=
  if K_LEFT keys then
    if bool_decide (direction s ≠ (1, 0)) then set_next_direction (-1, 0) s else s
  else if K_RIGHT keys then
    if bool_decide (direction s ≠ (-1, 0)) then set_next_direction (1, 0) s else s
  else if K_UP keys then
    if bool_decide (direction s ≠ (0, 1)) then set_next_direction (0, -1) s else s
  else if K_DOWN keys then
    if bool_decide (direction s ≠ (0, -1)) then set_next_direction (0, 1) s else s
  else s.

(** ** [Anteater.update] *)

(** Whether a block ran to its end or hit the early [return]. *)
Inductive flow (A : Type) : Type :=
| Continue (a : A)
| Return (a : A).
Arguments Continue {A} a.
Arguments Return {A} a.

(** The body of [if self.move_timer >= self.move_cooldown:] in the
    extending block, after the timer has been reset. *)
Definition advance_head (s : Anteater) : res (flow Anteater) :=
  let s := set_direction (next_direction s) s in
  '(head_x, head_y) ← getitem0 (tongue s);
  let '(dx, dy) := direction s in
  let new_head : cell := (head_x + dx, head_y + dy) in
  qx ← floordiv WIDTH (grid_size s);
  let max_x := qx - 1 in
  qy ← floordiv HEIGHT (grid_size s);
  let max_y := qy - 1 in
  let '(nx, ny) := new_head in
  if (nx <? 0) || (max_x <? nx) || (ny <? 0) || (max_y <? ny) then
    let s := set_extending false s in
    let s := set_retracting true s in
    Ok (Return s)
  else if bool_decide (new_head ∈ tongue s) then
    match index new_head (tongue s) with
    | Some idx =>
        let loop_segment := take (S idx) (tongue s) in
        let s := set_loop_path loop_segment s in
        let s := set_loop_cells (list_to_set loop_segment) s in
        let s := set_loop_active true s in
        let s := set_capture_timer (capture_delay_frames s) s in
        let s := set_extending false s in
        let s := set_retracting true s in
        Ok (Continue s)
    | None => Ok (Continue s)
    end
  else if Z.of_nat (length (tongue s)) <? max_segments s then
    Ok (Continue (set_tongue (new_head :: tongue s) s))
  else
    let s := set_extending false s in
    let s := set_retracting true s in
    Ok (Continue s).

Definition extend_phase (s : Anteater) : res (flow Anteater) :=
  if extending s && negb (loop_active s) then
    let s := set_move_timer (move_timer s + 1) s in
    if move_cooldown s <=? move_timer s then
      advance_head (set_move_timer 0 s)
    else Ok (Continue s)
  else Ok (Continue s).

Definition retract_phase (s : Anteater) : res Anteater :=
  if retracting s then
    let s := set_move_timer (move_timer s + 1) s in
    if move_cooldown s <=? move_timer s then
      let s := set_move_timer 0 s in
      if 1 <? Z.of_nat (length (tongue s)) then
        match popleft (tongue s) with
        | Ok t => Ok (set_tongue t s)
        | Raise _ => t ← pop (tongue s); Ok (set_tongue t s)
        end
      else
        let s := set_retracting false s in
        let s := set_direction (0, 1) s in
        let s := set_next_direction (0, 1) s in
        Ok (set_move_timer 0 s)
    else Ok s
  else Ok s.

Definition update (s : Anteater) : res Anteater :=
  f ← extend_phase s;
  match f with
  | Return s' => Ok s'
  | Continue s' => retract_phase s'
  end.

(** ** The main loop's writes to the anteater

    Every place of the main loop that touches the anteater, one event
    each.  Which ants a loop traps is decided outside (it is the event's
    argument). *)

Inductive event : Type :=
| SpaceDown                       (* KEYDOWN K_SPACE: start extending *)
| SpaceUp                         (* KEYUP K_SPACE: stop extending, retract *)
| ResetKey                        (* KEYDOWN K_r, and the restart button *)
| Input (keys : Keys)             (* anteater.handle_input(keys) *)
| Tick                            (* anteater.update() *)
| Capture (trapped : list nat)    (* a loop has just formed *)
| Countdown.                      (* trapped ants: count down, then clear *)

Definition step (e : event) (s : Anteater) : res Anteater :=
  match e with
  | SpaceDown => Ok (set_retracting false (set_extending true s))
  | SpaceUp => Ok (set_retracting true (set_extending false s))
  | ResetKey =>
      s ← reset_tongue s;
      let s := set_trapped_ants [] s in
      let s := set_loop_path [] s in
      let s := set_loop_cells ∅ s in
      Ok (set_capture_timer 0 s)
  | Input keys => Ok (handle_input keys s)
  | Tick => update s
  | Capture trapped =>
      if loop_active s && bool_decide (trapped_ants s = []) then
        let s := set_trapped_ants trapped s in
        if bool_decide (trapped = []) then
          let s := set_loop_active false s in
          let s := set_loop_cells ∅ s in
          let s := set_loop_path [] s in
          Ok (set_capture_timer 0 s)
        else Ok s
      else Ok s
  | Countdown =>
      if loop_active s && negb (bool_decide (trapped_ants s = [])) then
        if 0 <? capture_timer s then
          Ok (set_capture_timer (capture_timer s - 1) s)
        else
          let s := set_loop_active false s in
          let s := set_loop_cells ∅ s in
          Ok (set_trapped_ants [] s)
      else Ok s
  end.

Fixpoint run (evs : list event) (s : Anteater) : res Anteater :=
  match evs with
  | [] => Ok s
  | e :: evs' => s' ← step e s; run evs' s'
  end.

(** ** Iteration order of a Python [set]

    A [for] loop over a set visits every element once, in an order that
    depends on hashes and history.  Nothing below may depend on it beyond
    that, so it is an arbitrary enumeration. *)

Class SetOrder : Type := {
  iter : ∀ {A : Type} `{Countable A}, gset A → list A;
  iter_perm : ∀ {A : Type} `{Countable A} (X : gset A), iter X ≡ₚ elements X
}.

(** ** Boundary tracing: the primary path of [get_loop_polygon_pixels] *)

(** A boundary edge [(a, b)] between two pixel corners. *)
Definition edge : Type := point * point.

Definition neighbors (c : cell) : list cell :=
  let '(gx, gy) := c in
  [(gx, gy - 1); (gx + 1, gy); (gx, gy + 1); (gx - 1, gy)].

Definition corners (gs : Z) (c : cell) : list point :=
  let '(gx, gy) := c in
  let x0 := gx * gs in
  let y0 := gy * gs in
  let x1 := x0 + gs in
  let y1 := y0 + gs in
  [(x0, y0); (x1, y0); (x1, y1); (x0, y1)].

(** [enumerate(l)]. *)
Definition enumerate {A : Type} (l : list A) : list (nat * A) :=
  zip (seq 0 (length l)) l.

(** [n not in cells]. *)
Definition absent (cells : gset cell) (n : cell) : bool :=
  bool_decide (n ∉ cells).

(** The inner [for i, n in enumerate(neighbors)] loop for one cell. *)
Definition add_cell_edges (gs : Z) (cells : gset cell)
    (edges : gset edge) (c : cell) : gset edge :=
  foldl (λ (es : gset edge) '(i, n),
           if absent cells n then
             let a := corners gs c !!! i in
             let b := corners gs c !!! ((i + 1) `mod` 4)%nat in
             es ∪ {[ (a, b) ]}
           else es)
        edges (enumerate (neighbors c)).

(** The outer [for (gx, gy) in cells] loop. *)
Definition boundary_edges `{SetOrder} (gs : Z) (cells : gset cell) : gset edge :=
  foldl (add_cell_edges gs cells) ∅ (iter cells).

(** The [dict] [adj], in insertion order.
    [adj.setdefault(a, []).append(b)]: *)
Fixpoint adj_append (a b : point) (adj : list (point * list point))
    : list (point * list point) :=
  match adj with
  | [] => [(a, [b])]
  | (k, v) :: rest =>
      if decide (k = a) then (k, v ++ [b]) :: rest
      else (k, v) :: adj_append a b rest
  end.

Definition build_adj (es : list edge) : list (point * list point) :=
  foldl (λ adj '(a, b), adj_append a b adj) [] es.

(** [adj.get(cur, [])]. *)
Fixpoint adj_get (adj : list (point * list point)) (cur : point) : list point :=
  match adj with
  | [] => []
  | (k, v) :: rest => if decide (k = cur) then v else adj_get rest cur
  end.

(** [(p[1], p[0]) < (q[1], q[0])] on tuples. *)
Definition key_lt (p q : point) : bool :=
  (p.2 <? q.2) || ((p.2 =? q.2) && (p.1 <? q.1)).

(** [min(keys, key=lambda p: (p[1], p[0]))]: the first smallest key;
    [ValueError] on an empty sequence. *)
Fixpoint min_from (best : point) (l : list point) : point :=
  match l with
  | [] => best
  | p :: t => min_from (if key_lt p best then p else best) t
  end.

Definition min_key (l : list point) : res point :=
  match l with
  | [] => Raise ValueError
  | p :: t => Ok (min_from p t)
  end.

(** The [while steps < max_steps] loop; [fuel] is [max_steps - steps]. *)
Fixpoint walk (adj : list (point * list point)) (start : point) (fuel : nat)
    (cur : point) (prev : option point) (poly : list point) : list point :=
  match fuel with
  | O => poly
  | S fuel' =>
      match adj_get adj cur with
      | [] => poly
      | (n0 :: _) as nexts =>
          let nxt :=
            match list_find (λ c, Some c ≠ prev) nexts with
            | Some (_, c) => c
            | None => n0
            end in
          if decide (nxt = start) then poly
          else walk adj start fuel' nxt (Some cur) (poly ++ [nxt])
      end
  end.

(** The primary path, from [cells = set(self.loop_path)] to [return poly]. *)
Definition trace_boundary `{SetOrder} (gs : Z) (path : list cell)
    : res (list point) :=
  let cells : gset cell := list_to_set path in
  let edges := boundary_edges gs cells in
  if bool_decide (edges = ∅) then Ok []
  else
    let adj := build_adj (iter edges) in
    start ← min_key (adj.*1);
    let max_steps := (size edges * 3)%nat in
    Ok (walk adj start max_steps start None [start]).

(** ** Python floats

    [float] is IEEE binary64, so [+], [-], [*], [/] and comparisons are
    those of [PrimFloat]; what Python adds is the conversion of integers
    and its exceptions. *)

(** The least magnitude that no longer rounds to a finite binary64:
    half an ulp above the largest float. *)
Definition float_overflow : Z := 2 ^ 1024 - 2 ^ 970.

(** An integer as an exact, not normalised, binary float. *)
Definition Z2SF (z : Z) : spec_float :=
  match z with
  | Z0 => S754_zero false
  | Zpos p => S754_finite false p 0
  | Zneg p => S754_finite true p 0
  end.

(** [float(z)], as done implicitly when an [int] meets a [float]:
    round to nearest even, [OverflowError] when out of range. *)
Definition float_of_int (z : Z) : res float :=
  if Z.abs z <? float_overflow
  then Ok (SF2Prim (binary_normalize prec emax z 0 false))
  else Raise OverflowError.

(** [a / b] on two integers: the correctly rounded quotient. *)
Definition int_truediv (a b : Z) : res float :=
  if decide (b = 0) then Raise ZeroDivisionError
  else if Z.abs a <? float_overflow * Z.abs b
  then Ok (SF2Prim (SFdiv prec emax (Z2SF a) (Z2SF b)))
  else Raise OverflowError.

(** [a / b] on two floats. *)
Definition float_div (a b : float) : res float :=
  if PrimFloat.eqb b 0%float then Raise ZeroDivisionError
  else Ok (PrimFloat.div a b).

(** [z < f] for an integer [z] and a float [f]: Python compares the exact
    values. *)
Definition int_lt_float (z : Z) (f : float) : bool :=
  match Prim2SF f with
  | S754_nan => false
  | S754_infinity s => negb s
  | S754_zero _ => z <? 0
  | S754_finite s m e =>
      let v := if s then Zneg m else Zpos m in
      if 0 <=? e then z <? v * 2 ^ e else z * 2 ^ (- e) <? v
  end.

(** The literal [1e-9]: the binary64 nearest to it. *)
Definition eps : float := 0x1.12e0be826d695p-30%float.

(** ** [point_in_polygon] *)

(** The condition of the [if] for the edge from [(x1, y1)] to [(x2, y2)];
    [and] evaluates its right operand only when the left one holds.  The
    operands of [/] are evaluated left to right, so [y2 - y1] meets the
    float [1e-9], and is converted, before the division converts the
    integer product. *)
Definition crosses (px py : Z) (p1 p2 : point) : res bool :=
  let '(x1, y1) := p1 in
  let '(x2, y2) := p2 in
  if negb (Bool.eqb (py <? y1) (py <? y2)) then
    let num := (x2 - x1) * (py - y1) in
    dy ← float_of_int (y2 - y1);
    let den := PrimFloat.add dy eps in
    fnum ← float_of_int num;
    q ← float_div fnum den;
    fx1 ← float_of_int x1;
    Ok (int_lt_float px (PrimFloat.add q fx1))
  else Ok false.

(** The [for i in range(n)] loop from index [i] on, [k] rounds to go. *)
Fixpoint pip_loop (px py : Z) (polygon : list point) (n i k : nat)
    (inside : bool) : res bool :=
  match k with
  | O => Ok inside
  | S k' =>
      p1 ← getitem polygon i;
      p2 ← getitem polygon ((i + 1) `mod` n)%nat;
      c ← crosses px py p1 p2;
      pip_loop px py polygon n (S i) k' (if c : bool then negb inside else inside)
  end.

Definition point_in_polygon (x y : Z) (polygon : list point) : res bool :=
  let n := length polygon in
  if (n <? 3)%nat then Ok false
  else pip_loop x y polygon n 0 n false.

(** ** The fallback path of [get_loop_polygon_pixels] *)

(** [math.atan2] comes from the C library.  What is known of it here is
    its type and that it gives a NaN only for a NaN (C99, F.9.1.4). *)
Class Libm : Type := {
  atan2 : float → float → float;
  atan2_nan : ∀ y x : float,
    is_nan y = false → is_nan x = false → is_nan (atan2 y x) = false
}.

(** The centre of a cell, in pixels. *)
Definition cell_center (gs : Z) (c : cell) : point :=
  let '(gx, gy) := c in
  (gx * gs + Z.div gs 2, gy * gs + Z.div gs 2).

(** [sum(l)] on integers. *)
Definition sum_list_Z (l : list Z) : Z := foldl Z.add 0 l.

(** The sort key [math.atan2(p[1]-cy, p[0]-cx)] of a point. *)
Definition angle_key `{Libm} (cx cy : float) (p : point) : res float :=
  fy ← float_of_int p.2;
  fx ← float_of_int p.1;
  Ok (atan2 (PrimFloat.sub fy cy) (PrimFloat.sub fx cx)).

(** The keys of all points, computed before any element moves. *)
Fixpoint angle_keys `{Libm} (cx cy : float) (pts : list point)
    : res (list float) :=
  match pts with
  | [] => Ok []
  | p :: t =>
      k ← angle_key cx cy p;
      ks ← angle_keys cx cy t;
      Ok (k :: ks)
  end.

(** [list.sort(key=...)]: ascending in [<] on the keys and stable, which
    for keys that [<] orders totally (no NaN) fixes the result; written
    as the insertion of each element behind those not greater. *)
Fixpoint insert_by_key (x : float * point) (l : list (float * point))
    : list (float * point) :=
  match l with
  | [] => [x]
  | y :: t =>
      if PrimFloat.ltb x.1 y.1 then x :: y :: t
      else y :: insert_by_key x t
  end.

Definition sort_by_key (l : list (float * point)) : list (float * point) :=
  foldl (λ acc x, insert_by_key x acc) [] l.

Definition fallback `{SetOrder} `{Libm} (gs : Z) (cells : gset cell)
    : res (list point) :=
  let pts := cell_center gs <$> iter cells in
  if bool_decide (pts = []) then Ok []
  else
    cx ← int_truediv (sum_list_Z (pts.*1)) (Z.of_nat (length pts));
    cy ← int_truediv (sum_list_Z (pts.*2)) (Z.of_nat (length pts));
    keys ← angle_keys cx cy pts;
    Ok ((sort_by_key (zip keys pts)).*2).

(** ** [Anteater.get_loop_polygon_pixels] *)

Definition get_loop_polygon_pixels `{SetOrder} `{Libm} (s : Anteater)
    : res (list point) :=
  if bool_decide (loop_cells s = ∅) then Ok []
  else if bool_decide (loop_path s ≠ [])
          && (min_loop_area s <=? Z.of_nat (length (loop_path s)))
  then trace_boundary (grid_size s) (loop_path s)
  else fallback (grid_size s) (loop_cells s).

(** * Notions used to state the properties

    Nothing here is code of the game: these definitions name conditions,
    states and views of the program above. *)

(** ** The tongue *)

(** States the game can be in: those reached from [Anteater(grid_size=20)]. *)
Definition reachable (s : Anteater) : Prop :=
  ∃ s0 evs, new_anteater 20 = Ok s0 ∧ run evs s0 = Ok s.

(** The cell one step ahead of the head in the buffered direction. *)
Definition new_head_of (s : Anteater) : res cell :=
  '(head_x, head_y) ← getitem0 (tongue s);
  let '(dx, dy) := next_direction s in
  Ok (head_x + dx, head_y + dy).

(** The extending block runs and its cooldown expires on this call. *)
Definition advances (s : Anteater) : bool :=
  extending s && negb (loop_active s) && (move_cooldown s <=? move_timer s + 1).

(** The bounds test of [update] on a cell. *)
Definition out_of_bounds (gs : Z) (c : cell) : bool :=
  let '(nx, ny) := c in
  (nx <? 0) || (Z.div WIDTH gs - 1 <? nx) || (ny <? 0) || (Z.div HEIGHT gs - 1 <? ny).

(** The exact reverse of a direction. *)
Definition opposite (d : Z * Z) : Z * Z := (- fst d, - snd d).

(** The four unit directions. *)
Definition is_unit_direction (d : Z * Z) : Prop :=
  d = (1, 0) ∨ d = (-1, 0) ∨ d = (0, 1) ∨ d = (0, -1).

(** The direction that [handle_input] is asked for: the first pressed key
    in the order of its [if]/[elif] chain. *)
Definition requested (keys : Keys) : option (Z * Z) :=
  if K_LEFT keys then Some (-1, 0)
  else if K_RIGHT keys then Some (1, 0)
  else if K_UP keys then Some (0, -1)
  else if K_DOWN keys then Some (0, 1)
  else None.

(** What [update] leaves behind when the new head is off the grid. *)
Definition rejected (s : Anteater) : Anteater :=
  set_retracting true (set_extending false
    (set_direction (next_direction s) (set_move_timer 0 s))).

(** What the extending block leaves behind when the new head is the cell
    at index [idx] of the tongue. *)
Definition looped (idx : nat) (s : Anteater) : Anteater :=
  let seg := take (S idx) (tongue s) in
  set_retracting true (set_extending false
    (set_capture_timer (capture_delay_frames s)
      (set_loop_active true (set_loop_cells (list_to_set seg)
        (set_loop_path seg
          (set_direction (next_direction s) (set_move_timer 0 s))))))).

(** What the extending block leaves behind when it prepends the cell [h]. *)
Definition extended (h : cell) (s : Anteater) : Anteater :=
  set_tongue (h :: tongue s)
    (set_direction (next_direction s) (set_move_timer 0 s)).

(** What holds of the anteater throughout a game. *)
Definition tongue_inv (s : Anteater) : Prop :=
  grid_size s = 20 ∧
  move_cooldown s = 5 ∧
  max_segments s = 40 ∧
  min_loop_area s = 2 ∧
  tongue s ≠ [] ∧
  NoDup (tongue s) ∧
  is_unit_direction (direction s) ∧
  is_unit_direction (next_direction s) ∧
  next_direction s ≠ opposite (direction s) ∧
  extending s && retracting s = false ∧
  (loop_cells s = ∅ ∨
   (loop_cells s = list_to_set (loop_path s) ∧ NoDup (loop_path s) ∧
    loop_path s ≠ [])).

(** ** The directions applied in a run

    What an event of the main loop does to the direction in force: a
    call of [update] at which the head advances applies a direction; the
    end of a retraction (the flag [retracting] set before the call and
    clear after it) and a reset put [(0, 1)] back. *)

Inductive mark : Type :=
| Applied (d : Z * Z)
| Rewound.

Definition mark_of (e : event) (s s' : Anteater) : list mark :=
  match e with
  | Tick =>
      if advances s then [Applied (direction s')]
      else if retracting s && negb (retracting s') then [Rewound]
      else []
  | ResetKey => [Rewound]
  | _ => []
  end.

(** The marks of a run from [s], in order of time. *)
Fixpoint marks (evs : list event) (s : Anteater) : list mark :=
  match evs with
  | [] => []
  | e :: evs' =>
      match step e s with
      | Ok s' => mark_of e s s' ++ marks evs' s'
      | Raise _ => []
      end
  end.

(** The directions applied in a run, one per advance of the head. *)
Definition applied_directions (evs : list event) (s : Anteater)
    : list (Z * Z) :=
  omap (λ m, match m with Applied d => Some d | Rewound => None end)
       (marks evs s).

(** ** The outcome of an extension attempt

    [update] does not name the outcome of an attempt to extend; the four
    branches of its extending block are the four outcomes of the
    specification's [extend_head]. *)

Inductive ExtendOutcome : Type :=
| OutOfBounds
| SelfIntersected (at_index : nat)
| Extended
| MaxLengthReached.

(** Which branch the extending block takes, by the tests of [update] in
    their order ([new_head in tongue] holds exactly when [index] finds
    the cell). *)
Definition extend_head (s : Anteater) : res ExtendOutcome :=
  h ← new_head_of s;
  _ ← floordiv WIDTH (grid_size s);
  _ ← floordiv HEIGHT (grid_size s);
  if out_of_bounds (grid_size s) h then Ok OutOfBounds
  else
    match index h (tongue s) with
    | Some idx => Ok (SelfIntersected idx)
    | None =>
        if Z.of_nat (length (tongue s)) <? max_segments s then Ok Extended
        else Ok MaxLengthReached
    end.

(** The state that each outcome leaves, and whether [update] returns
    there. *)
Definition after_outcome (s : Anteater) (o : ExtendOutcome)
    : res (flow Anteater) :=
  match o with
  | OutOfBounds => Ok (Return (rejected s))
  | SelfIntersected idx => Ok (Continue (looped idx s))
  | Extended => h ← new_head_of s; Ok (Continue (extended h s))
  | MaxLengthReached => Ok (Continue (rejected s))
  end.

(** ** The boundary *)

(** The edges that the inner loop adds for one cell, up, right, down,
    left in turn. *)
Definition emitted (gs : Z) (cells : gset cell) (c : cell) : list edge :=
  let '(gx, gy) := c in
  let x0 := gx * gs in
  let y0 := gy * gs in
  let x1 := x0 + gs in
  let y1 := y0 + gs in
  (if absent cells (gx, gy - 1) then [((x0, y0), (x1, y0))] else []) ++
  (if absent cells (gx + 1, gy) then [((x1, y0), (x1, y1))] else []) ++
  (if absent cells (gx, gy + 1) then [((x1, y1), (x0, y1))] else []) ++
  (if absent cells (gx - 1, gy) then [((x0, y1), (x0, y0))] else []).

(** The edges of a closed chain of corners: each corner to the next, the
    last one back to the first. *)
Definition cycle_edges (cyc : list point) : list edge :=
  zip cyc (tail cyc ++ take 1 cyc).

(** The corners on the outline of the 3x3 block of cells whose top-left
    cell is [(c, r)], clockwise on screen from the top-left corner: one
    corner per cell side, twelve in all. *)
Definition block_perimeter (gs c r : Z) : list point :=
  let x0 := c * gs in
  let y0 := r * gs in
  [(x0, y0); (x0 + gs, y0); (x0 + 2 * gs, y0);
   (x0 + 3 * gs, y0); (x0 + 3 * gs, y0 + gs); (x0 + 3 * gs, y0 + 2 * gs);
   (x0 + 3 * gs, y0 + 3 * gs); (x0 + 2 * gs, y0 + 3 * gs); (x0 + gs, y0 + 3 * gs);
   (x0, y0 + 3 * gs); (x0, y0 + 2 * gs); (x0, y0 + gs)].

(** ** [point_in_polygon] over the edges of the polygon *)

(** The loop of [point_in_polygon] as a pass over the list of edges. *)
Fixpoint cross_parity (px py : Z) (es : list edge) (inside : bool) : res bool :=
  match es with
  | [] => Ok inside
  | (p1, p2) :: es' =>
      c ← crosses px py p1 p2;
      cross_parity px py es' (if c : bool then negb inside else inside)
  end.

(** Whether the test of an edge holds; [false] also when it raises. *)
Definition crossed (px py : Z) (e : edge) : bool :=
  match crosses px py e.1 e.2 with
  | Ok c => c
  | Raise _ => false
  end.

(** The parity of the number of [true] in a list. *)
Definition parity (l : list bool) : bool := foldr xorb false l.

(** The segments of an open chain of points. *)
Definition chain (l : list point) : list edge := zip l (tail l).


(** An edge that is horizontal or vertical. *)
Definition axis_aligned (e : edge) : Prop := e.1.1 = e.2.1 ∨ e.1.2 = e.2.2.

(** Coordinates up to this magnitude (about a million pixels; the screen
    is 800 by 600) are covered by the check of the denominators below. *)
Definition coordinate_bound : Z := 2 ^ 20.

Definition in_bound (p : point) : Prop :=
  - coordinate_bound ≤ p.1 ≤ coordinate_bound ∧
  - coordinate_bound ≤ p.2 ≤ coordinate_bound.

(** The denominator [(y2 - y1 + 1e-9)] for [y2 - y1 = d] is an ordinary
    non-zero float. *)
Definition denominator_finite (d : Z) : bool :=
  match float_of_int d with
  | Ok f =>
      match Prim2SF (PrimFloat.add f eps) with
      | S754_finite _ _ _ => true
      | _ => false
      end
  | Raise _ => false
  end.

(** A float that is neither a zero, an infinity nor a NaN. *)
Definition ordinary (f : float) : bool :=
  match classify f with
  | PNormal | NNormal | PSubn | NSubn => true
  | _ => false
  end.

(** The same test as [denominator_finite], for [d] and [- d] at once
    and on the machine's own conversion and classification. *)
Definition quick_check (d : Z) : bool :=
  let f := of_uint63 (Uint63.of_Z d) in
  ordinary (PrimFloat.add f eps)
  && ordinary (PrimFloat.add (PrimFloat.opp f) eps).

(** [P] holds of the [n] integers from [d] on. *)
Fixpoint all_from (P : Z → bool) (n : nat) (d : Z) : bool :=
  match n with
  | O => true
  | S n' => P d && all_from P n' (d + 1)
  end.

(** ** The fallback path *)

(** The centre point of a cell: half a cell, rounded down, from its
    top-left corner. *)
Definition centre (gs : Z) (c : cell) : point :=
  (gs * c.1 + gs `div` 2, gs * c.2 + gs `div` 2).

(** The float nearest to an integer. *)
Definition nearest (z : Z) : float :=
  SF2Prim (binary_normalize prec emax z 0 false).

(** The mean of a list of integers: the float nearest to the quotient of
    their sum by their number. *)
Definition mean (l : list Z) : float :=
  SF2Prim (SFdiv prec emax (Z2SF (foldr Z.add 0 l))
             (Z2SF (Z.of_nat (length l)))).

(** The angle [atan2(y - cy, x - cx)] of the point [(x, y)] around
    [(cx, cy)]. *)
Definition angle `{Libm} (cx cy : float) (p : point) : float :=
  atan2 (PrimFloat.sub (nearest p.2) cy) (PrimFloat.sub (nearest p.1) cx).

(** [p] comes no later than [q] in ascending order of the angle around
    [(cx, cy)]. *)
Definition angle_le `{Libm} (cx cy : float) (p q : point) : Prop :=
  PrimFloat.leb (angle cx cy p) (angle cx cy q) = true.

(** * States and scenarios of the examples *)

(** One possible order. *)
Definition elements_order : SetOrder :=
  {| iter := λ A _ _ X, elements X;
     iter_perm := λ A _ _ X, reflexivity (elements X) |}.

(** A C library to run examples with: its [atan2] is not the real one,
    it returns its first argument. *)
Definition any_libm : Libm :=
  {| atan2 := λ y x, y; atan2_nan := λ y x Hy Hx, Hy |}.

Definition no_keys : Keys := mkKeys false false false false.
Definition key_left : Keys := mkKeys true false false false.
Definition key_right : Keys := mkKeys false true false false.
Definition key_up : Keys := mkKeys false false true false.

(** [n] frames of the main loop with the same keys held: each frame calls
    [handle_input] and then [update]. *)
Definition frames (keys : Keys) (n : nat) : list event :=
  concat (replicate n [Input keys; Tick]).

(** Space held for one step down, one to the left and one up; space
    released until the tongue is back; space held again for one step. *)
Definition across_retraction : list event :=
  SpaceDown :: frames no_keys 5 ++ frames key_left 5 ++ frames key_up 5
    ++ SpaceUp :: frames no_keys 20 ++ SpaceDown :: frames no_keys 5.

(** [Anteater(grid_size=20)], evaluated. *)
Definition seed_state : Anteater :=
  {| grid_size := 20;
     tongue := [(20, 5)];
     direction := (0, 1);
     next_direction := (0, 1);
     extending := false;
     retracting := false;
     move_cooldown := 5;
     move_timer := 0;
     max_segments := 40;
     min_loop_area := 2;
     loop_active := false;
     loop_cells := ∅;
     capture_timer := 0;
     capture_delay_frames := 60;
     trapped_ants := [];
     loop_path := [] |}.

(** A tongue that has gone down, right and up around a 2x2 block and is
    about to turn left into its own tail. *)
Definition ring_state : Anteater :=
  {| grid_size := 20;
     tongue := [(21, 5); (21, 6); (20, 6); (20, 5)];
     direction := (0, -1);
     next_direction := (-1, 0);
     extending := true;
     retracting := false;
     move_cooldown := 5;
     move_timer := 4;
     max_segments := 40;
     min_loop_area := 2;
     loop_active := false;
     loop_cells := ∅;
     capture_timer := 0;
     capture_delay_frames := 60;
     trapped_ants := [];
     loop_path := [] |}.

(** The same tongue with [max_segments] already reached. *)
Definition ring_state_full : Anteater :=
  {| grid_size := 20;
     tongue := [(21, 5); (21, 6); (20, 6); (20, 5)];
     direction := (0, -1);
     next_direction := (-1, 0);
     extending := true;
     retracting := false;
     move_cooldown := 5;
     move_timer := 4;
     max_segments := 4;
     min_loop_area := 2;
     loop_active := false;
     loop_cells := ∅;
     capture_timer := 0;
     capture_delay_frames := 60;
     trapped_ants := [];
     loop_path := [] |}.

(** A tongue whose head is on the bottom row of the 40x30 grid, still
    heading down. *)
Definition bottom_state : Anteater :=
  {| grid_size := 20;
     tongue := [(20, 29); (20, 28); (20, 27)];
     direction := (0, 1);
     next_direction := (0, 1);
     extending := true;
     retracting := false;
     move_cooldown := 5;
     move_timer := 4;
     max_segments := 40;
     min_loop_area := 2;
     loop_active := false;
     loop_cells := ∅;
     capture_timer := 0;
     capture_delay_frames := 60;
     trapped_ants := [];
     loop_path := [] |}.

(** A retracting tongue of three cells whose cooldown is about to expire. *)
Definition retracting_state : Anteater :=
  {| grid_size := 20;
     tongue := [(19, 6); (20, 6); (20, 5)];
     direction := (-1, 0);
     next_direction := (-1, 0);
     extending := false;
     retracting := true;
     move_cooldown := 5;
     move_timer := 4;
     max_segments := 40;
     min_loop_area := 2;
     loop_active := false;
     loop_cells := ∅;
     capture_timer := 0;
     capture_delay_frames := 60;
     trapped_ants := [];
     loop_path := [] |}.

(** Space pressed, four frames later left is pressed: the next [update]
    advances the head. *)
Definition turning_state : Anteater :=
  {| grid_size := 20;
     tongue := [(20, 5)];
     direction := (0, 1);
     next_direction := (-1, 0);
     extending := true;
     retracting := false;
     move_cooldown := 5;
     move_timer := 4;
     max_segments := 40;
     min_loop_area := 2;
     loop_active := false;
     loop_cells := ∅;
     capture_timer := 0;
     capture_delay_frames := 60;
     trapped_ants := [];
     loop_path := [] |}.

(** Scenario A up to the last [update]: space held; 10 steps down (the
    cooldown is 5 frames a step), 5 left, 10 up, 4 right, and the frames of
    the fifth step to the right up to its [update]. *)
Definition scenario_A_before : list event :=
  SpaceDown :: frames no_keys 50 ++ frames key_left 25 ++ frames key_up 50
    ++ frames key_right 24 ++ [Input key_right].

Definition scenario_A : list event := scenario_A_before ++ [Tick].

(** The cells on the border of the rectangle of columns 15..20 and rows
    5..15. *)
Definition on_ring (c : cell) : Prop :=
  15 ≤ c.1 ≤ 20 ∧ 5 ≤ c.2 ≤ 15 ∧ (c.1 = 15 ∨ c.1 = 20 ∨ c.2 = 5 ∨ c.2 = 15).

(** The tongue of scenario A when its head is about to re-enter the seed
    cell, head first. *)
Definition scenario_A_path : list cell :=
  [(19, 5); (18, 5); (17, 5); (16, 5);
   (15, 5); (15, 6); (15, 7); (15, 8); (15, 9); (15, 10); (15, 11); (15, 12);
   (15, 13); (15, 14);
   (15, 15); (16, 15); (17, 15); (18, 15); (19, 15);
   (20, 15); (20, 14); (20, 13); (20, 12); (20, 11); (20, 10); (20, 9);
   (20, 8); (20, 7); (20, 6); (20, 5)].

(** The state of scenario A just before its last [update], and after it. *)
Definition scenario_A_state_before : Anteater :=
  {| grid_size := 20;
     tongue := scenario_A_path;
     direction := (1, 0);
     next_direction := (1, 0);
     extending := true;
     retracting := false;
     move_cooldown := 5;
     move_timer := 4;
     max_segments := 40;
     min_loop_area := 2;
     loop_active := false;
     loop_cells := ∅;
     capture_timer := 0;
     capture_delay_frames := 60;
     trapped_ants := [];
     loop_path := [] |}.

Definition scenario_A_state : Anteater :=
  {| grid_size := 20;
     tongue := scenario_A_path;
     direction := (1, 0);
     next_direction := (1, 0);
     extending := false;
     retracting := true;
     move_cooldown := 5;
     move_timer := 1;
     max_segments := 40;
     min_loop_area := 2;
     loop_active := true;
     loop_cells := list_to_set scenario_A_path;
     capture_timer := 60;
     capture_delay_frames := 60;
     trapped_ants := [];
     loop_path := scenario_A_path |}.

(** A loop whose cells are the 3x3 block at the origin. *)
Definition block_state : Anteater :=
  {| grid_size := 20;
     tongue := [(2, 2); (1, 2); (0, 2); (0, 1); (1, 1); (2, 1); (2, 0); (1, 0);
                (0, 0)];
     direction := (1, 0);
     next_direction := (1, 0);
     extending := false;
     retracting := true;
     move_cooldown := 5;
     move_timer := 1;
     max_segments := 40;
     min_loop_area := 2;
     loop_active := true;
     loop_cells := list_to_set [(2, 2); (1, 2); (0, 2); (0, 1); (1, 1); (2, 1);
                                (2, 0); (1, 0); (0, 0)];
     capture_timer := 60;
     capture_delay_frames := 60;
     trapped_ants := [];
     loop_path := [(2, 2); (1, 2); (0, 2); (0, 1); (1, 1); (2, 1); (2, 0); (1, 0);
                   (0, 0)] |}.

(** The polygon of the counterexample to reversal: a right triangle and
    its corner [(1, 0)] as the query point. *)
Definition slanted_triangle : list point := [(1, 0); (0, 1); (1, 1)].

(** Three cells around a corner, with [min_loop_area = 5]. *)
Definition three_cell_state : Anteater :=
  {| grid_size := 20;
     tongue := [(4, 5); (4, 4); (3, 4)];
     direction := (0, 1);
     next_direction := (0, 1);
     extending := false;
     retracting := true;
     move_cooldown := 5;
     move_timer := 1;
     max_segments := 40;
     min_loop_area := 5;
     loop_active := true;
     loop_cells := list_to_set [(4, 5); (4, 4); (3, 4)];
     capture_timer := 60;
     capture_delay_frames := 60;
     trapped_ants := [];
     loop_path := [(4, 5); (4, 4); (3, 4)] |}.

(** Scenario C: a loop of a single cell, with [min_loop_area = 2]. *)
Definition single_cell_state : Anteater :=
  {| grid_size := 20;
     tongue := [(3, 4); (4, 4); (4, 5)];
     direction := (-1, 0);
     next_direction := (-1, 0);
     extending := false;
     retracting := true;
     move_cooldown := 5;
     move_timer := 1;
     max_segments := 40;
     min_loop_area := 2;
     loop_active := true;
     loop_cells := {[ (3, 4) ]};
     capture_timer := 60;
     capture_delay_frames := 60;
     trapped_ants := [];
     loop_path := [(3, 4)] |}.

(** * The game beyond the tongue's own steps *)

(** ** The shape of the tongue in play *)

(** Two cells that share a side. *)
Definition adjacent (a b : cell) : Prop :=
  Z.abs (a.1 - b.1) + Z.abs (a.2 - b.2) = 1.

(** Every cell of the list shares a side with the next one. *)
Definition linked (l : list cell) : Prop :=
  ∀ i a b, l !! i = Some a → l !! S i = Some b → adjacent a b.

(** A cell that passes the bounds test of [update]. *)
Definition on_grid (gs : Z) (c : cell) : Prop := out_of_bounds gs c = false.

(** What a loop that has formed looks like: the cells of [loop_path], a
    closed chain of at least two distinct cells of the grid. *)
Definition loop_shape (s : Anteater) : Prop :=
  loop_cells s = list_to_set (loop_path s) ∧
  NoDup (loop_path s) ∧
  (2 ≤ length (loop_path s) ≤ 40)%nat ∧
  Forall (on_grid 20) (loop_path s) ∧
  linked (loop_path s) ∧
  ∃ a b, head (loop_path s) = Some a ∧ last (loop_path s) = Some b ∧
         adjacent a b.

(** What holds of timers, tongue and loop throughout a game, besides
    [tongue_inv]. *)
Definition shape_inv (s : Anteater) : Prop :=
  capture_delay_frames s = 60 ∧
  0 ≤ move_timer s < 5 ∧
  0 ≤ capture_timer s ≤ 60 ∧
  (length (tongue s) ≤ 40)%nat ∧
  last (tongue s) = Some (20, 5) ∧
  Forall (on_grid 20) (tongue s) ∧
  linked (tongue s) ∧
  (loop_active s = false → loop_cells s = ∅) ∧
  (loop_active s = true → loop_shape s).

Definition play_inv (s : Anteater) : Prop := tongue_inv s ∧ shape_inv s.

(** ** Scenarios of play *)

(** Three steps down and one to the left; space released until the cell
    on the left is pulled back; then up and space, held until the head
    advances: it runs into the cell behind it. *)
Definition fold_back : list event :=
  SpaceDown :: frames no_keys 15 ++ frames key_left 5 ++ [SpaceUp]
    ++ frames no_keys 5 ++ SpaceDown :: frames key_up 5.

(** Frames of the main loop with the keys held in each: every frame
    calls [handle_input] and then [update]. *)
Definition held (ks : list Keys) : list event :=
  concat ((λ k, [Input k; Tick]) <$> ks).

(** The fields that a retraction reads or writes. *)
Definition pulling (C : Z) (l : list cell) (t : Z) (r : bool) (d : Z * Z)
    (s : Anteater) : Prop :=
  move_cooldown s = C ∧ extending s = false ∧ retracting s = r ∧
  tongue s = l ∧ move_timer s = t ∧ direction s = d.

(** One frame of the main loop with the menus closed and no key event:
    [handle_input] with the keys held, [update], the test for a loop that
    has just formed (with the ants found inside it), and the countdown of
    the capture timer. *)
Definition play_frame (f : Keys * list nat) : list event :=
  [Input f.1; Tick; Capture f.2; Countdown].

Definition play_frames (fs : list (Keys * list nat)) : list event :=
  concat (play_frame <$> fs).

(** ** The traced polygon *)

(** An edge that is one grid step to the right, down, to the left or up. *)
Definition unit_step (gs : Z) (e : edge) : Prop :=
  (e.2.1 - e.1.1, e.2.2 - e.1.2) ∈ [(gs, 0); (0, gs); (- gs, 0); (0, - gs)].

(** ** The ray test in integers *)

(** The test of [point_in_polygon] on a vertical edge, in exact integer
    arithmetic: the edge spans the row of the point, and the point is to
    the left of it. *)
Definition ray_hits (px py : Z) (e : edge) : bool :=
  negb (Bool.eqb (py <? e.1.2) (py <? e.2.2)) && (px <? e.1.1).

(** * More of the program: ants in the loop, text boxes *)

(** ** What is used of pygame

    A [pygame.Rect] is known by the four numbers it is made from; its
    attributes [centerx] and [centery] and its method [collidepoint]
    belong to the library, and only their types are known here.
    [K_BACKSPACE] and [K_RETURN] are two distinct key codes. *)

Record Rect : Type := mkRect {
  rect_x : Z;
  rect_y : Z;
  rect_w : Z;
  rect_h : Z
}.

Class Pygame : Type := {
  centerx : Rect → Z;
  centery : Rect → Z;
  collidepoint : Rect → Z * Z → bool;
  K_BACKSPACE : Z;
  K_RETURN : Z;
  K_distinct : K_BACKSPACE ≠ K_RETURN
}.

(** ** [capture_ants_in_loop] *)

Module Ant.

(** The attributes of an [Ant] that the capture reads or writes. *)
Record t : Type := mk {
  rect : Rect;
  trapped : bool;
  trapped_pos : option (Z * Z)
}.

End Ant.

(** The [for ant in ants_list] loop. *)
Fixpoint capture_loop `{Pygame} (pts : list point) (ants_list : list Ant.t)
    (captured : list Ant.t) : res (list Ant.t) :=
  match ants_list with
  | [] => Ok captured
  | ant :: rest =>
      let ax := centerx (Ant.rect ant) in
      let ay := centery (Ant.rect ant) in
      inside ← point_in_polygon ax ay pts;
      capture_loop pts rest
        (if inside : bool then captured ++ [ant] else captured)
  end.

Definition capture_ants_in_loop `{SetOrder} `{Libm} `{Pygame}
    (anteater : Anteater) (ants_list : list Ant.t) : res (list Ant.t) :=
  pts ← get_loop_polygon_pixels anteater;
  if bool_decide (pts = []) then Ok []
  else capture_loop pts ants_list [].

(** ** [TextInput] *)

(** A character is a Unicode code point, a [str] a list of them. *)
Definition char : Type := N.
Definition str : Type := list char.

(** The events that [handle_event] tells apart, with the attributes it
    reads. *)
Inductive Event : Type :=
| MOUSEBUTTONDOWN (pos : Z * Z)
| KEYDOWN (key : Z) (unicode : str)
| OtherEvent.

Module TextInput.

Record t : Type := mk {
  rect : Rect;
  text : str;
  active : bool;
  hidden : bool
}.

Definition set_text (v : str) (self : t) : t :=
  mk (rect self) v (active self) (hidden self).

Definition set_active (v : bool) (self : t) : t :=
  mk (rect self) (text self) v (hidden self).

(** [TextInput(x, y, w, h, text, hidden)]. *)
Definition new (x y w h : Z) (text : str) (hidden : bool) : t :=
  mk (mkRect x y w h) text false hidden.

Definition handle_event `{Pygame} (event : Event) (self : t) : t :=
  let self :=
    match event with
    | MOUSEBUTTONDOWN pos => set_active (collidepoint (rect self) pos) self
    | _ => self
    end in
  match event with
  | KEYDOWN key unicode =>
      if active self then
        if bool_decide (key = K_BACKSPACE) then
          set_text (removelast (text self)) self
        else if bool_decide (key = K_RETURN) then
          set_active false self
        else if bool_decide (unicode ≠ []) && (length (text self) <? 64)%nat then
          set_text (text self ++ unicode) self
        else self
      else self
  | _ => self
  end.

End TextInput.

(** Routing a sequence of events to a box, as the main loop does. *)
Definition handle_events `{Pygame} (events : list Event) (box : TextInput.t)
    : TextInput.t :=
  foldl (λ b e, TextInput.handle_event e b) box events.

(** ** Notions for the capture *)

(** Whether [point_in_polygon] holds of the centre of an ant; [false]
    also when it raises. *)
Definition inside `{Pygame} (pts : list point) (ant : Ant.t) : bool :=
  match point_in_polygon (centerx (Ant.rect ant)) (centery (Ant.rect ant)) pts with
  | Ok b => b
  | Raise _ => false
  end.

(** A key event that types at most one character. *)
Definition one_char (e : Event) : Prop :=
  match e with
  | KEYDOWN _ unicode => (length unicode ≤ 1)%nat
  | _ => True
  end.

(** An event that is not a click inside the rectangle. *)
Definition no_click `{Pygame} (r : Rect) (e : Event) : Prop :=
  match e with
  | MOUSEBUTTONDOWN pos => collidepoint r pos = false
  | _ => True
  end.

(** ** Examples *)

(** A pygame to run examples with: [Rect] attributes as the library
    documents them, and its key codes. *)
Definition any_pygame : Pygame :=
  {| centerx := λ r, rect_x r + rect_w r `div` 2;
     centery := λ r, rect_y r + rect_h r `div` 2;
     collidepoint := λ r p,
       (rect_x r <=? p.1) && (p.1 <? rect_x r + rect_w r) &&
       (rect_y r <=? p.2) && (p.2 <? rect_y r + rect_h r);
     K_BACKSPACE := 8;
     K_RETURN := 13;
     K_distinct := ltac:(discriminate) |}.

(** The username box of the login screen, clicked. *)
Definition username_input_active : TextInput.t :=
  TextInput.set_active true (TextInput.new 250 200 300 40 [] false).

(** Two ants of the size [Ant.SIZE] = 20, one inside the loop of scenario
    A and one outside. *)
Definition two_ants : list Ant.t :=
  [Ant.mk (mkRect 340 200 20 20) false None;
   Ant.mk (mkRect 100 400 20 20) false None].

(** ** Notions for the ray along a row of cells *)

(** Whether the cell in column [k] of row [j] is in the set. *)
Definition in_row (F : gset cell) (j k : Z) : bool :=
  bool_decide ((k, j) ∈ F).

(** Among the [n] columns from [k] on, those whose cell and the cell to
    its left are one in the set and one not. *)
Fixpoint changes (F : gset cell) (j k : Z) (n : nat) : list Z :=
  match n with
  | O => []
  | S n' =>
      (if xorb (in_row F j (k - 1)) (in_row F j k) then [k] else [])
        ++ changes F j (k + 1) n'
  end.

(** The boundary edge between columns [k - 1] and [k] of row [j], when
    there is one: the right side of the cell on the left if that cell is
    in the set, otherwise the left side of the cell on the right. *)
Definition side_edge (gs : Z) (F : gset cell) (j k : Z) : edge :=
  if in_row F j (k - 1)
  then (((k - 1) * gs + gs, j * gs), ((k - 1) * gs + gs, j * gs + gs))
  else ((k * gs, j * gs + gs), (k * gs, j * gs)).

(** ** Rectangles of cells *)

(** The cells of the rectangle of [w] by [h] cells whose top-left cell is
    [(c, r)], and those on its border. *)
Definition in_rect (c r : Z) (w h : nat) (x : cell) : Prop :=
  c ≤ x.1 < c + Z.of_nat w ∧ r ≤ x.2 < r + Z.of_nat h.

Definition on_border (c r : Z) (w h : nat) (x : cell) : Prop :=
  in_rect c r w h x ∧
  (x.1 = c ∨ x.1 = c + Z.of_nat w - 1 ∨ x.2 = r ∨ x.2 = r + Z.of_nat h - 1).

(** The [j]-th corner on the outline of the rectangle, clockwise on
    screen from the top-left corner: along the top, down the right side,
    back along the bottom, up the left side; one corner per cell side. *)
Definition rect_corner (gs c r : Z) (w h j : nat) : point :=
  if (j <? w)%nat then
    ((c + Z.of_nat j) * gs, r * gs)
  else if (j <? w + h)%nat then
    ((c + Z.of_nat w) * gs, (r + Z.of_nat (j - w)) * gs)
  else if (j <? w + h + w)%nat then
    ((c + Z.of_nat w - Z.of_nat (j - (w + h))) * gs, (r + Z.of_nat h) * gs)
  else
    (c * gs, (r + Z.of_nat h - Z.of_nat (j - (w + h + w))) * gs).

Definition rect_perimeter (gs c r : Z) (w h : nat) : list point :=
  rect_corner gs c r w h <$> seq 0 (2 * (w + h)).

(** The border cell whose outer side starts at the [j]-th corner, and
    that side as the tracer emits it. *)
Definition rect_side_cell (c r : Z) (w h j : nat) : cell :=
  if (j <? w)%nat then (c + Z.of_nat j, r)
  else if (j <? w + h)%nat then (c + Z.of_nat w - 1, r + Z.of_nat (j - w))
  else if (j <? w + h + w)%nat then
    (c + Z.of_nat w - 1 - Z.of_nat (j - (w + h)), r + Z.of_nat h - 1)
  else (c, r + Z.of_nat h - 1 - Z.of_nat (j - (w + h + w))).

Definition rect_side (gs c r : Z) (w h j : nat) : edge :=
  let '(x, y) := rect_side_cell c r w h j in
  if (j <? w)%nat then ((x * gs, y * gs), (x * gs + gs, y * gs))
  else if (j <? w + h)%nat then
    ((x * gs + gs, y * gs), (x * gs + gs, y * gs + gs))
  else if (j <? w + h + w)%nat then
    ((x * gs + gs, y * gs + gs), (x * gs, y * gs + gs))
  else ((x * gs, y * gs + gs), (x * gs, y * gs)).

(** All the cells of the rectangle. *)
Definition rect_cells (c r : Z) (w h : nat) : gset cell :=
  list_to_set (x ← seqZ c (Z.of_nat w); (λ y, (x, y)) <$> seqZ r (Z.of_nat h)).

(** The outer sides of the rectangle, as the tracer emits them: the top
    side of a cell of its first row, the right side of a cell of its last
    column, the bottom side of a cell of its last row, the left side of a
    cell of its first column. *)
Definition outer_side (gs c r : Z) (w h : nat) (e : edge) : Prop :=
  ∃ a b, in_rect c r w h (a, b) ∧
    ((b = r ∧ e = ((a * gs, b * gs), (a * gs + gs, b * gs))) ∨
     (a = c + Z.of_nat w - 1 ∧
        e = ((a * gs + gs, b * gs), (a * gs + gs, b * gs + gs))) ∨
     (b = r + Z.of_nat h - 1 ∧
        e = ((a * gs + gs, b * gs + gs), (a * gs, b * gs + gs))) ∨
     (a = c ∧ e = ((a * gs, b * gs + gs), (a * gs, b * gs)))).

(** Whether the pixel is one of the rectangle of cells. *)
Definition in_pixels (gs c r : Z) (w h : nat) (px py : Z) : Prop :=
  c * gs ≤ px < (c + Z.of_nat w) * gs ∧ r * gs ≤ py < (r + Z.of_nat h) * gs.

(** Whether the centre of the ant is a pixel of the rectangle of cells. *)
Definition centre_in `{Pygame} (gs c r : Z) (w h : nat) (ant : Ant.t) : bool :=
  bool_decide (in_pixels gs c r w h (centerx (Ant.rect ant))
                 (centery (Ant.rect ant))).

(** * Properties *)

(** Closed decidable goals, decided by evaluation. *)
Ltac by_compute := apply (bool_decide_unpack _); vm_compute; reflexivity.

(** ** [index] finds the first occurrence *)

Section index_facts.
Context {A : Type} `{EqDecision A}.

Lemma index_Some (x : A) (l : list A) (i : nat) :
  index x l = Some i →
  l !! i = Some x ∧ ∀ j, (j < i)%nat → l !! j ≠ Some x.
Proof.
  revert i. induction l as [|y t IH]; intros i; simpl; [done|].
  destruct (decide (x = y)) as [->|Hne].
  - intros [= <-]. split; [done|]. intros j Hj. lia.
  - destruct (index x t) as [k|] eqn:Hk; simpl; [|done].
    intros [= <-]. destruct (IH k eq_refl) as [Hk1 Hk2]. split; [done|].
    intros [|j] Hj; simpl.
    + congruence.
    + apply Hk2. lia.
Qed.

Lemma index_is_Some (x : A) (l : list A) :
  x ∈ l → is_Some (index x l).
Proof.
  induction 1 as [y t|y z t _ IH]; simpl.
  - destruct (decide (y = y)); [eauto|done].
  - destruct (decide (y = z)); [eauto|].
    destruct IH as [k ->]. simpl. eauto.
Qed.

Lemma index_lt_length (x : A) (l : list A) (i : nat) :
  index x l = Some i → (i < length l)%nat.
Proof.
  intros H. apply index_Some in H as [H _]. by apply lookup_lt_Some in H.
Qed.

End index_facts.

(** ** The extending block, branch by branch *)

Lemma new_head_of_tongue (s : Anteater) (h : cell) :
  new_head_of s = Ok h →
  ∃ hd tl, tongue s = hd :: tl ∧
    h = (hd.1 + (next_direction s).1, hd.2 + (next_direction s).2).
Proof.
  unfold new_head_of. destruct (tongue s) as [|[hx hy] tl]; simpl; [done|].
  destruct (next_direction s) as [dx dy]. intros [= <-]. by exists (hx, hy), tl.
Qed.

Lemma advance_head_out_of_bounds (s : Anteater) (h : cell) :
  grid_size s ≠ 0 →
  new_head_of s = Ok h →
  out_of_bounds (grid_size s) h = true →
  advance_head (set_move_timer 0 s) = Ok (Return (rejected s)).
Proof.
  intros Hg Hh Hoob. unfold advance_head, new_head_of, floordiv in *. simpl in *.
  destruct (tongue s) as [|[hx hy] tl]; simpl in *; [done|].
  destruct (next_direction s) as [dx dy] eqn:Hd. simpl in *.
  injection Hh as <-. destruct (decide (grid_size s = 0)); [done|]. simpl.
  unfold out_of_bounds in Hoob. rewrite Hoob. unfold rejected. by rewrite Hd.
Qed.

Lemma advance_head_looped (s : Anteater) (h : cell) (i : nat) :
  grid_size s ≠ 0 →
  new_head_of s = Ok h →
  out_of_bounds (grid_size s) h = false →
  index h (tongue s) = Some i →
  advance_head (set_move_timer 0 s) = Ok (Continue (looped i s)).
Proof.
  intros Hg Hh Hoob Hi. unfold advance_head, new_head_of, floordiv in *. simpl in *.
  pose proof (index_Some _ _ _ Hi) as [Hl _].
  destruct (tongue s) as [|[hx hy] tl] eqn:Ht; simpl in *; [done|].
  destruct (next_direction s) as [dx dy] eqn:Hd. simpl in *.
  injection Hh as <-. destruct (decide (grid_size s = 0)); [done|]. simpl.
  unfold out_of_bounds in Hoob. rewrite Hoob.
  rewrite bool_decide_eq_true_2 by (eapply list_elem_of_lookup_2; exact Hl).
  rewrite Hi. unfold looped. by rewrite Ht, Hd.
Qed.

Lemma extend_phase_advances (s : Anteater) :
  advances s = true →
  extend_phase s = advance_head (set_move_timer 0 s).
Proof.
  unfold advances, extend_phase. intros H.
  apply andb_prop in H as [H1 H2]. rewrite H1. simpl. by rewrite H2.
Qed.

(** After a block that left [move_timer = 0] and [retracting] set, the
    retracting block of the same call only counts one frame when the
    cooldown is longer than one frame. *)
Lemma retract_phase_waits (s : Anteater) :
  retracting s = true → move_timer s = 0 → 1 < move_cooldown s →
  retract_phase s = Ok (set_move_timer 1 s).
Proof.
  intros Hr Ht Hc. unfold retract_phase. rewrite Hr, Ht. simpl.
  change (0 + 1) with 1.
  destruct (Z.leb_spec (move_cooldown s) 1); [lia|done].
Qed.

(** ** The outcomes of [extend_head] *)

Lemma extend_head_out_of_bounds (s : Anteater) (h : cell) :
  grid_size s ≠ 0 → new_head_of s = Ok h →
  out_of_bounds (grid_size s) h = true →
  extend_head s = Ok OutOfBounds.
Proof.
  intros Hg Hh Hoob. unfold extend_head, floordiv. rewrite Hh. simpl.
  destruct (decide (grid_size s = 0)); [done|]. simpl. by rewrite Hoob.
Qed.

Lemma extend_head_self_intersected (s : Anteater) (h : cell) (i : nat) :
  grid_size s ≠ 0 → new_head_of s = Ok h →
  out_of_bounds (grid_size s) h = false →
  index h (tongue s) = Some i →
  extend_head s = Ok (SelfIntersected i).
Proof.
  intros Hg Hh Hoob Hi. unfold extend_head, floordiv. rewrite Hh. simpl.
  destruct (decide (grid_size s = 0)); [done|]. simpl. by rewrite Hoob, Hi.
Qed.

(** ** Self-intersection (C1) *)

(** C1. For a tongue without duplicate cells, when the extending block
    fires and the cell ahead of the head is in bounds and already on the
    tongue, the outcome is [SelfIntersected i] and the block ends normally
    with a loop formed at the index [i] of that cell: [i] is what [index]
    returns, the occurrence nearest to the head (and, without duplicates,
    the only one); the tongue is not changed; [loop_path] is the prefix [tongue[0 .. i]] inclusive;
    [loop_cells] is the set of the cells of [loop_path], one per cell.
    With the cooldown longer than one frame (it is 5) the rest of [update]
    only counts a frame. *)
Theorem self_intersection_forms_loop (s : Anteater) (h : cell) :
  NoDup (tongue s) →
  advances s = true →
  grid_size s ≠ 0 →
  new_head_of s = Ok h →
  out_of_bounds (grid_size s) h = false →
  h ∈ tongue s →
  ∃ (i : nat) (s' : Anteater),
    extend_head s = Ok (SelfIntersected i) ∧
    extend_phase s = Ok (Continue s') ∧
    (1 < move_cooldown s → update s = Ok (set_move_timer 1 s')) ∧
    index h (tongue s) = Some i ∧
    tongue s !! i = Some h ∧
    (∀ j, (j < i)%nat → tongue s !! j ≠ Some h) ∧
    (∀ j, tongue s !! j = Some h → j = i) ∧
    tongue s' = tongue s ∧
    loop_active s' = true ∧
    loop_path s' = take (S i) (tongue s) ∧
    length (loop_path s') = S i ∧
    loop_cells s' = list_to_set (loop_path s') ∧
    (∀ c, c ∈ loop_cells s' ↔ c ∈ loop_path s') ∧
    size (loop_cells s') = S i.
Proof.
  intros Hnd Hadv Hg Hh Hin Hmem.
  destruct (index_is_Some _ _ Hmem) as [i Hi].
  pose proof (index_Some _ _ _ Hi) as [Hl Hfirst].
  pose proof (index_lt_length _ _ _ Hi) as Hlt.
  assert (Hlen : length (take (S i) (tongue s)) = S i)
    by (rewrite length_take; lia).
  exists i, (looped i s).
  assert (Hext : extend_phase s = Ok (Continue (looped i s))).
  { rewrite extend_phase_advances by done. by eapply advance_head_looped. }
  split; [by eapply extend_head_self_intersected|].
  split; [done|]. split.
  { intros Hc. unfold update. rewrite Hext. simpl.
    by apply retract_phase_waits. }
  split; [done|]. split; [done|]. split; [done|]. split.
  { intros j Hj. by eapply NoDup_lookup. }
  split; [done|]. split; [done|]. split; [done|]. split; [done|].
  split; [done|]. split.
  { intros c. simpl. by rewrite elem_of_list_to_set. }
  simpl. rewrite size_list_to_set; [done|].
  eapply sublist_NoDup; [exact Hnd|apply sublist_take].
Qed.

Lemma self_intersection_forms_loop_witness :
  ∃ (i : nat) (s' : Anteater),
    extend_head ring_state = Ok (SelfIntersected i) ∧
    extend_phase ring_state = Ok (Continue s') ∧
    (1 < move_cooldown ring_state → update ring_state = Ok (set_move_timer 1 s')) ∧
    index (20, 5) (tongue ring_state) = Some i ∧
    tongue ring_state !! i = Some (20, 5) ∧
    (∀ j, (j < i)%nat → tongue ring_state !! j ≠ Some (20, 5)) ∧
    (∀ j, tongue ring_state !! j = Some (20, 5) → j = i) ∧
    tongue s' = tongue ring_state ∧
    loop_active s' = true ∧
    loop_path s' = take (S i) (tongue ring_state) ∧
    length (loop_path s') = S i ∧
    loop_cells s' = list_to_set (loop_path s') ∧
    (∀ c, c ∈ loop_cells s' ↔ c ∈ loop_path s') ∧
    size (loop_cells s') = S i.
Proof.
  apply (self_intersection_forms_loop ring_state (20, 5)).
  - by_compute.
  - reflexivity.
  - simpl. lia.
  - reflexivity.
  - reflexivity.
  - by_compute.
Defined.

(** ** Loop before length limit (C10) *)

Lemma advance_head_max_length (s : Anteater) (h : cell) :
  grid_size s ≠ 0 →
  new_head_of s = Ok h →
  out_of_bounds (grid_size s) h = false →
  h ∉ tongue s →
  max_segments s ≤ Z.of_nat (length (tongue s)) →
  advance_head (set_move_timer 0 s) =
    Ok (Continue (set_retracting true (set_extending false
          (set_direction (next_direction s) (set_move_timer 0 s))))).
Proof.
  intros Hg Hh Hoob Hni Hmax. unfold advance_head, new_head_of, floordiv in *.
  simpl in *.
  destruct (tongue s) as [|[hx hy] tl] eqn:Ht; simpl in *; [done|].
  destruct (next_direction s) as [dx dy] eqn:Hd. simpl in *.
  injection Hh as <-. destruct (decide (grid_size s = 0)); [done|]. simpl.
  unfold out_of_bounds in Hoob. rewrite Hoob.
  rewrite bool_decide_eq_false_2 by done.
  destruct (Z.ltb_spec (Z.of_nat (S (length tl))) (max_segments s)); [lia|].
  by rewrite ?Ht, ?Hd.
Qed.

(** C10. With the tongue already at [max_segments] (or longer), when the
    extending block fires and the cell ahead is in bounds and on the
    tongue, the membership test is taken first: the outcome is
    [SelfIntersected], not [MaxLengthReached]; the block forms the loop
    ([loop_active], [loop_path], [loop_cells] and the capture timer are
    set) and does not take the max-length branch, which would leave the
    loop state as it was. *)
Theorem loop_before_max_length (s : Anteater) (h : cell) :
  advances s = true →
  grid_size s ≠ 0 →
  new_head_of s = Ok h →
  out_of_bounds (grid_size s) h = false →
  h ∈ tongue s →
  max_segments s ≤ Z.of_nat (length (tongue s)) →
  ∃ (i : nat) (s' : Anteater),
    extend_head s = Ok (SelfIntersected i) ∧
    extend_head s ≠ Ok MaxLengthReached ∧
    extend_phase s = Ok (Continue s') ∧
    index h (tongue s) = Some i ∧
    loop_active s' = true ∧
    loop_path s' = take (S i) (tongue s) ∧
    loop_path s' ≠ [] ∧
    loop_cells s' = list_to_set (loop_path s') ∧
    h ∈ loop_cells s' ∧
    capture_timer s' = capture_delay_frames s ∧
    tongue s' = tongue s ∧
    extending s' = false ∧
    retracting s' = true.
Proof.
  intros Hadv Hg Hh Hoob Hmem _.
  destruct (index_is_Some _ _ Hmem) as [i Hi].
  pose proof (index_Some _ _ _ Hi) as [Hl _].
  exists i, (looped i s).
  assert (Hout : extend_head s = Ok (SelfIntersected i))
    by (by eapply extend_head_self_intersected).
  split; [done|]. split; [by rewrite Hout|]. split.
  { rewrite extend_phase_advances by done. by eapply advance_head_looped. }
  split; [done|]. split; [done|]. split; [done|]. split.
  { simpl. destruct (tongue s); [done|]. simpl. done. }
  split; [done|]. split; [|done].
  simpl. rewrite elem_of_list_to_set. apply list_elem_of_lookup. exists i.
  rewrite lookup_take_lt by lia. done.
Qed.

Lemma loop_before_max_length_witness :
  ∃ (i : nat) (s' : Anteater),
    extend_head ring_state_full = Ok (SelfIntersected i) ∧
    extend_head ring_state_full ≠ Ok MaxLengthReached ∧
    extend_phase ring_state_full = Ok (Continue s') ∧
    index (20, 5) (tongue ring_state_full) = Some i ∧
    loop_active s' = true ∧
    loop_path s' = take (S i) (tongue ring_state_full) ∧
    loop_path s' ≠ [] ∧
    loop_cells s' = list_to_set (loop_path s') ∧
    (20, 5) ∈ loop_cells s' ∧
    capture_timer s' = capture_delay_frames ring_state_full ∧
    tongue s' = tongue ring_state_full ∧
    extending s' = false ∧
    retracting s' = true.
Proof.
  apply (loop_before_max_length ring_state_full (20, 5)).
  - reflexivity.
  - simpl. lia.
  - reflexivity.
  - reflexivity.
  - by_compute.
  - simpl. lia.
Defined.

(** ** Out of bounds (C4) *)

(** C4. When the extending block fires and the cell ahead of the head is
    outside the grid, the outcome is [OutOfBounds] and [update] returns
    normally at the bounds test, before the membership test (nothing is
    assumed about the cell being on the tongue): the tongue, [loop_active] (false), [loop_path], [loop_cells]
    and the capture timer are as before, [extending] is cleared and
    [retracting] is set. *)
Theorem out_of_bounds_rejected (s : Anteater) (h : cell) :
  advances s = true →
  grid_size s ≠ 0 →
  new_head_of s = Ok h →
  out_of_bounds (grid_size s) h = true →
  extend_head s = Ok OutOfBounds ∧
  extend_phase s = Ok (Return (rejected s)) ∧
  update s = Ok (rejected s) ∧
  tongue (rejected s) = tongue s ∧
  extending (rejected s) = false ∧
  retracting (rejected s) = true ∧
  loop_active (rejected s) = false ∧
  loop_path (rejected s) = loop_path s ∧
  loop_cells (rejected s) = loop_cells s ∧
  capture_timer (rejected s) = capture_timer s.
Proof.
  intros Hadv Hg Hh Hoob.
  assert (Hext : extend_phase s = Ok (Return (rejected s))).
  { rewrite extend_phase_advances by done. by eapply advance_head_out_of_bounds. }
  split; [by eapply extend_head_out_of_bounds|].
  split; [done|]. split; [unfold update; by rewrite Hext|].
  repeat split; try done.
  simpl. unfold advances in Hadv.
  destruct (extending s), (loop_active s); simpl in *; done.
Qed.

Lemma out_of_bounds_rejected_witness :
  extend_head bottom_state = Ok OutOfBounds ∧
  extend_phase bottom_state = Ok (Return (rejected bottom_state)) ∧
  update bottom_state = Ok (rejected bottom_state) ∧
  tongue (rejected bottom_state) = tongue bottom_state ∧
  extending (rejected bottom_state) = false ∧
  retracting (rejected bottom_state) = true ∧
  loop_active (rejected bottom_state) = false ∧
  loop_path (rejected bottom_state) = loop_path bottom_state ∧
  loop_cells (rejected bottom_state) = loop_cells bottom_state ∧
  capture_timer (rejected bottom_state) = capture_timer bottom_state.
Proof.
  apply (out_of_bounds_rejected bottom_state (20, 30)).
  - reflexivity.
  - simpl. lia.
  - reflexivity.
  - reflexivity.
Defined.

(** ** Retraction (C6) *)

Lemma extend_phase_not_extending (s : Anteater) :
  extending s = false → extend_phase s = Ok (Continue s).
Proof. intros H. unfold extend_phase. by rewrite H. Qed.

(** C6. While retracting (and not extending), on a call of [update] at
    which the cooldown expires: a tongue of more than one cell loses its
    head cell and retraction goes on with the directions untouched; a
    tongue of exactly one cell is left as it is, [retracting] is cleared
    (with [extending] clear this is the idle state) and [direction] and
    [next_direction] are both set to [(0, 1)].  A non-empty tongue is never
    emptied. *)
Theorem retracting_tick (s : Anteater) :
  retracting s = true →
  extending s = false →
  move_cooldown s ≤ move_timer s + 1 →
  ∃ s' : Anteater,
    update s = Ok s' ∧
    move_timer s' = 0 ∧
    ((1 < length (tongue s))%nat →
       tongue s' = tail (tongue s) ∧
       S (length (tongue s')) = length (tongue s) ∧
       retracting s' = true ∧ extending s' = false ∧
       direction s' = direction s ∧ next_direction s' = next_direction s) ∧
    (length (tongue s) = 1%nat →
       tongue s' = tongue s ∧
       retracting s' = false ∧ extending s' = false ∧
       direction s' = (0, 1) ∧ next_direction s' = (0, 1)) ∧
    (tongue s ≠ [] → tongue s' ≠ []).
Proof.
  intros Hr He Hc. unfold update. rewrite extend_phase_not_extending by done.
  simpl. unfold retract_phase. rewrite Hr. simpl.
  destruct (Z.leb_spec (move_cooldown s) (move_timer s + 1)) as [_|]; [|lia].
  destruct (tongue s) as [|c [|c' t]] eqn:Ht; simpl.
  - eexists. split; [done|]. simpl. rewrite Ht. repeat split; try done.
    all: simpl; intros; lia.
  - eexists. split; [done|]. simpl. rewrite Ht. repeat split; try done.
    all: simpl; intros; try lia.
  - destruct (Z.ltb_spec 1 (Z.of_nat (S (S (length t))))); [|lia].
    eexists. split; [done|]. simpl. repeat split; try done.
    all: simpl; intros; lia.
Qed.

Lemma retracting_tick_witness :
  ∃ s' : Anteater,
    update retracting_state = Ok s' ∧
    move_timer s' = 0 ∧
    ((1 < length (tongue retracting_state))%nat →
       tongue s' = tail (tongue retracting_state) ∧
       S (length (tongue s')) = length (tongue retracting_state) ∧
       retracting s' = true ∧ extending s' = false ∧
       direction s' = direction retracting_state ∧
       next_direction s' = next_direction retracting_state) ∧
    (length (tongue retracting_state) = 1%nat →
       tongue s' = tongue retracting_state ∧
       retracting s' = false ∧ extending s' = false ∧
       direction s' = (0, 1) ∧ next_direction s' = (0, 1)) ∧
    (tongue retracting_state ≠ [] → tongue s' ≠ []).
Proof.
  apply (retracting_tick retracting_state).
  - reflexivity.
  - reflexivity.
  - simpl. lia.
Defined.

(** ** The branches of the extending block, all at once *)

Lemma advance_head_extended (s : Anteater) (h : cell) :
  grid_size s ≠ 0 →
  new_head_of s = Ok h →
  out_of_bounds (grid_size s) h = false →
  h ∉ tongue s →
  Z.of_nat (length (tongue s)) < max_segments s →
  advance_head (set_move_timer 0 s) = Ok (Continue (extended h s)).
Proof.
  intros Hg Hh Hoob Hni Hmax. unfold advance_head, new_head_of, floordiv in *.
  simpl in *.
  destruct (tongue s) as [|[hx hy] tl] eqn:Ht; simpl in *; [done|].
  destruct (next_direction s) as [dx dy] eqn:Hd. simpl in *.
  injection Hh as <-. destruct (decide (grid_size s = 0)); [done|]. simpl.
  unfold out_of_bounds in Hoob. rewrite Hoob.
  rewrite bool_decide_eq_false_2 by done.
  destruct (Z.ltb_spec (Z.of_nat (S (length tl))) (max_segments s)); [|lia].
  unfold extended. by rewrite ?Ht, ?Hd.
Qed.

Lemma advance_head_cases (s : Anteater) (f : flow Anteater) :
  advance_head (set_move_timer 0 s) = Ok f →
  ∃ h : cell, new_head_of s = Ok h ∧ grid_size s ≠ 0 ∧
    ((out_of_bounds (grid_size s) h = true ∧ f = Return (rejected s)) ∨
     (out_of_bounds (grid_size s) h = false ∧
      ∃ i, index h (tongue s) = Some i ∧ f = Continue (looped i s)) ∨
     (out_of_bounds (grid_size s) h = false ∧ (h ∉ tongue s) ∧
      (Z.of_nat (length (tongue s)) < max_segments s) ∧
      f = Continue (extended h s)) ∨
     (out_of_bounds (grid_size s) h = false ∧ (h ∉ tongue s) ∧
      (max_segments s ≤ Z.of_nat (length (tongue s))) ∧
      f = Continue (rejected s))).
Proof.
  intros Hf.
  destruct (new_head_of s) as [h|e] eqn:Hh.
  2:{ unfold advance_head, new_head_of in *. simpl in *.
      destruct (tongue s) as [|[hx hy] tl]; simpl in *; [done|].
      by destruct (next_direction s). }
  destruct (decide (grid_size s = 0)) as [Hg|Hg].
  { unfold advance_head, new_head_of, floordiv in *. simpl in *.
    destruct (tongue s) as [|[hx hy] tl]; simpl in *; [done|].
    destruct (next_direction s). simpl in *.
    by destruct (decide (grid_size s = 0)). }
  exists h. split; [done|]. split; [done|].
  destruct (out_of_bounds (grid_size s) h) eqn:Hoob.
  { left. split; [done|].
    rewrite (advance_head_out_of_bounds s h) in Hf by done. congruence. }
  right. destruct (decide (h ∈ tongue s)) as [Hin|Hni].
  { left. split; [done|]. destruct (index_is_Some _ _ Hin) as [i Hi].
    exists i. split; [done|].
    rewrite (advance_head_looped s h i) in Hf by done. congruence. }
  right. destruct (Z.lt_ge_cases (Z.of_nat (length (tongue s))) (max_segments s)).
  - left. rewrite (advance_head_extended s h) in Hf by done.
    repeat split; [done..|congruence].
  - right. rewrite (advance_head_max_length s h) in Hf by done.
    repeat split; [done..|]. unfold rejected. congruence.
Qed.

Lemma index_None {A : Type} `{EqDecision A} (x : A) (l : list A) :
  index x l = None → x ∉ l.
Proof.
  intros Hnone Hin. destruct (index_is_Some x l Hin) as [i Hi]. congruence.
Qed.

(** The extending block of [update] is [extend_head] followed by the
    state change of its outcome. *)
Lemma advance_head_outcome (s : Anteater) :
  advance_head (set_move_timer 0 s) = (o ← extend_head s; after_outcome s o).
Proof.
  unfold extend_head.
  destruct (new_head_of s) as [h|e] eqn:Hh; simpl.
  2:{ unfold advance_head, new_head_of in *. simpl in *.
      destruct (tongue s) as [|[hx hy] tl]; simpl in *; [congruence|].
      by destruct (next_direction s). }
  destruct (decide (grid_size s = 0)) as [Hg|Hg].
  { unfold advance_head, new_head_of, floordiv in *. simpl in *.
    destruct (tongue s) as [|[hx hy] tl]; simpl in *; [done|].
    destruct (next_direction s). simpl in *.
    by destruct (decide (grid_size s = 0)). }
  unfold floordiv. destruct (decide (grid_size s = 0)) as [|_]; [done|]. simpl.
  destruct (out_of_bounds (grid_size s) h) eqn:Hoob.
  { simpl. by apply (advance_head_out_of_bounds s h). }
  destruct (index h (tongue s)) as [i|] eqn:Hi.
  { simpl. by apply (advance_head_looped s h). }
  apply index_None in Hi.
  destruct (Z.ltb_spec (Z.of_nat (length (tongue s))) (max_segments s)); simpl.
  - rewrite Hh. simpl. by apply advance_head_extended.
  - by apply (advance_head_max_length s h).
Qed.

(** ** The invariant of the game *)

Lemma opposite_unit (d : Z * Z) : is_unit_direction d → d ≠ opposite d.
Proof.
  intros [ -> | [ -> | [ -> | -> ] ] ]; unfold opposite; simpl; intros [=].
Qed.

Lemma new_anteater_inv (s : Anteater) :
  new_anteater 20 = Ok s → tongue_inv s.
Proof.
  intros [= <-]. unfold tongue_inv, is_unit_direction, opposite. simpl.
  repeat split; try done; auto.
  apply NoDup_singleton.
Qed.

Lemma handle_input_inv (keys : Keys) (s : Anteater) :
  tongue_inv s → tongue_inv (handle_input keys s).
Proof.
  intros (Hg & Hc & Hm & Ha & Hne & Hnd & Hd & Hn & Hrev & Hfl & Hloop).
  unfold handle_input.
  destruct (K_LEFT keys); [|destruct (K_RIGHT keys);
    [|destruct (K_UP keys); [|destruct (K_DOWN keys)]]];
    try case_bool_decide; unfold tongue_inv; simpl;
    repeat split; try done;
    unfold is_unit_direction, opposite in *; simpl; auto;
    destruct (direction s) as [dx dy]; simpl in *; intros [=]; subst;
    match goal with H : _ ≠ _ |- _ => apply H; f_equal; lia end.
Qed.

Lemma rejected_inv (s : Anteater) : tongue_inv s → tongue_inv (rejected s).
Proof.
  intros (Hg & Hc & Hm & Ha & Hne & Hnd & Hd & Hn & Hrev & Hfl & Hloop).
  unfold tongue_inv. simpl. repeat split; try done.
  by apply opposite_unit.
Qed.

Lemma looped_inv (s : Anteater) (h : cell) (i : nat) :
  tongue_inv s → index h (tongue s) = Some i → tongue_inv (looped i s).
Proof.
  intros (Hg & Hc & Hm & Ha & Hne & Hnd & Hd & Hn & Hrev & Hfl & Hloop) Hi.
  unfold tongue_inv. simpl. repeat split; try done.
  - by apply opposite_unit.
  - right. split; [done|]. split.
    + eapply sublist_NoDup; [exact Hnd|apply sublist_take].
    + by destruct (tongue s).
Qed.

Lemma extended_inv (s : Anteater) (h : cell) :
  tongue_inv s → h ∉ tongue s → tongue_inv (extended h s).
Proof.
  intros (Hg & Hc & Hm & Ha & Hne & Hnd & Hd & Hn & Hrev & Hfl & Hloop) Hni.
  unfold tongue_inv. simpl. repeat split; try done.
  - by apply NoDup_cons.
  - by apply opposite_unit.
Qed.

Lemma extend_phase_inv (s : Anteater) (f : flow Anteater) :
  tongue_inv s → extend_phase s = Ok f →
  match f with Continue s' | Return s' => tongue_inv s' end.
Proof.
  intros Hinv. unfold extend_phase.
  destruct (extending s && negb (loop_active s)); [|by intros [= <-]].
  simpl. destruct (move_cooldown s <=? move_timer s + 1); [|by intros [= <-]].
  intros Hf. apply advance_head_cases in Hf as (h & Hh & Hg & Hcases).
  destruct Hcases as [[_ ->]|[(_ & i & Hi & ->)|[(_ & Hni & _ & ->)|(_ & _ & _ & ->)]]].
  - by apply rejected_inv.
  - by eapply looped_inv.
  - by apply extended_inv.
  - by apply rejected_inv.
Qed.

Lemma retract_phase_inv (s s' : Anteater) :
  tongue_inv s → retract_phase s = Ok s' → tongue_inv s'.
Proof.
  intros Hinv. unfold retract_phase.
  destruct (retracting s); [|by intros [= <-]]. simpl.
  destruct (move_cooldown s <=? move_timer s + 1); [|by intros [= <-]].
  destruct Hinv as (Hg & Hc & Hm & Ha & Hne & Hnd & Hd & Hn & Hrev & Hfl & Hloop).
  destruct (tongue s) as [|c [|c' t]] eqn:Ht; simpl.
  - done.
  - intros [= <-]. unfold tongue_inv, is_unit_direction, opposite. simpl.
    rewrite Ht. repeat split; try done; auto.
    by rewrite andb_false_r.
  - destruct (Z.ltb_spec 1 (Z.of_nat (S (S (length t))))); [|lia].
    intros [= <-]. unfold tongue_inv. simpl. repeat split; try done.
    by apply NoDup_cons in Hnd as [_ Hnd].
Qed.

Lemma update_inv (s s' : Anteater) :
  tongue_inv s → update s = Ok s' → tongue_inv s'.
Proof.
  intros Hinv. unfold update.
  destruct (extend_phase s) as [f|] eqn:Hf; simpl; [|done].
  pose proof (extend_phase_inv s f Hinv Hf) as Hf'.
  destruct f as [s1|s1]; [|by intros [= <-]].
  by apply retract_phase_inv.
Qed.

Lemma reset_tongue_inv (s s' : Anteater) :
  tongue_inv s → reset_tongue s = Ok s' → tongue_inv s'.
Proof.
  intros (Hg & Hc & Hm & Ha & Hne & Hnd & Hd & Hn & Hrev & Hfl & Hloop).
  unfold reset_tongue, floordiv. rewrite Hg. simpl. intros [= <-].
  unfold tongue_inv, is_unit_direction, opposite. simpl.
  repeat split; try done; auto.
  apply NoDup_singleton.
Qed.

Lemma step_inv (e : event) (s s' : Anteater) :
  tongue_inv s → step e s = Ok s' → tongue_inv s'.
Proof.
  intros Hinv. destruct e; simpl.
  - intros [= <-].
    destruct Hinv as (Hg & Hc & Hm & Ha & Hne & Hnd & Hd & Hn & Hrev & Hfl & Hloop).
    unfold tongue_inv. simpl. repeat split; done.
  - intros [= <-].
    destruct Hinv as (Hg & Hc & Hm & Ha & Hne & Hnd & Hd & Hn & Hrev & Hfl & Hloop).
    unfold tongue_inv. simpl. repeat split; done.
  - destruct (reset_tongue s) as [s1|] eqn:Hr; simpl; [|done].
    intros [= <-]. apply reset_tongue_inv in Hr; [|done].
    destruct Hr as (Hg & Hc & Hm & Ha & Hne & Hnd & Hd & Hn & Hrev & Hfl & Hloop).
    unfold tongue_inv. simpl. repeat split; try done. by left.
  - intros [= <-]. by apply handle_input_inv.
  - by apply update_inv.
  - destruct Hinv as (Hg & Hc & Hm & Ha & Hne & Hnd & Hd & Hn & Hrev & Hfl & Hloop).
    destruct (loop_active s && bool_decide (trapped_ants s = []));
      [|intros [= <-]; unfold tongue_inv; repeat split; done].
    destruct (bool_decide (trapped = [])); intros [= <-];
      unfold tongue_inv; simpl; repeat split; try done. by left.
  - destruct Hinv as (Hg & Hc & Hm & Ha & Hne & Hnd & Hd & Hn & Hrev & Hfl & Hloop).
    destruct (loop_active s && negb (bool_decide (trapped_ants s = [])));
      [|intros [= <-]; unfold tongue_inv; repeat split; done].
    destruct (0 <? capture_timer s); intros [= <-];
      unfold tongue_inv; simpl; repeat split; try done. by left.
Qed.

Lemma run_inv (evs : list event) (s s' : Anteater) :
  tongue_inv s → run evs s = Ok s' → tongue_inv s'.
Proof.
  revert s. induction evs as [|e evs IH]; intros s Hinv; simpl.
  - by intros [= <-].
  - destruct (step e s) as [s1|] eqn:Hs; simpl; [|done].
    apply IH. by eapply step_inv.
Qed.

Lemma reachable_inv (s : Anteater) : reachable s → tongue_inv s.
Proof.
  intros (s0 & evs & H0 & Hrun).
  eapply run_inv; [|exact Hrun]. by apply new_anteater_inv.
Qed.

(** ** No reversal (C5) *)

Lemma handle_input_requested (keys : Keys) (s : Anteater) :
  handle_input keys s =
    match requested keys with
    | Some d =>
        if bool_decide (d = opposite (direction s)) then s
        else set_next_direction d s
    | None => s
    end.
Proof.
  unfold handle_input, requested, opposite.
  destruct (direction s) as [dx dy]. simpl.
  destruct (K_LEFT keys); [|destruct (K_RIGHT keys);
    [|destruct (K_UP keys); [|destruct (K_DOWN keys)]]]; try done;
    repeat case_bool_decide; try done; exfalso;
    repeat match goal with
    | H : (_, _) = (_, _) |- _ => injection H as ??
    | H : ¬ ((_, _) ≠ (_, _)) |- _ => apply dec_stable in H
    | H : (_, _) ≠ (_, _) |- _ => apply H; f_equal; lia
    end.
Qed.

Lemma retract_phase_total (s : Anteater) :
  ∃ s' : Anteater,
    retract_phase s = Ok s' ∧
    (length (tongue s') ≤ length (tongue s))%nat ∧
    (direction s' = direction s ∨
     (direction s' = (0, 1) ∧ retracting s = true ∧ retracting s' = false)).
Proof.
  unfold retract_phase. destruct (retracting s) eqn:Hr; [|by eauto].
  simpl. destruct (move_cooldown s <=? move_timer s + 1); [|by eauto].
  destruct (tongue s) as [|c [|c' t]] eqn:Ht; simpl.
  - eexists. split; [done|]. simpl. rewrite Ht. split; [done|]. by right.
  - eexists. split; [done|]. simpl. rewrite Ht. split; [done|]. by right.
  - destruct (Z.ltb_spec 1 (Z.of_nat (S (S (length t))))); [|lia].
    eexists. split; [done|]. simpl. split; [lia|]. by left.
Qed.

Lemma update_not_advancing (s : Anteater) :
  advances s = false →
  ∃ s1 : Anteater, extend_phase s = Ok (Continue s1) ∧
    tongue s1 = tongue s ∧ direction s1 = direction s ∧
    retracting s1 = retracting s.
Proof.
  unfold advances, extend_phase. intros H.
  destruct (extending s && negb (loop_active s)); simpl in *; [|by eauto].
  rewrite H. by eauto.
Qed.

(** Outside [update], only a reset writes [direction]. *)
Lemma step_direction (e : event) (s s' : Anteater) :
  step e s = Ok s' → e ≠ Tick →
  direction s' = direction s ∨ (e = ResetKey ∧ direction s' = (0, 1)).
Proof.
  destruct e; simpl; intros Hstep Hne; try done.
  - injection Hstep as <-. by left.
  - injection Hstep as <-. by left.
  - right. split; [done|]. unfold reset_tongue in Hstep.
    destruct (floordiv rect_centerx (grid_size s)); simpl in Hstep; [|done].
    destruct (floordiv rect_bottom (grid_size s)); simpl in Hstep; [|done].
    by injection Hstep as <-.
  - injection Hstep as <-. left. rewrite handle_input_requested.
    destruct (requested keys); [case_bool_decide|]; done.
  - left. destruct (loop_active s && bool_decide (trapped_ants s = []));
      [destruct (bool_decide (trapped = []))|]; by injection Hstep as <-.
  - left. destruct (loop_active s && negb (bool_decide (trapped_ants s = [])));
      [destruct (0 <? capture_timer s)|]; by injection Hstep as <-.
Qed.

Lemma retract_phase_flags (s : Anteater) :
  ∃ s' : Anteater,
    retract_phase s = Ok s' ∧
    (length (tongue s') ≤ length (tongue s))%nat ∧
    ((retracting s' = retracting s ∧ direction s' = direction s) ∨
     (direction s' = (0, 1) ∧ retracting s = true ∧ retracting s' = false)).
Proof.
  unfold retract_phase. destruct (retracting s) eqn:Hr;
    [|exists s; split; [done|]; split; [done|]; by left].
  simpl. destruct (move_cooldown s <=? move_timer s + 1);
    [|eexists; split; [done|]; simpl; split; [done|]; by left].
  destruct (tongue s) as [|c [|c' t]] eqn:Ht; simpl.
  - eexists. split; [done|]. simpl. rewrite Ht. split; [done|]. by right.
  - eexists. split; [done|]. simpl. rewrite Ht. split; [done|]. by right.
  - destruct (Z.ltb_spec 1 (Z.of_nat (S (S (length t))))); [|lia].
    eexists. split; [done|]. simpl. split; [lia|]. by left.
Qed.

(** What a call of [update] does to [direction] and to the head. *)
Lemma update_direction (s : Anteater) :
  tongue_inv s →
  ∃ s' : Anteater,
    update s = Ok s' ∧
    (advances s = true →
       direction s' = next_direction s ∧
       direction s' ≠ opposite (direction s)) ∧
    (advances s = false →
       (retracting s' = retracting s ∧ direction s' = direction s) ∨
       (direction s' = (0, 1) ∧ retracting s = true ∧ retracting s' = false)) ∧
    (∀ h', tongue s' = h' :: tongue s →
       advances s = true ∧
       ∃ hd, head (tongue s) = Some hd ∧
         h' = (hd.1 + (direction s').1, hd.2 + (direction s').2)).
Proof.
  intros Hinv.
  destruct Hinv as (Hg & Hc & Hm & Ha & Hne & Hnd & Hd & Hn & Hrev & Hfl & Hloop).
  destruct (advances s) eqn:Hadv.
  - (* the head advances *)
    assert (Hext : extending s = true ∧ retracting s = false).
    { unfold advances in Hadv. destruct (extending s); simpl in *; done. }
    destruct Hext as [He Hr].
    destruct (new_head_of s) as [h|e] eqn:Hh.
    2:{ unfold new_head_of in Hh. destruct (tongue s) as [|[??] ?]; [done|].
        simpl in Hh. by destruct (next_direction s). }
    assert (Hg0 : grid_size s ≠ 0) by lia.
    unfold update. rewrite extend_phase_advances by done.
    destruct (out_of_bounds (grid_size s) h) eqn:Hoob.
    { rewrite (advance_head_out_of_bounds s h) by done. simpl.
      eexists. split; [done|]. simpl.
      split; [by intros _|]. split; [done|].
      intros h' Heq. apply (f_equal length) in Heq. simpl in Heq. lia. }
    destruct (decide (h ∈ tongue s)) as [Hin|Hni].
    { destruct (index_is_Some _ _ Hin) as [i Hi].
      rewrite (advance_head_looped s h i) by done. simpl.
      rewrite retract_phase_waits by (simpl; first [done|lia]).
      eexists. split; [done|]. simpl.
      split; [by intros _|]. split; [done|].
      intros h' Heq. apply (f_equal length) in Heq. simpl in Heq. lia. }
    destruct (Z.lt_ge_cases (Z.of_nat (length (tongue s))) (max_segments s)).
    + rewrite (advance_head_extended s h) by done. simpl.
      unfold retract_phase. simpl. rewrite Hr.
      eexists. split; [done|]. simpl.
      split; [by intros _|]. split; [done|].
      intros h0 Heq. injection Heq as <-.
      apply new_head_of_tongue in Hh as (hd & tl & Ht & ->).
      split; [done|]. exists hd. by rewrite Ht.
    + rewrite (advance_head_max_length s h) by done. simpl.
      rewrite retract_phase_waits by (simpl; first [done|lia]).
      eexists. split; [done|]. simpl.
      split; [by intros _|]. split; [done|].
      intros h' Heq. apply (f_equal length) in Heq. simpl in Heq. lia.
  - (* no advance on this call *)
    destruct (update_not_advancing s Hadv) as (s1 & Hs1 & Ht1 & Hd1 & Hr1).
    destruct (retract_phase_flags s1) as (s' & Hs' & Hlen & Hdir).
    exists s'. unfold update. rewrite Hs1. simpl. split; [done|].
    split; [done|]. split.
    { intros _. rewrite <- Hd1, <- Hr1. exact Hdir. }
    intros h' Heq. apply (f_equal length) in Heq. simpl in Heq.
    rewrite Ht1 in Hlen. lia.
Qed.

(** The mark that an event leaves, and the direction in force after it. *)
Lemma step_mark (e : event) (s s' : Anteater) :
  tongue_inv s → step e s = Ok s' →
  (mark_of e s s' = [] ∧ direction s' = direction s) ∨
  (mark_of e s s' = [Applied (direction s')] ∧
     direction s' ≠ opposite (direction s)) ∨
  (mark_of e s s' = [Rewound] ∧ direction s' = (0, 1)).
Proof.
  intros Hinv Hstep.
  assert (e ≠ Tick → direction s' = direction s ∨
            (e = ResetKey ∧ direction s' = (0, 1))) as Hdir
    by (by apply step_direction).
  destruct e; simpl.
  - left. by destruct Hdir as [?|[? _]].
  - left. by destruct Hdir as [?|[? _]].
  - right. right. split; [done|].
    cbn [step] in Hstep. unfold reset_tongue in Hstep.
    destruct (floordiv rect_centerx (grid_size s)); simpl in Hstep; [|done].
    destruct (floordiv rect_bottom (grid_size s)); simpl in Hstep; [|done].
    by injection Hstep as <-.
  - left. by destruct Hdir as [?|[? _]].
  - simpl in Hstep.
    destruct (update_direction s Hinv) as (s1 & Hs1 & Hadv & Hrest & _).
    rewrite Hstep in Hs1. injection Hs1 as <-.
    destruct (advances s).
    + right. left. split; [done|]. by apply Hadv.
    + destruct (Hrest eq_refl) as [[Hr Hd]|(Hd & Hr & Hr')].
      * left. rewrite Hr. by destruct (retracting s).
      * right. right. by rewrite Hr, Hr'.
  - left. by destruct Hdir as [?|[? _]].
  - left. by destruct Hdir as [?|[? _]].
Qed.

(** Along a run, the direction applied at an advance is never the
    reverse of the direction in force: the one applied at the advance
    before, or [(0, 1)] when a retraction has ended or the tongue has
    been reset since. *)
Lemma marks_no_reversal (evs : list event) (s : Anteater) :
  tongue_inv s →
  (∀ d, head (marks evs s) = Some (Applied d) → d ≠ opposite (direction s)) ∧
  (∀ i d d', marks evs s !! i = Some (Applied d) →
     marks evs s !! S i = Some (Applied d') → d' ≠ opposite d) ∧
  (∀ i d, marks evs s !! i = Some Rewound →
     marks evs s !! S i = Some (Applied d) → d ≠ (0, -1)).
Proof.
  revert s. induction evs as [|e evs IH]; intros s Hinv.
  { simpl. split; [done|]. split; intros; done. }
  cbn [marks]. destruct (step e s) as [s'|] eqn:Hstep.
  2:{ split; [done|]. split; intros; done. }
  pose proof (step_inv e s s' Hinv Hstep) as Hinv'.
  destruct (IH s' Hinv') as (IHhead & IHpair & IHrew).
  destruct (step_mark e s s' Hinv Hstep) as [[-> Hd]|[[-> Hd]|[-> Hd]]].
  - simpl. rewrite <- Hd. done.
  - simpl. split; [by intros d [= <-]|]. split.
    + intros [|i] d d'; simpl.
      * intros [= <-] Hnext. apply IHhead. by rewrite head_lookup.
      * apply IHpair.
    + intros [|i] d; simpl; [done|]. apply IHrew.
  - simpl. split; [done|]. split.
    + intros [|i] d d'; simpl; [done|]. apply IHpair.
    + intros [|i] d; simpl.
      * intros _ Hnext. rewrite <- head_lookup in Hnext.
        apply IHhead in Hnext. by rewrite Hd in Hnext.
      * apply IHrew.
Qed.

(** C5, amended. In every state the game can reach: [handle_input] never
    touches [direction] or the tongue (a change is only buffered); a
    request for the exact reverse of [direction] leaves the whole state,
    and so [next_direction], as it was, and any other request is buffered
    in [next_direction]; no event of the main loop other than [update]
    and a reset writes [direction]; [update] returns normally, and on a
    call at which the head advances the direction it applies is the
    buffered [next_direction], which is never the reverse of the direction
    in force before the call; a cell is prepended only on such a call, one
    step from the old head in that direction.  On other calls [direction]
    is kept, or reset to [(0, 1)] when retraction ends.  So, in every run
    from there, the direction applied at an advance is never the reverse
    of the one applied at the advance before it, unless a retraction has
    ended or the tongue has been reset in between; the first advance
    after either of these is never upwards, the reverse of [(0, 1)]. *)
Theorem no_reversal (s : Anteater) :
  reachable s →
  (∀ keys, direction (handle_input keys s) = direction s ∧
           tongue (handle_input keys s) = tongue s) ∧
  (∀ keys d, requested keys = Some d → d = opposite (direction s) →
     handle_input keys s = s) ∧
  (∀ keys d, requested keys = Some d → d ≠ opposite (direction s) →
     handle_input keys s = set_next_direction d s) ∧
  (∀ e s', step e s = Ok s' → e ≠ Tick →
     direction s' = direction s ∨ (e = ResetKey ∧ direction s' = (0, 1))) ∧
  (∃ s' : Anteater,
    update s = Ok s' ∧
    (advances s = true →
       direction s' = next_direction s ∧
       direction s' ≠ opposite (direction s)) ∧
    (advances s = false →
       direction s' = direction s ∨
       (direction s' = (0, 1) ∧ retracting s = true ∧ retracting s' = false)) ∧
    (∀ h', tongue s' = h' :: tongue s →
       advances s = true ∧
       ∃ hd, head (tongue s) = Some hd ∧
         h' = (hd.1 + (direction s').1, hd.2 + (direction s').2))) ∧
  ∀ evs : list event,
    (∀ d, head (marks evs s) = Some (Applied d) → d ≠ opposite (direction s)) ∧
    (∀ i d d', marks evs s !! i = Some (Applied d) →
       marks evs s !! S i = Some (Applied d') → d' ≠ opposite d) ∧
    (∀ i d, marks evs s !! i = Some Rewound →
       marks evs s !! S i = Some (Applied d) → d ≠ (0, -1)).
Proof.
  intros Hreach. pose proof (reachable_inv s Hreach) as Hinv.
  split.
  { intros keys. rewrite handle_input_requested.
    destruct (requested keys); [case_bool_decide|]; done. }
  split.
  { intros keys d Hk ->. rewrite handle_input_requested, Hk.
    by rewrite bool_decide_eq_true_2. }
  split.
  { intros keys d Hk Hd'. rewrite handle_input_requested, Hk.
    by rewrite bool_decide_eq_false_2. }
  split.
  { intros e s' Hstep HnTick. by eapply step_direction. }
  split.
  { destruct (update_direction s Hinv) as (s' & Hs' & Hadv & Hrest & Hhead).
    exists s'. split; [done|]. split; [done|]. split; [|done].
    intros Hna. destruct (Hrest Hna) as [[_ Hd]|Hd]; [by left|by right]. }
  intros evs. by apply marks_no_reversal.
Qed.

Lemma turning_state_reachable : reachable turning_state.
Proof.
  exists seed_state, (SpaceDown :: frames no_keys 4 ++ [Input key_left]).
  split; reflexivity.
Defined.

Lemma no_reversal_witness :
  (∀ keys, direction (handle_input keys turning_state) = direction turning_state ∧
           tongue (handle_input keys turning_state) = tongue turning_state) ∧
  (∀ keys d, requested keys = Some d → d = opposite (direction turning_state) →
     handle_input keys turning_state = turning_state) ∧
  (∀ keys d, requested keys = Some d → d ≠ opposite (direction turning_state) →
     handle_input keys turning_state = set_next_direction d turning_state) ∧
  (∀ e s', step e turning_state = Ok s' → e ≠ Tick →
     direction s' = direction turning_state ∨
     (e = ResetKey ∧ direction s' = (0, 1))) ∧
  (∃ s' : Anteater,
    update turning_state = Ok s' ∧
    (advances turning_state = true →
       direction s' = next_direction turning_state ∧
       direction s' ≠ opposite (direction turning_state)) ∧
    (advances turning_state = false →
       direction s' = direction turning_state ∨
       (direction s' = (0, 1) ∧ retracting turning_state = true ∧
        retracting s' = false)) ∧
    (∀ h', tongue s' = h' :: tongue turning_state →
       advances turning_state = true ∧
       ∃ hd, head (tongue turning_state) = Some hd ∧
         h' = (hd.1 + (direction s').1, hd.2 + (direction s').2))) ∧
  ∀ evs : list event,
    (∀ d, head (marks evs turning_state) = Some (Applied d) →
       d ≠ opposite (direction turning_state)) ∧
    (∀ i d d', marks evs turning_state !! i = Some (Applied d) →
       marks evs turning_state !! S i = Some (Applied d') → d' ≠ opposite d) ∧
    (∀ i d, marks evs turning_state !! i = Some Rewound →
       marks evs turning_state !! S i = Some (Applied d) → d ≠ (0, -1)).
Proof.
  apply (no_reversal turning_state). exact turning_state_reachable.
Defined.

(** The claim of C5 fails across a retraction.  With space held the
    head goes one step down, one to the left and one up; space is
    released until the tongue is back at the seed cell, which puts
    [direction] back to [(0, 1)]; with space held again the head advances
    downwards, the exact reverse of the direction applied at the advance
    before. *)
Lemma reversal_after_retraction :
  new_anteater 20 = Ok seed_state ∧
  marks across_retraction seed_state
    = [Applied (0, 1); Applied (-1, 0); Applied (0, -1); Rewound;
       Applied (0, 1)] ∧
  applied_directions across_retraction seed_state
    = [(0, 1); (-1, 0); (0, -1); (0, 1)] ∧
  ∃ (i : nat) (d d' : Z * Z),
    applied_directions across_retraction seed_state !! i = Some d ∧
    applied_directions across_retraction seed_state !! S i = Some d' ∧
    d' = opposite d.
Proof.
  split; [reflexivity|].
  assert (marks across_retraction seed_state
            = [Applied (0, 1); Applied (-1, 0); Applied (0, -1); Rewound;
               Applied (0, 1)]) as Hm by (vm_compute; reflexivity).
  split; [exact Hm|]. unfold applied_directions. rewrite Hm. simpl.
  clear Hm. split; [reflexivity|]. exists 2%nat, (0, -1), (0, 1).
  split_and!; reflexivity.
Qed.


(** ** Scenario A (C3) *)

Lemma new_anteater_20 : new_anteater 20 = Ok seed_state.
Proof. reflexivity. Qed.

Lemma scenario_A_before_run :
  run scenario_A_before seed_state = Ok scenario_A_state_before.
Proof. vm_compute. reflexivity. Qed.

Lemma scenario_A_last_update :
  update scenario_A_state_before = Ok scenario_A_state.
Proof. vm_compute. reflexivity. Qed.

Lemma run_app (evs1 evs2 : list event) (s : Anteater) :
  run (evs1 ++ evs2) s = (s1 ← run evs1 s; run evs2 s1).
Proof.
  revert s. induction evs1 as [|e evs1 IH]; intros s; simpl.
  - by destruct (run evs2 s).
  - destruct (step e s) as [s1|]; simpl; [apply IH|done].
Qed.

Lemma scenario_A_run : run scenario_A seed_state = Ok scenario_A_state.
Proof.
  unfold scenario_A. rewrite run_app, scenario_A_before_run.
  change (run [Tick] scenario_A_state_before = Ok scenario_A_state).
  cbn [run step]. by rewrite scenario_A_last_update.
Qed.

Lemma scenario_A_path_NoDup : NoDup scenario_A_path.
Proof. by_compute. Qed.

Lemma scenario_A_path_ring (c : cell) : c ∈ scenario_A_path ↔ on_ring c.
Proof.
  split.
  - intros H. unfold scenario_A_path in H.
    repeat (apply elem_of_cons in H as [->|H];
            [unfold on_ring; simpl; lia|]).
    by apply elem_of_nil in H.
  - destruct c as [x y]. unfold on_ring. simpl. intros (Hx & Hy & Hb).
    assert (x = 15 ∨ x = 16 ∨ x = 17 ∨ x = 18 ∨ x = 19 ∨ x = 20) as Hxs by lia.
    assert (y = 5 ∨ y = 6 ∨ y = 7 ∨ y = 8 ∨ y = 9 ∨ y = 10 ∨ y = 11 ∨
            y = 12 ∨ y = 13 ∨ y = 14 ∨ y = 15) as Hys by lia.
    clear Hx Hy.
    repeat (destruct Hxs as [->|Hxs]); try subst x;
      repeat (destruct Hys as [->|Hys]); try subst y;
      first [by_compute | exfalso; lia].
Qed.

Lemma scenario_A_size : size (loop_cells scenario_A_state) = 30%nat.
Proof.
  change (loop_cells scenario_A_state)
    with (list_to_set scenario_A_path : gset cell).
  by rewrite size_list_to_set by apply scenario_A_path_NoDup.
Qed.

(** The claim of C3 fails on the cell count: the loop of scenario A has
    30 cells, not 50. *)
Lemma scenario_A_not_50_cells :
  ∃ s : Anteater,
    (s0 ← new_anteater 20; run scenario_A s0) = Ok s ∧
    size (loop_cells s) = 30%nat ∧
    size (loop_cells s) ≠ 50%nat.
Proof.
  exists scenario_A_state. split.
  - rewrite new_anteater_20. exact scenario_A_run.
  - rewrite scenario_A_size. done.
Qed.

(** C3, amended. From the seed cell (20, 5) of [Anteater(grid_size=20)] on
    the 40x30 grid, with space held, 10 steps down, 5 left, 10 up and 4
    right leave a tongue of 30 cells; the cell ahead of the head on the
    fifth step right is the seed cell, the tail of the tongue, at index
    29.  That [update] forms the loop: the tongue is not changed,
    [loop_path] is the whole tongue and [loop_cells] is its 30 cells, the
    border of the rectangle of columns 15..20 and rows 5..15. *)
Theorem scenario_A_loop :
  new_anteater 20 = Ok seed_state ∧
  tongue seed_state = [(20, 5)] ∧
  run scenario_A_before seed_state = Ok scenario_A_state_before ∧
  length (tongue scenario_A_state_before) = 30%nat ∧
  new_head_of scenario_A_state_before = Ok (20, 5) ∧
  index (20, 5) (tongue scenario_A_state_before) = Some 29%nat ∧
  run scenario_A seed_state = Ok scenario_A_state ∧
  tongue scenario_A_state = tongue scenario_A_state_before ∧
  loop_active scenario_A_state = true ∧
  loop_path scenario_A_state = take 30 (tongue scenario_A_state_before) ∧
  loop_cells scenario_A_state = list_to_set (loop_path scenario_A_state) ∧
  size (loop_cells scenario_A_state) = 30%nat ∧
  ∀ c : cell, c ∈ loop_cells scenario_A_state ↔ on_ring c.
Proof.
  split; [reflexivity|]. split; [reflexivity|].
  split; [exact scenario_A_before_run|]. split; [reflexivity|].
  split; [reflexivity|]. split; [reflexivity|].
  split; [exact scenario_A_run|]. split; [reflexivity|].
  split; [reflexivity|]. split; [reflexivity|]. split; [reflexivity|].
  split.
  - exact scenario_A_size.
  - intros c.
    change (loop_cells scenario_A_state)
      with (list_to_set scenario_A_path : gset cell).
    rewrite elem_of_list_to_set. apply scenario_A_path_ring.
Qed.

(** ** Boundary edges *)

Lemma elem_of_iter `{SetOrder} {A : Type} `{Countable A} (X : gset A) (x : A) :
  x ∈ iter X ↔ x ∈ X.
Proof. by rewrite (iter_perm X), elem_of_elements. Qed.

Lemma NoDup_iter `{SetOrder} {A : Type} `{Countable A} (X : gset A) :
  NoDup (iter X).
Proof. rewrite (iter_perm X). apply NoDup_elements. Qed.

Lemma length_iter `{SetOrder} {A : Type} `{Countable A} (X : gset A) :
  length (iter X) = size X.
Proof. by rewrite (iter_perm X). Qed.

Lemma add_cell_edges_emitted (gs : Z) (cells : gset cell)
    (es : gset edge) (c : cell) :
  add_cell_edges gs cells es c = es ∪ list_to_set (emitted gs cells c).
Proof.
  destruct c as [gx gy]. unfold add_cell_edges, emitted, enumerate. simpl.
  repeat match goal with
         | |- context [absent cells ?n] => destruct (absent cells n)
         end; cbn [app];
    rewrite ?list_to_set_cons, ?list_to_set_nil, ?union_empty_r_L,
      ?(assoc_L (∪)); reflexivity.
Qed.

Lemma elem_of_foldl_add_cell_edges (gs : Z) (cells : gset cell)
    (l : list cell) (es : gset edge) (e : edge) :
  e ∈ foldl (add_cell_edges gs cells) es l ↔
  e ∈ es ∨ ∃ c, c ∈ l ∧ e ∈ emitted gs cells c.
Proof.
  revert es. induction l as [|c l IH]; intros es; simpl.
  - split; [auto|]. intros [?|(c & Hc & _)]; [done|]. by apply elem_of_nil in Hc.
  - rewrite IH, add_cell_edges_emitted, elem_of_union, elem_of_list_to_set.
    split.
    + intros [[?|?]|(c' & ? & ?)]; [by left|right..].
      * exists c. split; [left|done].
      * exists c'. split; [by right|done].
    + intros [?|(c' & Hc' & ?)]; [by left; left|].
      apply elem_of_cons in Hc' as [->|?]; [by left; right|].
      right. by exists c'.
Qed.

Lemma elem_of_boundary_edges `{SetOrder} (gs : Z) (cells : gset cell) (e : edge) :
  e ∈ boundary_edges gs cells ↔ ∃ c, c ∈ cells ∧ e ∈ emitted gs cells c.
Proof.
  unfold boundary_edges. rewrite elem_of_foldl_add_cell_edges.
  split.
  - intros [Hemp|(c & Hc & ?)]; [by apply elem_of_empty in Hemp|].
    exists c. by rewrite <- elem_of_iter.
  - intros (c & Hc & ?). right. exists c. by rewrite elem_of_iter.
Qed.

(** A non-empty finite set of cells has a cell of least row. *)
Lemma min_row_exists (cells : gset cell) :
  cells ≠ ∅ → ∃ c, c ∈ cells ∧ ∀ c', c' ∈ cells → c.2 ≤ c'.2.
Proof.
  induction cells as [|c X Hc IH] using set_ind_L; [done|]. intros _.
  destruct (decide (X = ∅)) as [->|Hne].
  - exists c. split; [apply elem_of_union; left; by apply elem_of_singleton|].
    intros c' Hc'. rewrite union_empty_r_L in Hc'.
    apply elem_of_singleton in Hc' as ->. lia.
  - destruct (IH Hne) as (m & Hm & Hmin).
    destruct (Z.le_gt_cases c.2 m.2).
    + exists c. split; [apply elem_of_union; left; by apply elem_of_singleton|].
      intros c' Hc'.
      apply elem_of_union in Hc' as [Hc'|Hc'].
      * apply elem_of_singleton in Hc' as ->. lia.
      * specialize (Hmin c' Hc'). lia.
    + exists m. split; [by apply elem_of_union; right|]. intros c' Hc'.
      apply elem_of_union in Hc' as [Hc'|Hc'].
      * apply elem_of_singleton in Hc' as ->. lia.
      * by apply Hmin.
Qed.

(** The upper edge of a cell of least row is a boundary edge. *)
Lemma min_row_top_edge `{SetOrder} (gs : Z) (cells : gset cell) (c : cell) :
  c ∈ cells → (∀ c', c' ∈ cells → c.2 ≤ c'.2) →
  ((c.1, c.2 - 1) ∉ cells) ∧
  ((c.1 * gs, c.2 * gs), (c.1 * gs + gs, c.2 * gs)) ∈ boundary_edges gs cells.
Proof.
  intros Hc Hmin.
  assert (Hup : (c.1, c.2 - 1) ∉ cells).
  { intros Hin. specialize (Hmin _ Hin). simpl in Hmin. lia. }
  split; [done|]. apply elem_of_boundary_edges. exists c. split; [done|].
  destruct c as [gx gy]. unfold emitted. simpl in *.
  unfold absent. rewrite bool_decide_eq_true_2 by done. simpl. by left.
Qed.

(** ** The adjacency dictionary *)

Lemma adj_append_nonempty (a b : point) (adj : list (point * list point)) :
  adj_append a b adj ≠ [].
Proof. destruct adj as [|[k v] rest]; simpl; [done|]. by case_decide. Qed.

Lemma build_adj_snoc (es : list edge) (a b : point) :
  build_adj (es ++ [(a, b)]) = adj_append a b (build_adj es).
Proof. unfold build_adj. by rewrite foldl_app. Qed.

Lemma build_adj_nonempty (es : list edge) : es ≠ [] → build_adj es ≠ [].
Proof.
  destruct es as [|e es _] using rev_ind; [done|]. intros _.
  destruct e as [a b]. rewrite build_adj_snoc. apply adj_append_nonempty.
Qed.

Lemma adj_get_append (a b p : point) (adj : list (point * list point)) :
  adj_get (adj_append a b adj) p =
    if decide (a = p) then adj_get adj p ++ [b] else adj_get adj p.
Proof.
  induction adj as [|[k v] rest IH]; simpl.
  - repeat case_decide; done.
  - destruct (decide (k = a)) as [->|Hka]; simpl.
    + repeat case_decide; done.
    + rewrite IH. repeat case_decide; congruence.
Qed.

(** The list stored under a corner: the ends of the edges that leave it,
    in the order in which the edges were visited. *)
Lemma adj_get_build (es : list edge) (p : point) :
  adj_get (build_adj es) p = (filter (λ e : edge, e.1 = p) es).*2.
Proof.
  induction es as [|[a b] es IH] using rev_ind; [done|].
  rewrite build_adj_snoc, adj_get_append, IH, filter_app, fmap_app.
  rewrite filter_cons, filter_nil. simpl.
  repeat case_decide; simpl; try done; by rewrite app_nil_r.
Qed.

Lemma elem_of_adj_append_keys (a b p : point) (adj : list (point * list point)) :
  p ∈ (adj_append a b adj).*1 ↔ p = a ∨ p ∈ adj.*1.
Proof.
  induction adj as [|[k v] rest IH]; simpl.
  - rewrite elem_of_cons, elem_of_nil. tauto.
  - destruct (decide (k = a)) as [->|Hka]; simpl.
    + rewrite !elem_of_cons. tauto.
    + rewrite !elem_of_cons, IH. tauto.
Qed.

(** The keys of [adj] are the corners that some edge leaves. *)
Lemma elem_of_build_adj_keys (es : list edge) (p : point) :
  p ∈ (build_adj es).*1 ↔ ∃ b, (p, b) ∈ es.
Proof.
  induction es as [|[a b] es IH] using rev_ind.
  - simpl. split; [by intros ?%elem_of_nil|]. by intros [? ?%elem_of_nil].
  - rewrite build_adj_snoc, elem_of_adj_append_keys, IH. split.
    + intros [->|[b' Hb']].
      * exists b. apply elem_of_app. right. by left.
      * exists b'. apply elem_of_app. by left.
    + intros [b' Hb']. apply elem_of_app in Hb' as [Hb'|Hb'].
      * right. by exists b'.
      * apply list_elem_of_singleton in Hb'. left. congruence.
Qed.

(** ** The start corner *)

Lemma key_lt_irrefl (p : point) : key_lt p p = false.
Proof. unfold key_lt. lia. Qed.

Lemma key_lt_antisym (p q : point) :
  key_lt p q = false → key_lt q p = false → p = q.
Proof.
  destruct p as [px py], q as [qx qy]. unfold key_lt. simpl.
  intros H1 H2. f_equal; lia.
Qed.

Lemma key_lt_trans_false (p q r : point) :
  key_lt q p = false → key_lt r q = false → key_lt r p = false.
Proof.
  destruct p as [px py], q as [qx qy], r as [rx ry]. unfold key_lt. simpl. lia.
Qed.

Lemma min_from_spec (best : point) (l : list point) :
  (min_from best l = best ∨ min_from best l ∈ l) ∧
  key_lt best (min_from best l) = false ∧
  ∀ p, p ∈ l → key_lt p (min_from best l) = false.
Proof.
  revert best. induction l as [|q l IH]; intros best; simpl.
  - split; [by left|]. split; [apply key_lt_irrefl|]. by intros p ?%elem_of_nil.
  - destruct (key_lt q best) eqn:Hq.
    + destruct (IH q) as (Hin & Hle & Hall). split; [|split].
      * right. destruct Hin as [->|?]; [left|by right].
      * apply (key_lt_trans_false _ q); [done|].
        destruct best, q. unfold key_lt in *. simpl in *. lia.
      * intros p [->|Hp]%elem_of_cons; [done|by apply Hall].
    + destruct (IH best) as (Hin & Hle & Hall). split; [|split].
      * destruct Hin as [->|?]; [by left|right; by right].
      * done.
      * intros p [->|Hp]%elem_of_cons; [|by apply Hall].
        by apply (key_lt_trans_false _ best).
Qed.

(** [min] returns the one key that no other key is below. *)
Lemma min_key_least (l : list point) (m : point) :
  m ∈ l → (∀ p, p ∈ l → key_lt p m = false) → min_key l = Ok m.
Proof.
  destruct l as [|q l]; [by intros ?%elem_of_nil|]. intros Hm Hleast. simpl.
  f_equal. destruct (min_from_spec q l) as (Hin & Hq & Hall).
  apply key_lt_antisym.
  - apply Hleast. destruct Hin as [->|?]; [left|by right].
  - apply elem_of_cons in Hm as [->|Hm]; [done|by apply Hall].
Qed.

Lemma min_key_is_Ok (l : list point) :
  l ≠ [] → ∃ m, min_key l = Ok m ∧ m ∈ l.
Proof.
  destruct l as [|q l]; [done|]. intros _. exists (min_from q l).
  split; [done|]. destruct (min_from_spec q l) as ([->|?] & _); [left|by right].
Qed.

(** ** The walk only appends *)

Lemma walk_extends (adj : list (point * list point)) (start : point)
    (fuel : nat) (cur : point) (prev : option point) (poly : list point) :
  ∃ l, walk adj start fuel cur prev poly = poly ++ l.
Proof.
  revert cur prev poly. induction fuel as [|fuel IH]; intros cur prev poly; simpl.
  - exists []. by rewrite app_nil_r.
  - destruct (adj_get adj cur) as [|n0 ns]; [exists []; by rewrite app_nil_r|].
    match goal with |- context [decide (?n = start)] =>
      destruct (decide (n = start)); [exists []; by rewrite app_nil_r|];
      destruct (IH n (Some cur) (poly ++ [n])) as [l ->]
    end.
    eexists. by rewrite <- app_assoc.
Qed.

(** ** The primary path never yields an empty polygon (C9) *)

Lemma trace_boundary_nonempty `{SetOrder} (gs : Z) (path : list cell) :
  boundary_edges gs (list_to_set path) ≠ ∅ →
  ∃ start rest, trace_boundary gs path = Ok (start :: rest).
Proof.
  intros Hne. unfold trace_boundary. rewrite bool_decide_eq_false_2 by done.
  set (edges := boundary_edges gs (list_to_set path)) in *.
  assert (Hes : iter edges ≠ []).
  { intros Hnil. apply Hne. apply set_eq. intros e.
    rewrite <- elem_of_iter, Hnil, elem_of_nil, elem_of_empty. tauto. }
  destruct (min_key_is_Ok ((build_adj (iter edges)).*1)) as (m & -> & _).
  { intros Hnil. apply fmap_nil_inv in Hnil. by apply build_adj_nonempty in Hnil. }
  simpl.
  destruct (walk_extends (build_adj (iter edges)) m (size edges * 3) m None [m])
    as [l ->].
  by exists m, l.
Qed.

(** C9. On the primary path (a non-empty [loop_cells], a non-empty
    [loop_path] of at least [min_loop_area] cells) the traced set
    [set(loop_path)] has a cell of least row; every such cell has its
    upper neighbour outside the set, so its upper edge is a boundary
    edge.  Hence the set of boundary edges is not empty, the
    [if not edges] return is not taken, and the polygon returned starts
    with the start corner: it is not empty. *)
Theorem primary_trace_nonempty `{SetOrder} `{Libm} (s : Anteater) :
  loop_cells s ≠ ∅ →
  loop_path s ≠ [] →
  min_loop_area s ≤ Z.of_nat (length (loop_path s)) →
  (∃ c : cell, c ∈ (list_to_set (loop_path s) : gset cell) ∧
     ∀ c', c' ∈ (list_to_set (loop_path s) : gset cell) → c.2 ≤ c'.2) ∧
  (∀ c : cell, c ∈ (list_to_set (loop_path s) : gset cell) →
     (∀ c', c' ∈ (list_to_set (loop_path s) : gset cell) → c.2 ≤ c'.2) →
     ((c.1, c.2 - 1) ∉ (list_to_set (loop_path s) : gset cell)) ∧
     ((c.1 * grid_size s, c.2 * grid_size s),
      (c.1 * grid_size s + grid_size s, c.2 * grid_size s))
       ∈ boundary_edges (grid_size s) (list_to_set (loop_path s))) ∧
  boundary_edges (grid_size s) (list_to_set (loop_path s)) ≠ ∅ ∧
  get_loop_polygon_pixels s = trace_boundary (grid_size s) (loop_path s) ∧
  ∃ start rest, get_loop_polygon_pixels s = Ok (start :: rest).
Proof.
  intros Hcells Hpath Hlen.
  assert (Hne : (list_to_set (loop_path s) : gset cell) ≠ ∅).
  { destruct (loop_path s) as [|c l]; [done|]. intros Hemp.
    assert (c ∈ (list_to_set (c :: l) : gset cell)) as Hc
      by (apply elem_of_list_to_set; left).
    rewrite Hemp in Hc. by apply elem_of_empty in Hc. }
  destruct (min_row_exists _ Hne) as (c & Hc & Hmin).
  assert (Hedges : boundary_edges (grid_size s) (list_to_set (loop_path s)) ≠ ∅).
  { intros Hemp. destruct (min_row_top_edge (grid_size s) _ c Hc Hmin) as [_ He].
    rewrite Hemp in He. by apply elem_of_empty in He. }
  assert (Hprim : get_loop_polygon_pixels s
                  = trace_boundary (grid_size s) (loop_path s)).
  { unfold get_loop_polygon_pixels.
    rewrite bool_decide_eq_false_2, bool_decide_eq_true_2 by done. simpl.
    by destruct (Z.leb_spec (min_loop_area s) (Z.of_nat (length (loop_path s))));
      [|lia]. }
  split; [by exists c|]. split; [intros c'; apply min_row_top_edge|].
  split; [done|]. split; [done|].
  rewrite Hprim. by apply trace_boundary_nonempty.
Qed.

Lemma primary_trace_nonempty_witness :
  (∃ c : cell, c ∈ (list_to_set (loop_path scenario_A_state) : gset cell) ∧
     ∀ c', c' ∈ (list_to_set (loop_path scenario_A_state) : gset cell) →
       c.2 ≤ c'.2) ∧
  (∀ c : cell, c ∈ (list_to_set (loop_path scenario_A_state) : gset cell) →
     (∀ c', c' ∈ (list_to_set (loop_path scenario_A_state) : gset cell) →
        c.2 ≤ c'.2) →
     ((c.1, c.2 - 1) ∉ (list_to_set (loop_path scenario_A_state) : gset cell)) ∧
     ((c.1 * grid_size scenario_A_state, c.2 * grid_size scenario_A_state),
      (c.1 * grid_size scenario_A_state + grid_size scenario_A_state,
       c.2 * grid_size scenario_A_state))
       ∈ @boundary_edges elements_order (grid_size scenario_A_state)
           (list_to_set (loop_path scenario_A_state))) ∧
  @boundary_edges elements_order (grid_size scenario_A_state)
    (list_to_set (loop_path scenario_A_state)) ≠ ∅ ∧
  @get_loop_polygon_pixels elements_order any_libm scenario_A_state
    = @trace_boundary elements_order (grid_size scenario_A_state)
        (loop_path scenario_A_state) ∧
  ∃ start rest,
    @get_loop_polygon_pixels elements_order any_libm scenario_A_state
      = Ok (start :: rest).
Proof.
  apply (@primary_trace_nonempty elements_order any_libm scenario_A_state).
  - apply (bool_decide_unpack _). vm_compute. reflexivity.
  - simpl. discriminate.
  - simpl. lia.
Defined.

(** ** Walking a simple cycle *)

Lemma NoDup_all_equal {A : Type} (l : list A) (x : A) :
  NoDup l → x ∈ l → (∀ y, y ∈ l → y = x) → l = [x].
Proof.
  intros Hnd Hx Hall. destruct l as [|a [|b l]].
  - by apply elem_of_nil in Hx.
  - f_equal. apply Hall. left.
  - exfalso. apply NoDup_cons in Hnd as [Hab _]. apply Hab.
    rewrite (Hall a) by left. rewrite (Hall b) by (right; left). left.
Qed.

(** A corner that exactly one edge leaves has exactly one successor. *)
Lemma adj_get_unique (es : list edge) (p q : point) :
  NoDup es → (p, q) ∈ es → (∀ b, (p, b) ∈ es → b = q) →
  adj_get (build_adj es) p = [q].
Proof.
  intros Hnd Hin Huniq. rewrite adj_get_build.
  rewrite (NoDup_all_equal (filter (λ e : edge, e.1 = p) es) (p, q)); [done|..].
  - by apply NoDup_filter.
  - by apply list_elem_of_filter.
  - intros [a b] [Ha Hb]%list_elem_of_filter. simpl in Ha. subst a.
    f_equal. by apply Huniq.
Qed.

(** When every corner of a closed chain without repetition has the next
    corner of the chain as its only successor, the walk from the first
    corner returns the chain. *)
Lemma walk_cycle_from (adj : list (point * list point)) (start : point)
    (rest : list point) (i fuel : nat) (cur : point) (prev : option point) :
  NoDup (start :: rest) →
  (∀ j p q, (start :: rest) !! j = Some p →
            (rest ++ [start]) !! j = Some q → adj_get adj p = [q]) →
  (start :: rest) !! i = Some cur →
  (length (start :: rest) ≤ i + fuel)%nat →
  walk adj start fuel cur prev (take (S i) (start :: rest)) = start :: rest.
Proof.
  intros Hnd Hadj. revert i cur prev.
  induction fuel as [|fuel IH]; intros i cur prev Hi Hfuel.
  - apply lookup_lt_Some in Hi. lia.
  - pose proof (lookup_lt_Some _ _ _ Hi) as Hlt. simpl in Hlt.
    destruct (lookup_lt_is_Some_2 (rest ++ [start]) i) as [q Hq].
    { rewrite length_app. simpl. lia. }
    cbn [walk]. rewrite (Hadj i cur q Hi Hq). cbv beta iota zeta.
    assert (Hnxt : match list_find (λ c, Some c ≠ prev) [q] with
                   | Some (_, c) => c
                   | None => q
                   end = q).
    { simpl. case_decide; done. }
    rewrite Hnxt. clear Hnxt.
    destruct (decide (i = length rest)) as [->|Hne].
    + (* the last corner: its successor is the start *)
      rewrite lookup_app_r, Nat.sub_diag in Hq by lia. injection Hq as <-.
      rewrite decide_True by done.
      rewrite take_ge; [done|]. simpl. lia.
    + rewrite lookup_app_l in Hq by lia.
      assert (Hq' : (start :: rest) !! S i = Some q) by done.
      rewrite decide_False.
      2:{ intros ->.
          assert (H0 : (start :: rest) !! 0%nat = Some start) by done.
          pose proof (NoDup_lookup _ _ _ _ Hnd Hq' H0). done. }
      rewrite <- (take_S_r _ _ _ Hq'). apply IH; [done|lia].
Qed.

Lemma walk_cycle (adj : list (point * list point)) (start : point)
    (rest : list point) (fuel : nat) :
  NoDup (start :: rest) →
  (∀ j p q, (start :: rest) !! j = Some p →
            (rest ++ [start]) !! j = Some q → adj_get adj p = [q]) →
  (length (start :: rest) ≤ fuel)%nat →
  walk adj start fuel start None [start] = start :: rest.
Proof.
  intros Hnd Hadj Hfuel.
  apply (walk_cycle_from adj start rest 0 fuel start None); try done.
Qed.

(** ** Tracing a set whose boundary is one simple cycle *)

Lemma cycle_edges_lookup (cyc : list point) (j : nat) (p q : point) :
  cyc !! j = Some p → (tail cyc ++ take 1 cyc) !! j = Some q →
  cycle_edges cyc !! j = Some (p, q).
Proof.
  intros Hp Hq. unfold cycle_edges. rewrite lookup_zip_with, Hp. simpl.
  by rewrite Hq.
Qed.

Lemma elem_of_cycle_edges (cyc : list point) (p q : point) :
  (p, q) ∈ cycle_edges cyc →
  ∃ j, cyc !! j = Some p ∧ (tail cyc ++ take 1 cyc) !! j = Some q.
Proof.
  intros [j Hj]%list_elem_of_lookup. exists j. unfold cycle_edges in Hj.
  rewrite lookup_zip_with in Hj.
  destruct (cyc !! j) as [p'|]; simpl in Hj; [|done].
  destruct ((tail cyc ++ take 1 cyc) !! j) as [q'|]; simpl in Hj; [|done].
  by injection Hj as -> ->.
Qed.

Lemma length_cycle_edges (cyc : list point) :
  length (cycle_edges cyc) = length cyc.
Proof.
  unfold cycle_edges. rewrite length_zip_with, length_app.
  destruct cyc as [|p cyc]; [done|]. cbn [tail take length]. lia.
Qed.

Lemma cycle_edges_NoDup (cyc : list point) :
  NoDup cyc → NoDup (cycle_edges cyc).
Proof.
  intros Hnd. apply NoDup_alt. intros i j [p q] Hi Hj.
  unfold cycle_edges in Hi, Hj. rewrite lookup_zip_with in Hi, Hj.
  destruct (cyc !! i) as [pi|] eqn:Hpi; simpl in Hi; [|done].
  destruct (cyc !! j) as [pj|] eqn:Hpj; simpl in Hj; [|done].
  destruct ((tail cyc ++ take 1 cyc) !! i); simpl in Hi; [|done].
  destruct ((tail cyc ++ take 1 cyc) !! j); simpl in Hj; [|done].
  injection Hi as -> _. injection Hj as -> _.
  by eapply NoDup_lookup.
Qed.

(** When the boundary edges of the traced cells are exactly the edges of
    a closed chain of distinct corners that begins at its least corner
    (least row, then least column), the polygon is that chain. *)
Lemma trace_boundary_cycle `{SetOrder} (gs : Z) (path : list cell)
    (start : point) (rest : list point) :
  NoDup (start :: rest) →
  (∀ e, e ∈ boundary_edges gs (list_to_set path)
        ↔ e ∈ cycle_edges (start :: rest)) →
  (∀ p, p ∈ rest → key_lt p start = false) →
  trace_boundary gs path = Ok (start :: rest).
Proof.
  intros Hnd Hedges Hleast. unfold trace_boundary.
  set (edges := boundary_edges gs (list_to_set path)) in *.
  assert (Hperm : iter edges ≡ₚ cycle_edges (start :: rest)).
  { apply NoDup_Permutation; [apply NoDup_iter|by apply cycle_edges_NoDup|].
    intros e. by rewrite elem_of_iter. }
  assert (Hsize : size edges = S (length rest)).
  { by rewrite <- length_iter, Hperm, length_cycle_edges. }
  rewrite bool_decide_eq_false_2.
  2:{ intros Hemp. rewrite Hemp, size_empty in Hsize. done. }
  assert (Hkeys : ∀ p, p ∈ (build_adj (iter edges)).*1 ↔ p ∈ start :: rest).
  { intros p. rewrite elem_of_build_adj_keys. split.
    - intros [b Hb]. rewrite Hperm in Hb.
      apply elem_of_cycle_edges in Hb as (j & Hj & _).
      by eapply list_elem_of_lookup_2.
    - intros [j Hj]%list_elem_of_lookup.
      destruct (lookup_lt_is_Some_2 (tail (start :: rest) ++ take 1 (start :: rest)) j)
        as [q Hq].
      { apply lookup_lt_Some in Hj. simpl in *. rewrite length_app. simpl. lia. }
      exists q. rewrite Hperm. eapply list_elem_of_lookup_2.
      by apply cycle_edges_lookup. }
  rewrite (min_key_least _ start).
  2:{ apply Hkeys. left. }
  2:{ intros p [->|Hp]%Hkeys%elem_of_cons; [apply key_lt_irrefl|by apply Hleast]. }
  simpl. f_equal. apply walk_cycle; [done| |simpl; lia].
  intros j p q Hp Hq. apply adj_get_unique.
  - apply NoDup_iter.
  - rewrite Hperm. eapply list_elem_of_lookup_2. by apply cycle_edges_lookup.
  - intros b Hb. rewrite Hperm in Hb.
    apply elem_of_cycle_edges in Hb as (i & Hi & Hb).
    assert (i = j) as -> by (by eapply NoDup_lookup).
    change (tail (start :: rest) ++ take 1 (start :: rest))
      with (rest ++ [start]) in Hb.
    congruence.
Qed.

(** ** The 3x3 block (C2) *)

Lemma edge_eq (a b c d a' b' c' d' : Z) :
  a = a' → b = b' → c = c' → d = d' →
  ((a, b), (c, d)) = ((a', b'), (c', d')).
Proof. by intros -> -> -> ->. Qed.

(** An edge given by its coordinates is one of a list of edges. *)
Ltac edge_in_list :=
  cbn [cycle_edges block_perimeter zip zip_with tail take app];
  repeat first
    [ (apply elem_of_cons; left; solve [apply edge_eq; lia])
    | (apply elem_of_cons; right) ].

(** Decides which neighbours of a block cell are in the block. *)
Ltac block_neighbours Hcells :=
  unfold emitted, absent;
  repeat case_bool_decide;
  repeat match goal with
  | H : _ ∉ _ |- _ => rewrite Hcells in H
  | H : (_, _) ∈ _ |- _ => apply Hcells in H
  end; try (exfalso; lia);
  cbn [app].

Ltac cell_side Hcells Hside x y :=
  apply (Hside x y); [lia|lia|]; block_neighbours Hcells; solve [edge_in_list].

Lemma block_boundary_edges `{SetOrder} (gs c r : Z) (cells : gset cell) :
  (∀ x y, (x, y) ∈ cells ↔ c ≤ x < c + 3 ∧ r ≤ y < r + 3) →
  ∀ e, e ∈ boundary_edges gs cells ↔ e ∈ cycle_edges (block_perimeter gs c r).
Proof.
  intros Hcells e. rewrite elem_of_boundary_edges. split.
  - intros ([gx gy] & Hc & He). apply Hcells in Hc.
    assert (gx = c ∨ gx = c + 1 ∨ gx = c + 2) as Hx by lia.
    assert (gy = r ∨ gy = r + 1 ∨ gy = r + 2) as Hy by lia.
    clear Hc. revert He.
    destruct Hx as [ -> | [ -> | -> ] ], Hy as [ -> | [ -> | -> ] ];
      block_neighbours Hcells; intros He;
      repeat (apply elem_of_cons in He as [ -> | He ]; [edge_in_list|]);
      by apply elem_of_nil in He.
  - intros He.
    cbn [cycle_edges block_perimeter zip zip_with tail take app] in He.
    assert (Hside : ∀ x y, c ≤ x < c + 3 → r ≤ y < r + 3 →
              ∀ e', e' ∈ emitted gs cells (x, y) →
              ∃ c0, c0 ∈ cells ∧ e' ∈ emitted gs cells c0).
    { intros x y Hx Hy e' He'. exists (x, y). split; [by apply Hcells|done]. }
    apply elem_of_cons in He as [ -> | He ]; [cell_side Hcells Hside c r|].
    apply elem_of_cons in He as [ -> | He ]; [cell_side Hcells Hside (c + 1) r|].
    apply elem_of_cons in He as [ -> | He ]; [cell_side Hcells Hside (c + 2) r|].
    apply elem_of_cons in He as [ -> | He ]; [cell_side Hcells Hside (c + 2) r|].
    apply elem_of_cons in He as [ -> | He ];
      [cell_side Hcells Hside (c + 2) (r + 1)|].
    apply elem_of_cons in He as [ -> | He ];
      [cell_side Hcells Hside (c + 2) (r + 2)|].
    apply elem_of_cons in He as [ -> | He ];
      [cell_side Hcells Hside (c + 2) (r + 2)|].
    apply elem_of_cons in He as [ -> | He ];
      [cell_side Hcells Hside (c + 1) (r + 2)|].
    apply elem_of_cons in He as [ -> | He ]; [cell_side Hcells Hside c (r + 2)|].
    apply elem_of_cons in He as [ -> | He ]; [cell_side Hcells Hside c (r + 2)|].
    apply elem_of_cons in He as [ -> | He ]; [cell_side Hcells Hside c (r + 1)|].
    apply elem_of_cons in He as [ -> | He ]; [cell_side Hcells Hside c r|].
    by apply elem_of_nil in He.
Qed.

Lemma block_perimeter_NoDup (gs c r : Z) :
  0 < gs → NoDup (block_perimeter gs c r).
Proof.
  intros Hgs. unfold block_perimeter.
  repeat (apply NoDup_cons; split;
    [let Hin := fresh in
     intros Hin;
     repeat (apply elem_of_cons in Hin as [Hin|Hin];
             [injection Hin; lia|]);
     by apply elem_of_nil in Hin|]).
  apply NoDup_nil_2.
Qed.

Lemma block_perimeter_start (gs c r : Z) (p : point) :
  0 < gs → p ∈ tail (block_perimeter gs c r) →
  key_lt p (c * gs, r * gs) = false.
Proof.
  intros Hgs Hp. unfold block_perimeter in Hp. cbn [tail] in Hp.
  repeat (apply elem_of_cons in Hp as [ -> | Hp ]; [unfold key_lt; simpl; lia|]).
  by apply elem_of_nil in Hp.
Qed.

Lemma block_trace `{SetOrder} (gs c r : Z) (path : list cell) :
  0 < gs →
  (∀ x y, (x, y) ∈ path ↔ c ≤ x < c + 3 ∧ r ≤ y < r + 3) →
  trace_boundary gs path = Ok (block_perimeter gs c r).
Proof.
  intros Hgs Hpath.
  apply (trace_boundary_cycle gs path (c * gs, r * gs)
           (tail (block_perimeter gs c r))).
  - by apply block_perimeter_NoDup.
  - apply block_boundary_edges. intros x y.
    by rewrite elem_of_list_to_set.
  - intros p Hp. by apply block_perimeter_start.
Qed.

(** The claim of C2 fails on the count: the 3x3 block traces to twelve
    points, not eight. *)
Lemma block_3x3_not_8_points :
  ∃ poly : list point,
    @get_loop_polygon_pixels elements_order any_libm block_state = Ok poly ∧
    length poly = 12%nat ∧
    length poly ≠ 8%nat.
Proof.
  exists (block_perimeter 20 0 0). split; [|split]; [|done|done].
  vm_compute. reflexivity.
Qed.

(** C2, amended. For a positive grid size, whatever the order in which
    the sets are iterated, tracing a loop whose path covers exactly the
    cells of a 3x3 block (9 or more entries, at least [min_loop_area])
    returns the twelve corners on the outline of the block, one per cell
    side, clockwise on screen from the top-left corner. *)
Theorem block_3x3_trace `{SetOrder} `{Libm} (s : Anteater) (c r : Z) :
  0 < grid_size s →
  loop_cells s ≠ ∅ →
  min_loop_area s ≤ Z.of_nat (length (loop_path s)) →
  (∀ x y, (x, y) ∈ loop_path s ↔ c ≤ x < c + 3 ∧ r ≤ y < r + 3) →
  get_loop_polygon_pixels s = Ok (block_perimeter (grid_size s) c r) ∧
  length (block_perimeter (grid_size s) c r) = 12%nat.
Proof.
  intros Hgs Hcells Hlen Hpath. split; [|done].
  assert (Hne : loop_path s ≠ []).
  { intros Hnil. assert ((c, r) ∈ loop_path s) as Hin by (apply Hpath; lia).
    rewrite Hnil in Hin. by apply elem_of_nil in Hin. }
  unfold get_loop_polygon_pixels.
  rewrite bool_decide_eq_false_2, bool_decide_eq_true_2 by done. simpl.
  destruct (Z.leb_spec (min_loop_area s) (Z.of_nat (length (loop_path s))));
    [|lia].
  by apply block_trace.
Qed.

Lemma block_3x3_trace_witness :
  @get_loop_polygon_pixels elements_order any_libm block_state
    = Ok (block_perimeter (grid_size block_state) 0 0) ∧
  length (block_perimeter (grid_size block_state) 0 0) = 12%nat.
Proof.
  apply (@block_3x3_trace elements_order any_libm block_state 0 0).
  - simpl. lia.
  - apply (bool_decide_unpack _). vm_compute. reflexivity.
  - simpl. lia.
  - intros x y. split.
    + simpl. intros Hin.
      repeat (apply elem_of_cons in Hin as [Hin|Hin]; [injection Hin; lia|]).
      by apply elem_of_nil in Hin.
    + intros [Hx Hy].
      assert (x = 0 ∨ x = 1 ∨ x = 2) as Hxs by lia.
      assert (y = 0 ∨ y = 1 ∨ y = 2) as Hys by lia.
      destruct Hxs as [ -> | [ -> | -> ] ], Hys as [ -> | [ -> | -> ] ];
        apply (bool_decide_unpack _); vm_compute; reflexivity.
Defined.

(** ** [point_in_polygon] as a parity over edges *)

Lemma pip_loop_edges (px py : Z) (polygon : list point) (i k : nat)
    (inside : bool) :
  (i + k = length polygon)%nat →
  pip_loop px py polygon (length polygon) i k inside =
    cross_parity px py (drop i (cycle_edges polygon)) inside.
Proof.
  revert i inside. induction k as [|k IH]; intros i inside Hik.
  - rewrite drop_ge; [done|]. rewrite length_cycle_edges. lia.
  - destruct polygon as [|p0 t] eqn:Hpoly; [simpl in Hik; lia|].
    rewrite <- Hpoly in *.
    assert (Hi : (i < length polygon)%nat) by lia.
    assert (Hlen : length polygon = S (length t)) by (by rewrite Hpoly).
    assert (Hnext : tail polygon ++ take 1 polygon = t ++ [p0])
      by (by rewrite Hpoly).
    destruct (lookup_lt_is_Some_2 polygon i Hi) as [p1 Hp1].
    destruct (lookup_lt_is_Some_2 (t ++ [p0]) i) as [p2 Hp2].
    { rewrite length_app. simpl. lia. }
    assert (Hp2' : polygon !! ((i + 1) `mod` length polygon)%nat = Some p2).
    { destruct (decide (i = length t)) as [Heq|Hne].
      - replace (i + 1)%nat with (length polygon) by lia.
        rewrite Nat.Div0.mod_same.
        rewrite lookup_app_r in Hp2 by lia.
        replace (i - length t)%nat with 0%nat in Hp2 by lia.
        by rewrite Hpoly.
      - rewrite Nat.mod_small by lia.
        rewrite lookup_app_l in Hp2 by lia.
        rewrite Hpoly, Nat.add_1_r. done. }
    cbn [pip_loop]. unfold getitem. rewrite Hp1, Hp2'. simpl.
    rewrite (drop_S _ (p1, p2) i).
    2:{ apply cycle_edges_lookup; [done|]. by rewrite Hnext. }
    cbn [cross_parity]. destruct (crosses px py p1 p2) as [c|]; simpl; [|done].
    apply IH. lia.
Qed.

Lemma point_in_polygon_edges (px py : Z) (polygon : list point) :
  point_in_polygon px py polygon =
    if (length polygon <? 3)%nat then Ok false
    else cross_parity px py (cycle_edges polygon) false.
Proof.
  unfold point_in_polygon. destruct (length polygon <? 3)%nat; [done|].
  by rewrite pip_loop_edges.
Qed.

Lemma cross_parity_Ok (px py : Z) (es : list edge) (inside : bool) :
  (∀ e, e ∈ es → ∃ c, crosses px py e.1 e.2 = Ok c) →
  cross_parity px py es inside
    = Ok (xorb inside (parity (crossed px py <$> es))).
Proof.
  revert inside. induction es as [|[p1 p2] es IH]; intros inside Hok; simpl.
  - by rewrite xorb_false_r.
  - destruct (Hok (p1, p2)) as [c Hc]; [left|]. simpl in Hc.
    unfold crossed at 1. simpl. rewrite Hc. simpl.
    rewrite IH by (intros e He; apply Hok; by right).
    f_equal. change (list_fmap edge bool (crossed px py) es)
      with (crossed px py <$> es).
    generalize (parity (crossed px py <$> es)). intros b.
    by destruct c, inside, b.
Qed.


(** ** The edges of the reversed polygon *)

Lemma chain_snoc (l : list point) (y : point) :
  chain (l ++ [y]) = chain l ++ from_option (λ z, [(z, y)]) [] (last l).
Proof.
  induction l as [|x [|x' l] IH]; [done..|].
  change (chain ((x :: x' :: l) ++ [y]))
    with ((x, x') :: chain ((x' :: l) ++ [y])).
  rewrite IH. by rewrite last_cons_cons.
Qed.






(** ** The test of a horizontal or vertical edge *)

Lemma crosses_horizontal (px py x1 x2 y : Z) :
  crosses px py (x1, y) (x2, y) = Ok false.
Proof. unfold crosses. by rewrite eqb_reflx. Qed.

Lemma float_of_int_0 : float_of_int 0 = Ok 0%float.
Proof. vm_compute. reflexivity. Qed.

Lemma Prim2SF_zero : Prim2SF 0%float = S754_zero false.
Proof. vm_compute. reflexivity. Qed.

(** Zero divided by an ordinary non-zero float is a zero. *)
Lemma float_div_zero (D : float) (s : bool) (m : positive) (e : Z) :
  Prim2SF D = S754_finite s m e →
  ∃ q, float_div 0%float D = Ok q ∧ Prim2SF q = S754_zero s.
Proof.
  intros HD. unfold float_div.
  rewrite FloatAxioms.eqb_spec, HD, Prim2SF_zero. simpl.
  exists (PrimFloat.div 0 D). split; [by destruct s|].
  rewrite div_spec, HD, Prim2SF_zero. by destruct s.
Qed.

(** Adding a zero does not change what an integer compares to. *)
Lemma int_lt_float_add_zero (z : Z) (q f : float) (s : bool) :
  Prim2SF q = S754_zero s →
  int_lt_float z (PrimFloat.add q f) = int_lt_float z f.
Proof.
  intros Hq. unfold int_lt_float. rewrite add_spec, Hq.
  unfold SF64add, SFadd.
  destruct (Prim2SF f) as [s'|s'| |s' m e]; try done; by destruct s, s'.
Qed.

Lemma crosses_vertical (px py x y1 y2 : Z) (fx : float) :
  float_of_int x = Ok fx →
  denominator_finite (y2 - y1) = true →
  crosses px py (x, y1) (x, y2) =
    Ok (negb (Bool.eqb (py <? y1) (py <? y2)) && int_lt_float px fx).
Proof.
  intros Hx Hd. unfold crosses.
  destruct (negb (Bool.eqb (py <? y1) (py <? y2))); [|done].
  unfold denominator_finite in Hd.
  destruct (float_of_int (y2 - y1)) as [fd|]; [|done]. simpl.
  rewrite Z.sub_diag, Z.mul_0_l, float_of_int_0. simpl.
  destruct (Prim2SF (PrimFloat.add fd eps)) as [| | |s m e] eqn:HD; try done.
  destruct (float_div_zero _ _ _ _ HD) as (q & -> & Hq). simpl.
  rewrite Hx. simpl. by rewrite (int_lt_float_add_zero _ _ _ _ Hq).
Qed.

(** *** The denominators, checked *)

Lemma all_from_spec (P : Z → bool) (n : nat) (d x : Z) :
  all_from P n d = true → d ≤ x < d + Z.of_nat n → P x = true.
Proof.
  revert d. induction n as [|n IH]; intros d; simpl; [lia|].
  intros [Hd Hrest]%andb_prop Hx.
  destruct (decide (x = d)) as [->|Hne]; [done|].
  apply (IH (d + 1)); [done|lia].
Qed.

Lemma ordinary_finite (f : float) :
  ordinary f = true → ∃ s m e, Prim2SF f = S754_finite s m e.
Proof.
  unfold ordinary. rewrite classify_spec. unfold SF64classify, SFclassify.
  destruct (Prim2SF f) as [[]|[]| |s m e]; try done. eauto.
Qed.

Lemma binary_normalize_neg (p : positive) :
  binary_normalize prec emax (Z.neg p) 0 false
    = SFopp (binary_normalize prec emax (Z.pos p) 0 false).
Proof.
  unfold binary_normalize, binary_round, binary_round_aux.
  destruct (shl_align p 0 _) as [mz ez].
  destruct (shr_fexp prec emax (Z.pos mz) ez loc_Exact) as [mrs e'].
  destruct (shr_fexp prec emax _ e' loc_Exact) as [mrs' e''].
  destruct (shr_m mrs'); try done. by destruct (e'' <=? emax - prec).
Qed.

Lemma float_of_int_nonneg (d : Z) :
  0 ≤ d < 2 ^ 62 → float_of_int d = Ok (of_uint63 (Uint63.of_Z d)).
Proof.
  intros Hd. unfold float_of_int.
  assert (2 ^ 62 < float_overflow) by (vm_compute; reflexivity).
  destruct (Z.ltb_spec (Z.abs d) float_overflow); [|lia].
  f_equal. rewrite <- (SF2Prim_Prim2SF (of_uint63 (Uint63.of_Z d))).
  f_equal. rewrite of_uint63_spec, Uint63.of_Z_spec.
  rewrite Z.mod_small; [done|]. change Uint63.wB with (2 ^ 63). lia.
Qed.

Lemma float_of_int_neg (d : Z) :
  0 < d < 2 ^ 62 →
  float_of_int (- d) = Ok (PrimFloat.opp (of_uint63 (Uint63.of_Z d))).
Proof.
  intros Hd. unfold float_of_int.
  assert (2 ^ 62 < float_overflow) by (vm_compute; reflexivity).
  destruct (Z.ltb_spec (Z.abs (- d)) float_overflow); [|lia].
  f_equal. rewrite <- (SF2Prim_Prim2SF (PrimFloat.opp _)).
  f_equal. rewrite FloatAxioms.opp_spec, of_uint63_spec, Uint63.of_Z_spec.
  rewrite Z.mod_small by (change Uint63.wB with (2 ^ 63); lia).
  destruct d as [|p|p]; try lia. apply binary_normalize_neg.
Qed.

Lemma quick_check_denominator (d : Z) :
  0 < d < 2 ^ 62 → quick_check d = true →
  denominator_finite d = true ∧ denominator_finite (- d) = true.
Proof.
  intros Hd [H1 H2]%andb_prop. unfold denominator_finite.
  rewrite float_of_int_nonneg, float_of_int_neg by lia.
  destruct (ordinary_finite _ H1) as (s1 & m1 & e1 & ->).
  by destruct (ordinary_finite _ H2) as (s2 & m2 & e2 & ->).
Qed.

(** Checked on every difference of two coordinates within the bound. *)
Lemma denominator_finite_range (d : Z) :
  d ≠ 0 → - (2 * coordinate_bound) ≤ d ≤ 2 * coordinate_bound →
  denominator_finite d = true.
Proof.
  intros Hd Hrange.
  assert (Hall : all_from quick_check (Z.to_nat (2 * coordinate_bound)) 1 = true)
    by (vm_compute; reflexivity).
  assert (Hb : 2 * coordinate_bound < 2 ^ 62) by (vm_compute; reflexivity).
  assert (Hn : Z.of_nat (Z.to_nat (2 * coordinate_bound)) = 2 * coordinate_bound)
    by (vm_compute; reflexivity).
  destruct (Z.lt_ge_cases d 0).
  - replace d with (- (- d)) by lia.
    apply (quick_check_denominator (- d)); [lia|].
    apply (all_from_spec _ _ _ _ Hall). lia.
  - apply (quick_check_denominator d); [lia|].
    apply (all_from_spec _ _ _ _ Hall). lia.
Qed.

Lemma float_of_int_in_bound (x : Z) :
  - coordinate_bound ≤ x ≤ coordinate_bound → ∃ fx, float_of_int x = Ok fx.
Proof.
  intros Hx. unfold float_of_int.
  assert (coordinate_bound < float_overflow) by (vm_compute; reflexivity).
  destruct (Z.ltb_spec (Z.abs x) float_overflow); [eauto|lia].
Qed.


(** ** Reversal of the polygon (C8) *)




(** ** The order of floats *)

Ltac compare_cases :=
  repeat match goal with
  | H : context [Pos.compare_cont Eq ?a ?b] |- _ =>
      change (Pos.compare_cont Eq a b) with (Pos.compare a b) in H
  | |- context [Pos.compare_cont Eq ?a ?b] =>
      change (Pos.compare_cont Eq a b) with (Pos.compare a b)
  | H : context [Z.compare ?a ?b] |- _ => destruct (Z.compare_spec a b)
  | |- context [Z.compare ?a ?b] => destruct (Z.compare_spec a b)
  | H : context [Pos.compare ?a ?b] |- _ => destruct (Pos.compare_spec a b)
  | |- context [Pos.compare ?a ?b] => destruct (Pos.compare_spec a b)
  end.

Lemma SFleb_trans (x y z : spec_float) :
  SFleb x y = true → SFleb y z = true → SFleb x z = true.
Proof.
  unfold SFleb, SFcompare.
  destruct x as [[]|[]| |[] mx ex], y as [[]|[]| |[] my ey],
    z as [[]|[]| |[] mz ez];
    try done; compare_cases; simpl; try done; intros; try lia; subst; try lia.
Qed.

Lemma SFleb_total (x y : spec_float) :
  x ≠ S754_nan → y ≠ S754_nan → SFltb x y = false → SFleb y x = true.
Proof.
  unfold SFleb, SFltb, SFcompare.
  destruct x as [[]|[]| |[] mx ex], y as [[]|[]| |[] my ey];
    try done; compare_cases; simpl; try done; intros; try lia; subst; try lia.
Qed.

Lemma SFltb_leb (x y : spec_float) : SFltb x y = true → SFleb x y = true.
Proof. unfold SFleb, SFltb. by destruct (SFcompare x y) as [[]|]. Qed.

Lemma is_nan_Prim2SF (x : float) : is_nan x = false → Prim2SF x ≠ S754_nan.
Proof.
  intros Hx Hnan. unfold Prim2SF in Hnan. rewrite Hx in Hnan.
  destruct (is_zero x); [done|]. destruct (is_infinity x); [done|].
  destruct (Z.frexp x) as [r ex].
  destruct (shr_fexp prec emax _ _ _) as [sh e'].
  by destruct (shr_m sh).
Qed.

Lemma float_leb_trans (x y z : float) :
  PrimFloat.leb x y = true → PrimFloat.leb y z = true → PrimFloat.leb x z = true.
Proof. rewrite !leb_spec. apply SFleb_trans. Qed.

Lemma float_leb_total (x y : float) :
  is_nan x = false → is_nan y = false →
  PrimFloat.ltb x y = false → PrimFloat.leb y x = true.
Proof.
  intros Hx Hy. rewrite ltb_spec, leb_spec.
  apply SFleb_total; by apply is_nan_Prim2SF.
Qed.

Lemma float_ltb_leb (x y : float) :
  PrimFloat.ltb x y = true → PrimFloat.leb x y = true.
Proof. rewrite ltb_spec, leb_spec. apply SFltb_leb. Qed.

(** ** [list.sort(key=...)] *)

Lemma insert_by_key_Permutation (x : float * point) (l : list (float * point)) :
  insert_by_key x l ≡ₚ x :: l.
Proof.
  induction l as [|y l IH]; simpl; [done|].
  destruct (PrimFloat.ltb x.1 y.1); [done|].
  rewrite IH. apply Permutation_swap.
Qed.

Lemma sort_by_key_Permutation (l : list (float * point)) : sort_by_key l ≡ₚ l.
Proof.
  unfold sort_by_key.
  assert (Hgen : ∀ acc, foldl (λ acc x, insert_by_key x acc) acc l ≡ₚ acc ++ l).
  { induction l as [|x l IH]; intros acc; simpl.
    - by rewrite app_nil_r.
    - rewrite IH, insert_by_key_Permutation. simpl. apply Permutation_middle. }
  apply Hgen.
Qed.

Lemma insert_by_key_sorted (x : float * point) (l : list (float * point)) :
  is_nan x.1 = false →
  Forall (λ y, is_nan y.1 = false) l →
  StronglySorted (λ a b, PrimFloat.leb a.1 b.1 = true) l →
  StronglySorted (λ a b, PrimFloat.leb a.1 b.1 = true) (insert_by_key x l).
Proof.
  intros Hx Hnan Hsorted. induction Hsorted as [|y l Hsorted IH Hy]; simpl.
  - by repeat constructor.
  - apply Forall_cons in Hnan as [Hynan Hnan].
    destruct (PrimFloat.ltb x.1 y.1) eqn:Hlt.
    + apply float_ltb_leb in Hlt.
      constructor; [by constructor|]. constructor; [done|].
      eapply Forall_impl; [exact Hy|]. intros z Hz. simpl in Hz.
      by eapply float_leb_trans.
    + constructor; [by apply IH|].
      rewrite (insert_by_key_Permutation x l). constructor; [|done].
      by apply float_leb_total.
Qed.

Lemma sort_by_key_sorted (l : list (float * point)) :
  Forall (λ y, is_nan y.1 = false) l →
  StronglySorted (λ a b, PrimFloat.leb a.1 b.1 = true) (sort_by_key l).
Proof.
  unfold sort_by_key.
  assert (Hgen : ∀ acc,
    Forall (λ y, is_nan y.1 = false) acc →
    Forall (λ y, is_nan y.1 = false) l →
    StronglySorted (λ a b, PrimFloat.leb a.1 b.1 = true) acc →
    StronglySorted (λ a b, PrimFloat.leb a.1 b.1 = true)
      (foldl (λ acc x, insert_by_key x acc) acc l)).
  { induction l as [|x l IH]; intros acc Hacc Hl Hsorted; simpl; [done|].
    apply Forall_cons in Hl as [Hx Hl]. apply IH; [|done|].
    - rewrite insert_by_key_Permutation. by constructor.
    - by apply insert_by_key_sorted. }
  intros Hl. apply Hgen; [constructor|done|constructor].
Qed.

(** ** Sums of coordinates *)

Lemma foldl_add_bound (M : Z) (l : list Z) (a : Z) :
  Forall (λ x, Z.abs x < M) l →
  Z.abs (foldl Z.add a l) ≤ Z.abs a + (M - 1) * Z.of_nat (length l).
Proof.
  revert a. induction l as [|x l IH]; intros a Hl; simpl.
  - lia.
  - apply Forall_cons in Hl as [Hx Hl]. specialize (IH (a + x) Hl). lia.
Qed.

Lemma sum_list_Z_bound (M : Z) (l : list Z) :
  l ≠ [] → Forall (λ x, Z.abs x < M) l →
  Z.abs (sum_list_Z l) < M * Z.abs (Z.of_nat (length l)).
Proof.
  intros Hne Hl. pose proof (foldl_add_bound M l 0 Hl) as Hb.
  unfold sum_list_Z. destruct l as [|x l]; [done|].
  simpl length in *. lia.
Qed.

(** ** Small integers convert exactly *)

(** An integer below 2^53 in magnitude converts to a float of the same
    value: the conversion only shifts it up to 53 bits. *)
Lemma digits2_pos_iter (p d : positive) :
  digits2_pos (Pos.iter xO p d) = (digits2_pos p + d)%positive.
Proof.
  induction d as [|d IH] using Pos.peano_ind.
  - simpl. lia.
  - rewrite Pos.iter_succ. simpl. rewrite IH. lia.
Qed.

Lemma Zpos_iter_xO (p d : positive) :
  Z.pos (Pos.iter xO p d) = Z.pos p * 2 ^ Z.pos d.
Proof.
  induction d as [|d IH] using Pos.peano_ind.
  - simpl. lia.
  - rewrite Pos.iter_succ, Pos2Z.inj_xO, IH, Pos2Z.inj_succ, Z.pow_succ_r by lia.
    lia.
Qed.

Lemma digits2_pos_lower (p : positive) :
  2 ^ (Z.pos (digits2_pos p) - 1) ≤ Z.pos p.
Proof.
  induction p as [p IH|p IH|]; simpl; [| |done].
  - rewrite Pos2Z.inj_succ.
    replace (Z.succ (Z.pos (digits2_pos p)) - 1)
      with (Z.succ (Z.pos (digits2_pos p) - 1)) by lia.
    rewrite Z.pow_succ_r by lia. lia.
  - rewrite Pos2Z.inj_succ.
    replace (Z.succ (Z.pos (digits2_pos p)) - 1)
      with (Z.succ (Z.pos (digits2_pos p) - 1)) by lia.
    rewrite Z.pow_succ_r by lia. lia.
Qed.

Lemma binary_round_aux_exact (m : positive) (e : Z) :
  Z.pos (digits2_pos m) = 53 → -52 ≤ e ≤ 0 →
  binary_round_aux prec emax false (Z.pos m) e loc_Exact = S754_finite false m e.
Proof.
  intros Hd He. unfold binary_round_aux, shr_fexp, Zdigits2. rewrite Hd.
  unfold fexp, emin, prec, emax.
  assert (Z.max (53 + e - 53) (3 - 1024 - 53) - e = 0) as H0 by lia.
  rewrite H0.
  cbn [shr shr_record_of_loc shr_m loc_of_shr_record round_nearest_even].
  rewrite Hd, H0. cbn [shr shr_record_of_loc shr_m].
  destruct (Z.leb_spec e (1024 - 53)); [done|lia].
Qed.

Lemma binary_normalize_exact (p : positive) :
  Z.pos p < 2 ^ 53 →
  ∃ m e, binary_normalize prec emax (Z.pos p) 0 false = S754_finite false m e ∧
         e ≤ 0 ∧ Z.pos p * 2 ^ (- e) = Z.pos m.
Proof.
  intros Hp. pose proof (digits2_pos_lower p) as Hlow.
  assert (Z.pos (digits2_pos p) ≤ 53) as Hk.
  { destruct (Z.le_gt_cases (Z.pos (digits2_pos p)) 53); [done|].
    assert (2 ^ 53 ≤ 2 ^ (Z.pos (digits2_pos p) - 1))
      by (apply Z.pow_le_mono_r; lia). lia. }
  unfold binary_normalize, binary_round, shl_align, fexp, emin, prec, emax.
  replace (Z.max (Z.pos (digits2_pos p) + 0 - 53) (3 - 1024 - 53) - 0)
    with (Z.pos (digits2_pos p) - 53) by lia.
  destruct (Z.pos (digits2_pos p) - 53) as [|d|d] eqn:Hd; [|lia|].
  - exists p, 0. split; [|split; [lia|simpl; lia]].
    replace (Z.max (Z.pos (digits2_pos p) + 0 - 53) (3 - 1024 - 53)) with 0 by lia.
    apply binary_round_aux_exact; lia.
  - exists (Pos.iter xO p d), (Z.neg d).
    replace (Z.max (Z.pos (digits2_pos p) + 0 - 53) (3 - 1024 - 53))
      with (Z.neg d) by lia.
    split; [|split; [lia|]].
    + apply binary_round_aux_exact; [|lia].
      rewrite digits2_pos_iter. lia.
    + rewrite Zpos_iter_xO. simpl. done.
Qed.

Lemma Prim2SF_of_int (x : Z) :
  0 < x < 2 ^ 53 →
  ∃ m e, Prim2SF (of_uint63 (Uint63.of_Z x)) = S754_finite false m e ∧
         e ≤ 0 ∧ x * 2 ^ (- e) = Z.pos m.
Proof.
  intros Hx. destruct x as [|p|p]; try lia.
  destruct (binary_normalize_exact p ltac:(lia)) as (m & e & Hn & He).
  exists m, e. split; [|done].
  assert (2 ^ 53 < 2 ^ 62) as Hb' by (vm_compute; reflexivity).
  rewrite of_uint63_spec, Uint63.of_Z_spec.
  rewrite Z.mod_small by (change Uint63.wB with (2 ^ 63); lia). done.
Qed.

Lemma float_of_int_nearest (z : Z) :
  Z.abs z < float_overflow → float_of_int z = Ok (nearest z).
Proof.
  intros Hz. unfold float_of_int.
  by destruct (Z.ltb_spec (Z.abs z) float_overflow); [|lia].
Qed.

(** The float nearest to an integer below 2^53 in magnitude is a finite
    number or a zero. *)
Lemma Prim2SF_nearest (z : Z) :
  - 2 ^ 53 < z < 2 ^ 53 →
  (∃ s m e, Prim2SF (nearest z) = S754_finite s m e) ∨
  (∃ s, Prim2SF (nearest z) = S754_zero s).
Proof.
  intros Hz.
  assert (2 ^ 53 < 2 ^ 62) as Hb by (vm_compute; reflexivity).
  assert (2 ^ 62 < float_overflow) as Hb' by (vm_compute; reflexivity).
  pose proof (float_of_int_nearest z ltac:(lia)) as Hn.
  destruct (Z.lt_trichotomy z 0) as [Hneg|[->|Hpos]].
  - replace z with (- (- z)) in Hn at 1 by lia.
    rewrite float_of_int_neg in Hn by lia. injection Hn as <-.
    destruct (Prim2SF_of_int (- z) ltac:(lia)) as (m & e & HP & _).
    left. exists true, m, e. by rewrite FloatAxioms.opp_spec, HP.
  - right. exists false. vm_compute. reflexivity.
  - rewrite float_of_int_nonneg in Hn by lia. injection Hn as <-.
    destruct (Prim2SF_of_int z ltac:(lia)) as (m & e & HP & _).
    left. by exists false, m, e.
Qed.

(** ** No NaN from rounding, division and subtraction *)

Lemma shr_1_nonneg (mrs : shr_record) :
  0 ≤ shr_m mrs → 0 ≤ shr_m (shr_1 mrs).
Proof. destruct mrs as [[|[p|p|]|[p|p|]] r s]; simpl; lia. Qed.

Lemma iter_pos_shr_1_nonneg (p : positive) (mrs : shr_record) :
  0 ≤ shr_m mrs → 0 ≤ shr_m (SpecFloat.iter_pos shr_1 p mrs).
Proof.
  revert mrs. induction p as [p IH|p IH|]; intros mrs Hm; simpl.
  - by apply IH, IH, shr_1_nonneg.
  - by apply IH, IH.
  - by apply shr_1_nonneg.
Qed.

Lemma shr_m_record_of_loc (m : Z) (l : location) :
  shr_m (shr_record_of_loc m l) = m.
Proof. by destruct l as [|[]]. Qed.

Lemma shr_fexp_nonneg (m e : Z) (l : location) :
  0 ≤ m → 0 ≤ shr_m (shr_fexp prec emax m e l).1.
Proof.
  intros Hm. unfold shr_fexp, shr.
  destruct (fexp prec emax (Zdigits2 m + e) - e); simpl;
    rewrite ?shr_m_record_of_loc; try done.
  apply iter_pos_shr_1_nonneg. by rewrite shr_m_record_of_loc.
Qed.

Lemma round_nearest_even_nonneg (m : Z) (l : location) :
  0 ≤ m → 0 ≤ round_nearest_even m l.
Proof.
  intros Hm. destruct l as [|[]]; simpl; try lia. destruct (Z.even m); lia.
Qed.

Lemma binary_round_aux_not_nan (sx : bool) (mx ex : Z) (lx : location) :
  0 ≤ mx → binary_round_aux prec emax sx mx ex lx ≠ S754_nan.
Proof.
  intros Hm. unfold binary_round_aux.
  pose proof (shr_fexp_nonneg mx ex lx Hm) as H1.
  destruct (shr_fexp prec emax mx ex lx) as [mrs' e']. simpl in H1.
  pose proof (shr_fexp_nonneg
                (round_nearest_even (shr_m mrs') (loc_of_shr_record mrs'))
                e' loc_Exact (round_nearest_even_nonneg _ _ H1)) as H2.
  destruct (shr_fexp prec emax _ e' loc_Exact) as [mrs'' e'']. simpl in H2.
  destruct (shr_m mrs''); [done| |lia]. by destruct (e'' <=? emax - prec).
Qed.

Lemma binary_round_not_nan (sx : bool) (mx : positive) (ex : Z) :
  binary_round prec emax sx mx ex ≠ S754_nan.
Proof.
  unfold binary_round. destruct (shl_align _ _ _) as [mz ez].
  by apply binary_round_aux_not_nan.
Qed.

Lemma binary_normalize_not_nan (m e : Z) (sz : bool) :
  binary_normalize prec emax m e sz ≠ S754_nan.
Proof. destruct m; simpl; [done|apply binary_round_not_nan..]. Qed.

(** The quotient of two integers is not a NaN. *)
Lemma SFdiv_not_nan (a b : Z) :
  b ≠ 0 → SFdiv prec emax (Z2SF a) (Z2SF b) ≠ S754_nan.
Proof.
  intros Hb.
  assert (∀ (sx sy : bool) (mx my : positive),
    SFdiv prec emax (S754_finite sx mx 0) (S754_finite sy my 0) ≠ S754_nan)
    as Hfin.
  { intros sx sy mx my. unfold SFdiv, SFdiv_core_binary.
    match goal with
    | |- context [Z.div_eucl ?m' (Z.pos my)] =>
        assert (0 ≤ m') as Hm';
        [|pose proof (Z.div_pos m' (Z.pos my) Hm' ltac:(lia)) as Hq;
          unfold Z.div in Hq; destruct (Z.div_eucl m' (Z.pos my)) as [q r]]
    end.
    { match goal with
      | |- 0 ≤ match ?s with _ => _ end => destruct s eqn:Hs
      end; [lia| |lia].
      apply Z.shiftl_nonneg. lia. }
    by apply binary_round_aux_not_nan. }
  destruct a, b; try done; apply Hfin.
Qed.

Lemma SFsub_not_nan (x y : spec_float) :
  (∃ s m e, x = S754_finite s m e) ∨ (∃ s, x = S754_zero s) →
  y ≠ S754_nan → SFsub prec emax x y ≠ S754_nan.
Proof.
  intros [(s & m & e & ->)|(s & ->)] Hy;
    destruct y as [[]|[]| |sy my ey]; try done; simpl;
    try (by destruct s); apply binary_normalize_not_nan.
Qed.

Lemma is_nan_false (f : float) : Prim2SF f ≠ S754_nan → is_nan f = false.
Proof.
  intros Hf. destruct (is_nan f) eqn:Hn; [|done].
  exfalso. apply Hf. unfold Prim2SF. by rewrite Hn.
Qed.

(** Back from the specification to the machine, what is not a NaN stays
    so, whether or not it is a valid binary64. *)
Lemma SF2Prim_not_nan (x : spec_float) :
  x ≠ S754_nan → is_nan (SF2Prim x) = false.
Proof.
  destruct x as [[]|[]| |s m e]; intros Hx; try done;
    try (vm_compute; reflexivity).
  apply is_nan_false. unfold SF2Prim.
  assert (Prim2SF (Z.ldexp (of_uint63 (Uint63.of_Z (Z.pos m))) e) ≠ S754_nan)
    as Hld.
  { unfold Z.ldexp. rewrite ldshiftexp_spec, of_uint63_spec.
    unfold SFldexp.
    destruct (binary_normalize prec emax _ 0 false) eqn:Hb; try done.
    - by apply binary_normalize_not_nan in Hb.
    - apply binary_round_not_nan. }
  destruct s; [|done]. rewrite FloatAxioms.opp_spec.
  by destruct (Prim2SF _).
Qed.

Lemma mean_not_nan (l : list Z) : l ≠ [] → is_nan (mean l) = false.
Proof.
  intros Hl. apply SF2Prim_not_nan, SFdiv_not_nan.
  destruct l; [done|]. simpl. lia.
Qed.

(** The angle of a point of the screen around a centre that is not a NaN
    is not a NaN. *)
Lemma angle_not_nan `{Libm} (cx cy : float) (p : point) :
  in_bound p → is_nan cx = false → is_nan cy = false →
  is_nan (angle cx cy p) = false.
Proof.
  intros [Hx Hy] Hcx Hcy. unfold in_bound, coordinate_bound in *.
  assert (2 ^ 20 < 2 ^ 53) as Hb by (vm_compute; reflexivity).
  unfold angle.
  apply atan2_nan; apply is_nan_false; rewrite sub_spec;
    (apply SFsub_not_nan; [apply Prim2SF_nearest; lia|by apply is_nan_Prim2SF]).
Qed.

(** ** The fallback path computes centres, centroid and angles *)

Lemma cell_center_centre (gs : Z) (c : cell) : cell_center gs c = centre gs c.
Proof.
  destruct c as [gx gy]. unfold cell_center, centre. simpl. f_equal; lia.
Qed.

Lemma foldl_add_foldr (a : Z) (l : list Z) :
  foldl Z.add a l = a + foldr Z.add 0 l.
Proof.
  revert a. induction l as [|x l IH]; intros a; simpl; [lia|].
  rewrite IH. lia.
Qed.

Lemma foldr_add_Permutation (l l' : list Z) :
  l ≡ₚ l' → foldr Z.add 0 l = foldr Z.add 0 l'.
Proof. induction 1; simpl; lia. Qed.

Lemma mean_Permutation (l l' : list Z) : l ≡ₚ l' → mean l = mean l'.
Proof.
  intros Hp. unfold mean.
  by rewrite (foldr_add_Permutation l l' Hp), (Permutation_length Hp).
Qed.

(** [sum(l) / len(l)] is the mean of [l]. *)
Lemma int_truediv_mean (l : list Z) :
  l ≠ [] → Forall (λ x, Z.abs x < float_overflow) l →
  int_truediv (sum_list_Z l) (Z.of_nat (length l)) = Ok (mean l).
Proof.
  intros Hne Hl. unfold int_truediv.
  rewrite decide_False by (destruct l; [done|simpl; lia]).
  pose proof (sum_list_Z_bound float_overflow l Hne Hl) as Hb.
  destruct (Z.ltb_spec (Z.abs (sum_list_Z l))
              (float_overflow * Z.abs (Z.of_nat (length l)))); [|lia].
  unfold mean, sum_list_Z. by rewrite foldl_add_foldr.
Qed.

Lemma in_bound_float_range (p : point) :
  in_bound p → Z.abs p.1 < float_overflow ∧ Z.abs p.2 < float_overflow.
Proof.
  intros [Hx Hy]. unfold coordinate_bound in *.
  assert (2 ^ 20 < float_overflow) by (vm_compute; reflexivity). lia.
Qed.

(** The sort key of a point is its angle. *)
Lemma angle_key_angle `{Libm} (cx cy : float) (p : point) :
  in_bound p → angle_key cx cy p = Ok (angle cx cy p).
Proof.
  intros [Hx Hy]%in_bound_float_range. unfold angle_key.
  by rewrite !float_of_int_nearest by done.
Qed.

Lemma angle_keys_angle `{Libm} (cx cy : float) (pts : list point) :
  Forall in_bound pts → angle_keys cx cy pts = Ok (angle cx cy <$> pts).
Proof.
  induction 1 as [|p pts Hp _ IH]; simpl; [done|].
  by rewrite angle_key_angle, IH.
Qed.

Lemma zip_fmap_keys {A B : Type} (f : A → B) (l : list A) :
  (zip (f <$> l) l).*2 = l ∧
  Forall (λ kp, kp.1 = f kp.2) (zip (f <$> l) l).
Proof.
  induction l as [|x l [IH1 IH2]]; [by split; constructor|].
  cbn [fmap list_fmap zip zip_with]. split; [by f_equal|by constructor].
Qed.

Lemma zip_fmap_Forall {A B : Type} (f : A → B) (P : B → Prop) (l : list A) :
  Forall (λ x, P (f x)) l → Forall (λ kp, P kp.1) (zip (f <$> l) l).
Proof.
  induction 1 as [|x l Hx _ IH]; [constructor|].
  cbn [fmap list_fmap zip zip_with]. by constructor.
Qed.

(** The second components of a list of pairs sorted on their keys are
    in ascending order of angle. *)
Lemma sorted_keys_angle_le `{Libm} (cx cy : float) (l : list (float * point)) :
  Forall (λ kp, kp.1 = angle cx cy kp.2) l →
  StronglySorted (λ a b, PrimFloat.leb a.1 b.1 = true) l →
  StronglySorted (angle_le cx cy) (l.*2).
Proof.
  intros Hkeys Hsorted. induction Hsorted as [|a l _ IH Ha]; simpl.
  - constructor.
  - apply Forall_cons in Hkeys as [Hka Hkeys]. constructor; [by apply IH|].
    apply Forall_fmap. rewrite Forall_forall in Ha, Hkeys |- *.
    intros b Hb. unfold angle_le. simpl.
    rewrite <- Hka, <- (Hkeys b Hb). by apply Ha.
Qed.

Lemma iter_singleton `{SetOrder} {A : Type} `{Countable A} (x : A) :
  iter ({[x]} : gset A) = [x].
Proof.
  apply Permutation_singleton_r. by rewrite iter_perm, elements_singleton.
Qed.

(** ** The fallback path (C7) *)

(** C7. For a state whose non-empty [loop_cells] has fewer cells than
    [min_loop_area], whose [loop_path] has no more entries than there are
    cells (the code tests the length of [loop_path]; [update] builds it
    with one entry per cell), and whose cell centres lie within
    [coordinate_bound] (2^20; the screen is 800 by 600),
    [get_loop_polygon_pixels] takes the fallback path and returns: the
    result is a rearrangement of the centre points of the cells, as many
    points as cells, in ascending order of the angle
    [atan2(y - cy, x - cx)] around the centroid [(cx, cy)], the means of
    the [x] and of the [y] of the centres.  A single cell gives its
    centre alone, so with [min_loop_area] at most 2 the result has
    exactly one point. *)
Theorem fallback_path `{SetOrder} `{Libm} (s : Anteater) :
  loop_cells s ≠ ∅ →
  (length (loop_path s) ≤ size (loop_cells s))%nat →
  Z.of_nat (size (loop_cells s)) < min_loop_area s →
  (∀ c, c ∈ loop_cells s → in_bound (centre (grid_size s) c)) →
  ∃ pts : list point,
    get_loop_polygon_pixels s = fallback (grid_size s) (loop_cells s) ∧
    get_loop_polygon_pixels s = Ok pts ∧
    pts ≡ₚ centre (grid_size s) <$> elements (loop_cells s) ∧
    length pts = size (loop_cells s) ∧
    StronglySorted (angle_le (mean (pts.*1)) (mean (pts.*2))) pts ∧
    (∀ c, loop_cells s = {[c]} → pts = [centre (grid_size s) c]) ∧
    (min_loop_area s ≤ 2 →
       ∃ c, loop_cells s = {[c]} ∧ pts = [centre (grid_size s) c]).
Proof.
  intros Hne Hpath Hsize Hrange.
  set (gs := grid_size s) in *. set (cells := loop_cells s) in *.
  set (pts0 := cell_center gs <$> iter cells).
  assert (Hpts0c : pts0 = centre gs <$> iter cells).
  { unfold pts0. apply list_fmap_ext. intros _ c _. apply cell_center_centre. }
  assert (Hlen0 : length pts0 = size cells).
  { unfold pts0. by rewrite length_fmap, length_iter. }
  assert (Hsz : size cells ≠ 0%nat).
  { intros Hz. by apply size_empty_inv, leibniz_equiv in Hz. }
  assert (Hpts0 : pts0 ≠ []).
  { intros Hnil. rewrite Hnil in Hlen0. simpl in Hlen0. lia. }
  assert (Hb0 : Forall in_bound pts0).
  { rewrite Hpts0c. apply Forall_fmap, Forall_forall. intros c Hc.
    apply Hrange. by apply elem_of_iter in Hc. }
  assert (Hfb : get_loop_polygon_pixels s = fallback gs cells).
  { unfold get_loop_polygon_pixels.
    rewrite bool_decide_eq_false_2 by done.
    destruct (Z.leb_spec (min_loop_area s) (Z.of_nat (length (loop_path s))));
      [lia|].
    by rewrite andb_false_r. }
  assert (Hx0 : Forall (λ x, Z.abs x < float_overflow) (pts0.*1)).
  { apply Forall_fmap. eapply Forall_impl; [exact Hb0|].
    by intros p [? ?]%in_bound_float_range. }
  assert (Hy0 : Forall (λ x, Z.abs x < float_overflow) (pts0.*2)).
  { apply Forall_fmap. eapply Forall_impl; [exact Hb0|].
    by intros p [? ?]%in_bound_float_range. }
  set (cx := mean (pts0.*1)). set (cy := mean (pts0.*2)).
  assert (Hcx : int_truediv (sum_list_Z (pts0.*1)) (Z.of_nat (length pts0))
                  = Ok cx).
  { replace (length pts0) with (length (pts0.*1))
      by (by rewrite length_fmap).
    apply int_truediv_mean; [|done].
    intros Hnil. by apply fmap_nil_inv in Hnil. }
  assert (Hcy : int_truediv (sum_list_Z (pts0.*2)) (Z.of_nat (length pts0))
                  = Ok cy).
  { replace (length pts0) with (length (pts0.*2))
      by (by rewrite length_fmap).
    apply int_truediv_mean; [|done].
    intros Hnil. by apply fmap_nil_inv in Hnil. }
  pose proof (angle_keys_angle cx cy pts0 Hb0) as Hkeys.
  destruct (zip_fmap_keys (angle cx cy) pts0) as [Hz2 Hzk].
  set (sorted := sort_by_key (zip (angle cx cy <$> pts0) pts0)) in *.
  assert (Hperm : sorted.*2 ≡ₚ pts0).
  { unfold sorted. by rewrite sort_by_key_Permutation, Hz2. }
  assert (Hres : get_loop_polygon_pixels s = Ok (sorted.*2)).
  { rewrite Hfb. unfold fallback. fold pts0.
    rewrite bool_decide_eq_false_2 by done.
    rewrite Hcx. simpl. rewrite Hcy. simpl. by rewrite Hkeys. }
  assert (is_nan cx = false ∧ is_nan cy = false) as [Hcxn Hcyn].
  { split; apply mean_not_nan; intros Hnil; by apply fmap_nil_inv in Hnil. }
  exists (sorted.*2). split; [done|]. split; [done|]. split.
  { rewrite Hperm, Hpts0c. by rewrite iter_perm. }
  split; [by rewrite Hperm|]. split.
  { rewrite (mean_Permutation (sorted.*2.*1) (pts0.*1))
      by (by apply fmap_Permutation).
    rewrite (mean_Permutation (sorted.*2.*2) (pts0.*2))
      by (by apply fmap_Permutation).
    fold cx cy. apply sorted_keys_angle_le.
    - unfold sorted. by rewrite sort_by_key_Permutation.
    - apply sort_by_key_sorted.
      apply (zip_fmap_Forall (angle cx cy) (λ k, is_nan k = false)).
      eapply Forall_impl; [exact Hb0|].
      intros p Hp. by apply angle_not_nan. }
  assert (Hsingle : ∀ c, cells = {[c]} → sorted.*2 = [centre gs c]).
  { intros c Hc. unfold sorted. rewrite Hpts0c, Hc, iter_singleton. done. }
  split; [done|]. intros Hmin.
  destruct (size_1_elem_of cells) as [c Hc]; [lia|].
  apply leibniz_equiv in Hc. exists c. split; [done|]. by apply Hsingle.
Qed.

Lemma fallback_path_witness :
  ∃ pts : list point,
    @get_loop_polygon_pixels elements_order any_libm three_cell_state
      = @fallback elements_order any_libm (grid_size three_cell_state)
          (loop_cells three_cell_state) ∧
    @get_loop_polygon_pixels elements_order any_libm three_cell_state = Ok pts ∧
    pts ≡ₚ centre (grid_size three_cell_state)
             <$> elements (loop_cells three_cell_state) ∧
    length pts = size (loop_cells three_cell_state) ∧
    StronglySorted (@angle_le any_libm (mean (pts.*1)) (mean (pts.*2))) pts ∧
    (∀ c, loop_cells three_cell_state = {[c]} →
       pts = [centre (grid_size three_cell_state) c]) ∧
    (min_loop_area three_cell_state ≤ 2 →
       ∃ c, loop_cells three_cell_state = {[c]} ∧
            pts = [centre (grid_size three_cell_state) c]).
Proof.
  apply (@fallback_path elements_order any_libm three_cell_state).
  - apply (bool_decide_unpack _). vm_compute. reflexivity.
  - vm_compute. lia.
  - vm_compute. reflexivity.
  - intros c Hc.
    change (loop_cells three_cell_state)
      with (list_to_set [(4, 5); (4, 4); (3, 4)] : gset cell) in Hc.
    apply elem_of_list_to_set in Hc.
    repeat (apply elem_of_cons in Hc as [->|Hc];
            [split; vm_compute; split; discriminate|]).
    by apply elem_of_nil in Hc.
Defined.

(** The three cells, evaluated: the centres come out in the order of the
    stand-in for [atan2], and for one cell alone the centre. *)
Lemma three_cells_centres :
  @get_loop_polygon_pixels elements_order any_libm three_cell_state
    = Ok [(70, 90); (90, 90); (90, 110)].
Proof. vm_compute. reflexivity. Qed.
(** Scenario C, evaluated: the one point is the centre of the cell. *)
Lemma single_cell_one_point :
  @get_loop_polygon_pixels elements_order any_libm single_cell_state
    = Ok [(70, 90)].
Proof. vm_compute. reflexivity. Qed.

(** * Further properties of the game *)

(** ** Chains of cells *)

Lemma unit_adjacent (x y : Z) (d : Z * Z) :
  is_unit_direction d → adjacent (x + d.1, y + d.2) (x, y).
Proof.
  intros [ -> | [ -> | [ -> | -> ] ] ]; unfold adjacent; simpl; lia.
Qed.

Lemma adjacent_sym (a b : cell) : adjacent a b → adjacent b a.
Proof. unfold adjacent. lia. Qed.

Lemma adjacent_ne (a b : cell) : adjacent a b → a ≠ b.
Proof. unfold adjacent. intros H ->. lia. Qed.

Lemma linked_cons (a b : cell) (l : list cell) :
  adjacent a b → linked (b :: l) → linked (a :: b :: l).
Proof.
  intros Hab Hl [|i] x y; simpl.
  - by intros [= <-] [= <-].
  - apply (Hl i).
Qed.

Lemma linked_tail (a : cell) (l : list cell) : linked (a :: l) → linked l.
Proof. intros Hl i x y Hx Hy. by apply (Hl (S i)). Qed.

Lemma linked_take (n : nat) (l : list cell) : linked l → linked (take n l).
Proof.
  intros Hl i x y Hx Hy.
  apply lookup_take_Some in Hx as [Hx _]. apply lookup_take_Some in Hy as [Hy _].
  by apply (Hl i).
Qed.

Lemma linked_singleton (a : cell) : linked [a].
Proof. intros [|i] x y; simpl; [by intros _ [=]|by intros [=]]. Qed.

(** ** The invariant of play *)

Lemma new_anteater_shape (s : Anteater) :
  new_anteater 20 = Ok s → shape_inv s.
Proof.
  intros [= <-]. unfold shape_inv. simpl.
  repeat split; try done; try lia. by apply Forall_singleton.
Qed.

Lemma handle_input_shape (keys : Keys) (s : Anteater) :
  shape_inv s → shape_inv (handle_input keys s).
Proof.
  intros Hs. unfold handle_input.
  destruct (K_LEFT keys); [|destruct (K_RIGHT keys);
    [|destruct (K_UP keys); [|destruct (K_DOWN keys)]]];
    try case_bool_decide; exact Hs.
Qed.

Lemma rejected_shape (s : Anteater) : shape_inv s → shape_inv (rejected s).
Proof.
  intros (Hd & Ht & Hc & Hlen & Hlast & Hgrid & Hlink & Hoff & Hon).
  unfold shape_inv. simpl. split_and!; try done; try lia.
Qed.

Lemma new_head_adjacent (s : Anteater) (h hd : cell) (tl : list cell) :
  is_unit_direction (next_direction s) →
  new_head_of s = Ok h → tongue s = hd :: tl → adjacent h hd.
Proof.
  intros Hu Hh Ht. apply new_head_of_tongue in Hh as (hd' & tl' & Ht' & ->).
  rewrite Ht in Ht'. injection Ht' as <- <-.
  destruct hd as [x y]. by apply unit_adjacent.
Qed.

Lemma looped_shape (s : Anteater) (h : cell) (i : nat) :
  play_inv s → new_head_of s = Ok h → index h (tongue s) = Some i →
  shape_inv (looped i s).
Proof.
  intros [Hinv (Hd & Ht & Hc & Hlen & Hlast & Hgrid & Hlink & Hoff & Hon)] Hh Hi.
  destruct Hinv as (Hg & Hcd & Hm & Ha & Hne & Hnd & Hdir & Hn & Hrev & Hfl & Hloop).
  pose proof (index_lt_length _ _ _ Hi) as Hlt.
  apply index_Some in Hi as [Hi _].
  destruct (tongue s) as [|hd tl] eqn:Htg; [done|].
  pose proof (new_head_adjacent s h hd tl Hn Hh Htg) as Hadj.
  assert (i ≠ 0%nat) as Hi0.
  { intros ->. simpl in Hi. injection Hi as ->. by apply adjacent_ne in Hadj. }
  unfold shape_inv. simpl. rewrite Htg.
  split_and!; try done; try lia.
  intros _. unfold loop_shape. simpl. rewrite Htg.
  change (hd :: take i tl) with (take (S i) (hd :: tl)).
  split_and!.
  - done.
  - eapply sublist_NoDup; [exact Hnd|apply sublist_take].
  - rewrite length_take. lia.
  - rewrite length_take. lia.
  - by apply Forall_take.
  - by apply linked_take.
  - exists hd, h. split; [done|]. split; [|by apply adjacent_sym].
    rewrite last_lookup, length_take.
    replace (Init.Nat.pred (S i `min` length (hd :: tl))) with i by lia.
    rewrite lookup_take_lt by lia. done.
Qed.

Lemma extended_shape (s : Anteater) (h : cell) :
  play_inv s → new_head_of s = Ok h → on_grid 20 h →
  Z.of_nat (length (tongue s)) < 40 →
  shape_inv (extended h s).
Proof.
  intros [Hinv (Hd & Ht & Hc & Hlen & Hlast & Hgrid & Hlink & Hoff & Hon)] Hh Hg Hl.
  destruct Hinv as (_ & _ & _ & _ & Hne & _ & _ & Hn & _).
  destruct (tongue s) as [|hd tl] eqn:Htg; [done|].
  pose proof (new_head_adjacent s h hd tl Hn Hh Htg) as Hadj.
  unfold shape_inv. simpl. rewrite Htg.
  split_and!; try done; try lia.
  - by apply Forall_cons.
  - by apply linked_cons.
Qed.

Lemma extend_phase_shape (s : Anteater) (f : flow Anteater) :
  play_inv s → extend_phase s = Ok f →
  match f with Continue s' | Return s' => shape_inv s' end.
Proof.
  intros Hinv. pose proof Hinv as [Htinv Hs].
  pose proof Htinv as (Hg & Hcd & Hm & _).
  unfold extend_phase.
  destruct (extending s && negb (loop_active s)); [|by intros [= <-]].
  simpl. rewrite Hcd.
  destruct (Z.leb_spec 5 (move_timer s + 1)) as [Hfire|Hwait].
  2:{ intros [= <-].
      destruct Hs as (Hd & Ht & Hc & Hlen & Hlast & Hgrid & Hlink & Hoff & Hon).
      unfold shape_inv. simpl. split_and!; try done; lia. }
  intros Hf. apply advance_head_cases in Hf as (h & Hh & _ & Hcases).
  destruct Hcases as [[_ ->]|[(_ & i & Hi & ->)|[(Hoob & _ & Hlen & ->)|(_ & _ & _ & ->)]]].
  - by apply (rejected_shape s).
  - by apply (looped_shape s h i).
  - simpl in Hoob, Hlen. rewrite Hg in Hoob. rewrite Hm in Hlen.
    by apply (extended_shape s h).
  - by apply (rejected_shape s).
Qed.

Lemma retract_phase_shape (s s' : Anteater) :
  play_inv s → retract_phase s = Ok s' → shape_inv s'.
Proof.
  intros [Htinv Hs]. pose proof Htinv as (_ & Hcd & _).
  pose proof Hs as (Hd & Ht & Hc & Hlen & Hlast & Hgrid & Hlink & Hoff & Hon).
  unfold retract_phase.
  destruct (retracting s); [|by intros [= <-]].
  simpl. rewrite Hcd.
  destruct (Z.leb_spec 5 (move_timer s + 1)) as [Hfire|Hwait].
  2:{ intros [= <-]. unfold shape_inv. simpl. split_and!; try done; lia. }
  destruct (tongue s) as [|c [|c' t]] eqn:Htg; simpl.
  - done.
  - intros [= <-]. unfold shape_inv. simpl. rewrite Htg.
    split_and!; try done; lia.
  - destruct (Z.ltb_spec 1 (Z.of_nat (S (S (length t))))); [|lia].
    intros [= <-]. unfold shape_inv. simpl.
    split_and!; try done; try lia.
    + simpl in Hlen. lia.
    + by apply Forall_cons in Hgrid as [_ Hgrid].
    + by apply linked_tail in Hlink.
Qed.

Lemma update_play_inv (s s' : Anteater) :
  play_inv s → update s = Ok s' → play_inv s'.
Proof.
  intros Hinv Hu. split; [eapply update_inv; [apply Hinv|exact Hu]|].
  revert Hu. unfold update.
  destruct (extend_phase s) as [f|] eqn:Hf; simpl; [|done].
  pose proof (extend_phase_shape s f Hinv Hf) as Hf'.
  pose proof (extend_phase_inv s f (proj1 Hinv) Hf) as Hf''.
  destruct f as [s1|s1]; [|by intros [= <-]].
  by apply retract_phase_shape.
Qed.

Lemma step_play_inv (e : event) (s s' : Anteater) :
  play_inv s → step e s = Ok s' → play_inv s'.
Proof.
  intros Hinv Hstep.
  assert (tongue_inv s') as Ht' by (eapply step_inv; [apply Hinv|exact Hstep]).
  destruct Hinv as [Htinv Hs]. pose proof Htinv as (Hg & _).
  pose proof Hs as (Hd & Ht & Hc & Hlen & Hlast & Hgrid & Hlink & Hoff & Hon).
  revert Hstep. destruct e; simpl.
  - intros [= <-]. by split.
  - intros [= <-]. by split.
  - unfold reset_tongue, floordiv. rewrite Hg. simpl. intros [= <-].
    split; [done|].
    unfold shape_inv. simpl. split_and!; try done; try lia.
    by apply Forall_singleton.
  - intros [= <-]. split; [done|]. by apply handle_input_shape.
  - by apply update_play_inv.
  - destruct (loop_active s && bool_decide (trapped_ants s = []));
      [|by intros [= <-]].
    destruct (bool_decide (trapped = [])); intros [= <-]; [|by split].
    split; [done|].
    unfold shape_inv. simpl. split_and!; try done; lia.
  - destruct (loop_active s && negb (bool_decide (trapped_ants s = [])));
      [|by intros [= <-]].
    destruct (Z.ltb_spec 0 (capture_timer s)); intros [= <-];
      (split; [done|]).
    + unfold shape_inv. simpl. split_and!; try done; lia.
    + unfold shape_inv. simpl. split_and!; try done; lia.
Qed.

Lemma run_play_inv (evs : list event) (s s' : Anteater) :
  play_inv s → run evs s = Ok s' → play_inv s'.
Proof.
  revert s. induction evs as [|e evs IH]; intros s Hinv; simpl.
  - by intros [= <-].
  - destruct (step e s) as [s1|] eqn:Hs; simpl; [|done].
    apply IH. by eapply step_play_inv.
Qed.

Lemma reachable_play_inv (s : Anteater) : reachable s → play_inv s.
Proof.
  intros (s0 & evs & H0 & Hrun).
  eapply run_play_inv; [|exact Hrun].
  split; [by apply new_anteater_inv|by apply new_anteater_shape].
Qed.

(** ** Exceptions of [update] *)

Lemma advance_head_raises (s : Anteater) :
  match tongue s with
  | [] => advance_head (set_move_timer 0 s) = Raise IndexError
  | _ :: _ =>
      if decide (grid_size s = 0)
      then advance_head (set_move_timer 0 s) = Raise ZeroDivisionError
      else ∃ f, advance_head (set_move_timer 0 s) = Ok f
  end.
Proof.
  rewrite advance_head_outcome. unfold extend_head, new_head_of, floordiv.
  destruct (tongue s) as [|[hx hy] tl] eqn:Ht; simpl; [done|].
  destruct (next_direction s) as [dx dy] eqn:Hd. simpl.
  destruct (decide (grid_size s = 0)); simpl; [done|].
  match goal with
  | |- ∃ f, ?m ≫= _ = _ => assert (∃ o, m = Ok o) as [o ->]
  end.
  { repeat case_match; by eauto. }
  simpl. destruct o; simpl; try by eauto.
  unfold new_head_of. rewrite Ht. simpl. rewrite Hd. simpl. by eauto.
Qed.

Lemma update_after_extend (s : Anteater) (f : flow Anteater) :
  extend_phase s = Ok f → ∃ s', update s = Ok s'.
Proof.
  intros Hf. unfold update. rewrite Hf. simpl.
  destruct f as [s1|s1]; [|by eauto].
  destruct (retract_phase_total s1) as (s' & Hs' & _). by eauto.
Qed.

Lemma update_propagates (s : Anteater) (e : exn) :
  extend_phase s = Raise e → update s = Raise e.
Proof. intros Hf. unfold update. by rewrite Hf. Qed.

Lemma update_cases (s : Anteater) :
  if advances s then
    match tongue s with
    | [] => update s = Raise IndexError
    | _ :: _ =>
        if decide (grid_size s = 0) then update s = Raise ZeroDivisionError
        else ∃ s', update s = Ok s'
    end
  else ∃ s', update s = Ok s'.
Proof.
  destruct (advances s) eqn:Hadv.
  2:{ destruct (update_not_advancing s Hadv) as (s1 & Hf & _).
      by apply (update_after_extend s _ Hf). }
  pose proof (extend_phase_advances s Hadv) as Hext.
  pose proof (advance_head_raises s) as Hcases. rewrite <- Hext in Hcases.
  destruct (tongue s) as [|c tl]; [by apply update_propagates|].
  destruct (decide (grid_size s = 0)); [by apply update_propagates|].
  destruct Hcases as [f Hf]. by apply (update_after_extend s f).
Qed.

(** X1. The only exceptions that [update] lets through come from the
    advance of the head: [IndexError] from [self.tongue[0]] exactly when
    the head is to advance on an empty tongue, [ZeroDivisionError] from
    [WIDTH // self.grid_size] exactly when it is to advance with a grid
    size of zero and a tongue that is not empty; in every other state
    [update] returns. *)
Theorem update_exceptions (s : Anteater) :
  (update s = Raise IndexError ↔ advances s = true ∧ tongue s = []) ∧
  (update s = Raise ZeroDivisionError ↔
     advances s = true ∧ tongue s ≠ [] ∧ grid_size s = 0) ∧
  ((∃ s', update s = Ok s') ↔
     advances s = false ∨ (tongue s ≠ [] ∧ grid_size s ≠ 0)) ∧
  update s ≠ Raise OverflowError ∧
  update s ≠ Raise ValueError.
Proof.
  pose proof (update_cases s) as Hcases.
  destruct (advances s) eqn:Hadv.
  2:{ destruct Hcases as [s' Hs']. rewrite Hs'.
      split_and!; try done; try (split; [done|by intros [[=] _]]).
      split; [by left|by eauto]. }
  destruct (tongue s) as [|c tl] eqn:Ht.
  { rewrite Hcases. split_and!; try done.
    - split; [by intros [=]|by intros (_ & ? & _)].
    - split; [by intros [s' [=]]|by intros [[=]|[? _]]]. }
  destruct (decide (grid_size s = 0)) as [Hg|Hg].
  { rewrite Hcases. split_and!; try done.
    - split; [by intros [=]|by intros [_ [=]]].
    - split; [by intros [s' [=]]|by intros [[=]|[_ ?]]]. }
  destruct Hcases as [s' Hs']. rewrite Hs'.
  split_and!; try done.
  - split; [done|by intros [_ [=]]].
  - split; [done|by intros (_ & _ & ?)].
  - split; [by right|by eauto].
Qed.

(** ** No exception in play *)

Lemma step_returns (e : event) (s : Anteater) :
  tongue_inv s → ∃ s', step e s = Ok s'.
Proof.
  intros Hinv. pose proof Hinv as (Hg & _ & _ & _ & Hne & _).
  destruct e; simpl; try by eauto.
  - unfold reset_tongue, floordiv. rewrite Hg. simpl. by eauto.
  - pose proof (update_cases s) as Hcases.
    destruct (advances s); [|done].
    destruct (tongue s); [done|].
    by destruct (decide (grid_size s = 0)) as [Hg0|]; [rewrite Hg in Hg0|].
  - destruct (_ && _); [|by eauto]. destruct (bool_decide _); by eauto.
  - destruct (_ && _); [|by eauto]. destruct (_ <? _); by eauto.
Qed.

Lemma run_returns (evs : list event) (s : Anteater) :
  tongue_inv s → ∃ s', run evs s = Ok s'.
Proof.
  revert s. induction evs as [|e evs IH]; intros s Hinv; simpl; [by eauto|].
  destruct (step_returns e s Hinv) as [s1 Hs1]. rewrite Hs1. simpl.
  apply IH. by eapply step_inv.
Qed.

(** X2. Whatever the player does, the game's use of the anteater raises no
    exception: from [Anteater(grid_size=20)], every sequence of key
    events, [handle_input] and [update] calls, captures and countdowns
    runs to its end.  ([self.tongue[0]] always finds a cell, and the
    grid size never is zero.) *)
Theorem play_never_raises (evs : list event) :
  ∃ s : Anteater, (s0 ← new_anteater 20; run evs s0) = Ok s.
Proof.
  rewrite new_anteater_20. simpl. apply run_returns.
  apply new_anteater_inv, new_anteater_20.
Qed.

(** ** The tongue in play *)

Lemma scenario_A_state_reachable : reachable scenario_A_state.
Proof.
  exists seed_state, scenario_A. split; [reflexivity|apply scenario_A_run].
Qed.

Lemma on_grid_20 (c : cell) :
  on_grid 20 c ↔ 0 ≤ c.1 ≤ 39 ∧ 0 ≤ c.2 ≤ 29.
Proof.
  destruct c as [x y]. unfold on_grid, out_of_bounds.
  change (WIDTH `div` 20 - 1) with 39. change (HEIGHT `div` 20 - 1) with 29.
  simpl. rewrite !orb_false_iff, !Z.ltb_ge. lia.
Qed.

(** X3. In play the tongue never leaves the screen: every cell of it passes
    the bounds test of [update], that is, lies in columns 0..39 and rows
    0..29 of the 40x30 grid. *)
Theorem tongue_stays_on_grid (s : Anteater) :
  reachable s →
  ∀ c : cell, c ∈ tongue s →
    out_of_bounds (grid_size s) c = false ∧ 0 ≤ c.1 ≤ 39 ∧ 0 ≤ c.2 ≤ 29.
Proof.
  intros Hr c Hc. apply reachable_play_inv in Hr as [Htinv Hs].
  destruct Htinv as (Hg & _).
  destruct Hs as (_ & _ & _ & _ & _ & Hgrid & _).
  rewrite Forall_forall in Hgrid. specialize (Hgrid c Hc).
  rewrite Hg. split; [exact Hgrid|]. by apply on_grid_20.
Qed.

Lemma tongue_stays_on_grid_witness :
  reachable scenario_A_state ∧
  ∀ c : cell, c ∈ tongue scenario_A_state →
    out_of_bounds (grid_size scenario_A_state) c = false ∧
    0 ≤ c.1 ≤ 39 ∧ 0 ≤ c.2 ≤ 29.
Proof.
  split; [exact scenario_A_state_reachable|].
  apply (tongue_stays_on_grid scenario_A_state scenario_A_state_reachable).
Defined.

(** X4. In play the tongue is a simple path on the grid: no cell occurs
    twice in it, and each cell shares a side with the next one. *)
Theorem tongue_is_simple_path (s : Anteater) :
  reachable s →
  NoDup (tongue s) ∧
  ∀ i a b, tongue s !! i = Some a → tongue s !! S i = Some b →
    Z.abs (a.1 - b.1) + Z.abs (a.2 - b.2) = 1.
Proof.
  intros Hr. apply reachable_play_inv in Hr as [Htinv Hs].
  destruct Htinv as (_ & _ & _ & _ & _ & Hnd & _).
  destruct Hs as (_ & _ & _ & _ & _ & _ & Hlink & _).
  split; [exact Hnd|exact Hlink].
Qed.

Lemma tongue_is_simple_path_witness :
  reachable scenario_A_state ∧
  NoDup (tongue scenario_A_state) ∧
  ∀ i a b, tongue scenario_A_state !! i = Some a →
    tongue scenario_A_state !! S i = Some b →
    Z.abs (a.1 - b.1) + Z.abs (a.2 - b.2) = 1.
Proof.
  split; [exact scenario_A_state_reachable|].
  apply (tongue_is_simple_path scenario_A_state scenario_A_state_reachable).
Defined.

(** X5. In play the tongue stays anchored and bounded: its last cell is the
    cell (20, 5) below the anteater where [__init__] and [reset_tongue]
    start it, it is never empty, and it never has more than
    [max_segments] = 40 cells. *)
Theorem tongue_anchored_and_bounded (s : Anteater) :
  reachable s →
  last (tongue s) = Some (20, 5) ∧
  (1 ≤ length (tongue s))%nat ∧
  Z.of_nat (length (tongue s)) ≤ max_segments s ∧
  max_segments s = 40.
Proof.
  intros Hr. apply reachable_play_inv in Hr as [Htinv Hs].
  destruct Htinv as (_ & _ & Hm & _ & Hne & _).
  destruct Hs as (_ & _ & _ & Hlen & Hlast & _).
  split; [exact Hlast|]. rewrite Hm.
  split_and!; [|lia|done]. destruct (tongue s); [done|simpl; lia].
Qed.

Lemma tongue_anchored_and_bounded_witness :
  reachable scenario_A_state ∧
  last (tongue scenario_A_state) = Some (20, 5) ∧
  (1 ≤ length (tongue scenario_A_state))%nat ∧
  Z.of_nat (length (tongue scenario_A_state)) ≤ max_segments scenario_A_state ∧
  max_segments scenario_A_state = 40.
Proof.
  split; [exact scenario_A_state_reachable|].
  apply (tongue_anchored_and_bounded scenario_A_state scenario_A_state_reachable).
Defined.

(** ** Loops in play *)

(** X6. In play a loop that is active is a closed chain of cells: [loop_cells]
    is the set of the cells of [loop_path], which are between 2 and 40
    distinct cells of the grid, each sharing a side with the next and the
    last one with the first. *)
Theorem loop_is_closed_chain (s : Anteater) :
  reachable s → loop_active s = true →
  loop_cells s = list_to_set (loop_path s) ∧
  NoDup (loop_path s) ∧
  (2 ≤ length (loop_path s) ≤ 40)%nat ∧
  (∀ c : cell, c ∈ loop_path s → 0 ≤ c.1 ≤ 39 ∧ 0 ≤ c.2 ≤ 29) ∧
  (∀ i a b, loop_path s !! i = Some a → loop_path s !! S i = Some b →
     adjacent a b) ∧
  ∃ a b, head (loop_path s) = Some a ∧ last (loop_path s) = Some b ∧
         adjacent a b.
Proof.
  intros Hr Hact. apply reachable_play_inv in Hr as [_ Hs].
  destruct Hs as (_ & _ & _ & _ & _ & _ & _ & _ & Hon).
  destruct (Hon Hact) as (Hcells & Hnd & Hlen & Hgrid & Hlink & Hclosed).
  split_and!; try done; try lia.
  intros c Hc. rewrite Forall_forall in Hgrid. by apply on_grid_20, Hgrid.
Qed.

Lemma loop_is_closed_chain_witness :
  reachable scenario_A_state ∧
  loop_cells scenario_A_state = list_to_set (loop_path scenario_A_state) ∧
  NoDup (loop_path scenario_A_state) ∧
  (2 ≤ length (loop_path scenario_A_state) ≤ 40)%nat ∧
  (∀ c : cell, c ∈ loop_path scenario_A_state → 0 ≤ c.1 ≤ 39 ∧ 0 ≤ c.2 ≤ 29) ∧
  (∀ i a b, loop_path scenario_A_state !! i = Some a →
     loop_path scenario_A_state !! S i = Some b → adjacent a b) ∧
  ∃ a b, head (loop_path scenario_A_state) = Some a ∧
         last (loop_path scenario_A_state) = Some b ∧ adjacent a b.
Proof.
  split; [exact scenario_A_state_reachable|].
  apply (loop_is_closed_chain scenario_A_state scenario_A_state_reachable).
  reflexivity.
Defined.

Lemma list_to_set_nonempty (l : list cell) :
  l ≠ [] → (list_to_set l : gset cell) ≠ ∅.
Proof.
  destruct l as [|c l]; [done|]. intros _ Hempty.
  assert (c ∈ (list_to_set (c :: l) : gset cell)) as Hc
    by (apply elem_of_list_to_set, elem_of_cons; by left).
  rewrite Hempty in Hc. by apply elem_of_empty in Hc.
Qed.

Lemma boundary_edges_nonempty `{SetOrder} (gs : Z) (cells : gset cell) :
  cells ≠ ∅ → boundary_edges gs cells ≠ ∅.
Proof.
  intros Hne Hempty. destruct (min_row_exists cells Hne) as (c & Hc & Hmin).
  destruct (min_row_top_edge gs cells c Hc Hmin) as [_ He].
  rewrite Hempty in He. by apply elem_of_empty in He.
Qed.

Lemma reachable_polygon `{SetOrder} `{Libm} (s : Anteater) :
  reachable s →
  (loop_active s = false →
     loop_cells s = ∅ ∧ get_loop_polygon_pixels s = Ok []) ∧
  (loop_active s = true →
     min_loop_area s ≤ Z.of_nat (length (loop_path s)) ∧
     get_loop_polygon_pixels s = trace_boundary (grid_size s) (loop_path s) ∧
     ∃ p rest, get_loop_polygon_pixels s = Ok (p :: rest)).
Proof.
  intros Hr. apply reachable_play_inv in Hr as [Htinv Hs].
  destruct Htinv as (_ & _ & _ & Ha & _).
  destruct Hs as (_ & _ & _ & _ & _ & _ & _ & Hoff & Hon).
  split.
  - intros Hact. specialize (Hoff Hact). split; [done|].
    unfold get_loop_polygon_pixels. by rewrite bool_decide_eq_true_2.
  - intros Hact. destruct (Hon Hact) as (Hcells & _ & Hlen & _).
    assert (loop_path s ≠ []) as Hne by (destruct (loop_path s); [simpl in *; lia|done]).
    assert (get_loop_polygon_pixels s
              = trace_boundary (grid_size s) (loop_path s)) as Heq.
    { unfold get_loop_polygon_pixels.
      rewrite bool_decide_eq_false_2
        by (rewrite Hcells; by apply list_to_set_nonempty).
      rewrite bool_decide_eq_true_2 by done. rewrite Ha.
      by destruct (Z.leb_spec 2 (Z.of_nat (length (loop_path s)))); [|lia]. }
    split; [lia|]. split; [done|]. rewrite Heq.
    apply trace_boundary_nonempty, boundary_edges_nonempty.
    by apply list_to_set_nonempty.
Qed.

(** X7. In play [get_loop_polygon_pixels] never takes its fallback path:
    without an active loop [loop_cells] is empty and the polygon is [[]];
    with one, [loop_path] has at least [min_loop_area] = 2 cells, so the
    polygon is the traced boundary, and it is not empty. *)
Theorem polygon_in_play `{SetOrder} `{Libm} (s : Anteater) :
  reachable s →
  (loop_active s = false →
     loop_cells s = ∅ ∧ get_loop_polygon_pixels s = Ok []) ∧
  (loop_active s = true →
     min_loop_area s ≤ Z.of_nat (length (loop_path s)) ∧
     get_loop_polygon_pixels s = trace_boundary (grid_size s) (loop_path s) ∧
     ∃ p rest, get_loop_polygon_pixels s = Ok (p :: rest)).
Proof. apply reachable_polygon. Qed.

Lemma polygon_in_play_witness :
  reachable scenario_A_state ∧
  (loop_active scenario_A_state = false →
     loop_cells scenario_A_state = ∅ ∧
     @get_loop_polygon_pixels elements_order any_libm scenario_A_state = Ok []) ∧
  (loop_active scenario_A_state = true →
     min_loop_area scenario_A_state
       ≤ Z.of_nat (length (loop_path scenario_A_state)) ∧
     @get_loop_polygon_pixels elements_order any_libm scenario_A_state
       = @trace_boundary elements_order (grid_size scenario_A_state)
           (loop_path scenario_A_state) ∧
     ∃ p rest,
       @get_loop_polygon_pixels elements_order any_libm scenario_A_state
         = Ok (p :: rest)).
Proof.
  split; [exact scenario_A_state_reachable|].
  apply (@polygon_in_play elements_order any_libm scenario_A_state
           scenario_A_state_reachable).
Defined.

(** X8. A loop of just two cells can be formed.  The reversal test of
    [handle_input] compares with the direction of the last advance, not
    with the cell behind the head: after a turn and a retraction past the
    corner, the head may be sent straight back onto the cell behind it. *)
Theorem two_cell_loop_reachable :
  ∃ s : Anteater,
    (s0 ← new_anteater 20; run fold_back s0) = Ok s ∧
    reachable s ∧
    loop_active s = true ∧
    loop_path s = [(20, 8); (20, 7)] ∧
    tongue s = [(20, 8); (20, 7); (20, 6); (20, 5)] ∧
    direction s = (0, -1).
Proof.
  assert (∃ s, run fold_back seed_state = Ok s ∧ loop_active s = true ∧
            loop_path s = [(20, 8); (20, 7)] ∧
            tongue s = [(20, 8); (20, 7); (20, 6); (20, 5)] ∧
            direction s = (0, -1)) as (s & Hrun & Hrest).
  { vm_compute. eexists. split; [reflexivity|]. by split_and!. }
  exists s. split; [exact Hrun|]. split; [|exact Hrest].
  exists seed_state, fold_back. by split.
Qed.

(** ** Reset *)

(** X9. The R key (and the restart button) puts the anteater back into the
    state [Anteater(grid_size=20)] starts in, except for the flags
    [extending] and [retracting], which [reset_tongue] leaves as they
    are: a reset while space is held keeps extending from the start
    cell. *)
Theorem reset_restores_start (s : Anteater) :
  reachable s →
  step ResetKey s =
    Ok (set_retracting (retracting s) (set_extending (extending s) seed_state)).
Proof.
  intros Hr. apply reachable_play_inv in Hr as [Htinv Hs].
  destruct Htinv as (Hg & Hcd & Hm & Ha & _).
  destruct Hs as (Hd & _).
  destruct s. simpl in Hg, Hcd, Hm, Ha, Hd. subst.
  vm_compute. reflexivity.
Qed.

Lemma reset_restores_start_witness :
  reachable scenario_A_state ∧
  step ResetKey scenario_A_state =
    Ok (set_retracting (retracting scenario_A_state)
          (set_extending (extending scenario_A_state) seed_state)).
Proof.
  split; [exact scenario_A_state_reachable|].
  apply (reset_restores_start scenario_A_state scenario_A_state_reachable).
Defined.

(** ** Retraction runs to its end *)

Lemma handle_input_fields (keys : Keys) (s : Anteater) :
  ∃ d, handle_input keys s = set_next_direction d s.
Proof.
  unfold handle_input.
  destruct (K_LEFT keys); [|destruct (K_RIGHT keys);
    [|destruct (K_UP keys); [|destruct (K_DOWN keys)]]];
    try case_bool_decide; try (by eexists);
    exists (next_direction s); by destruct s.
Qed.

Lemma handle_input_pulling (keys : Keys) (C : Z) (l : list cell) (t : Z)
    (r : bool) (d : Z * Z) (s : Anteater) :
  pulling C l t r d s → pulling C l t r d (handle_input keys s).
Proof. destruct (handle_input_fields keys s) as [d' ->]. by intros H. Qed.

Lemma update_pulling_wait (C : Z) (l : list cell) (t : Z) (d : Z * Z)
    (s : Anteater) :
  pulling C l t true d s → t + 1 < C →
  ∃ s', update s = Ok s' ∧ pulling C l (t + 1) true d s'.
Proof.
  intros (HC & He & Hr & Hl & Ht & Hd) Hlt.
  unfold update. rewrite extend_phase_not_extending by done. simpl.
  unfold retract_phase. rewrite Hr. simpl. rewrite HC, Ht.
  destruct (Z.leb_spec C (t + 1)); [lia|].
  eexists. split; [done|]. unfold pulling. simpl. by rewrite He, Hr, Hl, Hd, HC.
Qed.

Lemma update_pulling_pop (C : Z) (c c' : cell) (l : list cell) (t : Z)
    (d : Z * Z) (s : Anteater) :
  pulling C (c :: c' :: l) t true d s → C ≤ t + 1 →
  ∃ s', update s = Ok s' ∧ pulling C (c' :: l) 0 true d s'.
Proof.
  intros (HC & He & Hr & Hl & Ht & Hd) Hlt.
  unfold update. rewrite extend_phase_not_extending by done. simpl.
  unfold retract_phase. rewrite Hr. simpl. rewrite HC, Ht, Hl.
  destruct (Z.leb_spec C (t + 1)); [|lia]. cbn [length popleft].
  destruct (Z.ltb_spec 1 (Z.of_nat (S (S (length l))))); [|lia].
  eexists. split; [done|]. unfold pulling. simpl. by rewrite He, Hr, Hd, HC.
Qed.

Lemma update_pulling_done (C : Z) (c : cell) (t : Z) (d : Z * Z)
    (s : Anteater) :
  pulling C [c] t true d s → C ≤ t + 1 →
  ∃ s', update s = Ok s' ∧ pulling C [c] 0 false (0, 1) s'.
Proof.
  intros (HC & He & Hr & Hl & Ht & Hd) Hlt.
  unfold update. rewrite extend_phase_not_extending by done. simpl.
  unfold retract_phase. rewrite Hr. simpl. rewrite HC, Ht, Hl.
  destruct (Z.leb_spec C (t + 1)); [|lia]. simpl.
  eexists. split; [done|]. unfold pulling. simpl. by rewrite He, Hl, HC.
Qed.

Lemma update_pulling_idle (C : Z) (l : list cell) (t : Z) (d : Z * Z)
    (s : Anteater) :
  pulling C l t false d s → update s = Ok s.
Proof.
  intros (HC & He & Hr & Hl & Ht & Hd).
  unfold update. rewrite extend_phase_not_extending by done. simpl.
  unfold retract_phase. by rewrite Hr.
Qed.

Lemma held_cons (k : Keys) (ks : list Keys) :
  held (k :: ks) = Input k :: Tick :: held ks.
Proof. reflexivity. Qed.

Lemma held_pulling_idle (C : Z) (l : list cell) (t : Z) (d : Z * Z)
    (ks : list Keys) (s : Anteater) :
  pulling C l t false d s →
  ∃ s', run (held ks) s = Ok s' ∧ pulling C l t false d s'.
Proof.
  revert s. induction ks as [|k ks IH]; intros s Hp; [by exists s|].
  rewrite held_cons. cbn [run step]. simpl.
  apply (handle_input_pulling k) in Hp.
  rewrite (update_pulling_idle _ _ _ _ _ Hp). simpl. by apply IH.
Qed.

Lemma held_pulling_wait (C : Z) (l : list cell) (t : Z) (d : Z * Z)
    (ks : list Keys) (s : Anteater) :
  pulling C l t true d s → t + Z.of_nat (length ks) < C →
  ∃ s', run (held ks) s = Ok s' ∧
        pulling C l (t + Z.of_nat (length ks)) true d s'.
Proof.
  revert s t. induction ks as [|k ks IH]; intros s t Hp Hlt.
  { exists s. split; [done|]. simpl. by rewrite Z.add_0_r. }
  rewrite held_cons. cbn [run step]. simpl.
  apply (handle_input_pulling k) in Hp.
  cbn [length] in Hlt.
  destruct (update_pulling_wait _ _ _ _ _ Hp) as (s1 & -> & Hp1); [lia|].
  simpl. destruct (IH s1 (t + 1) Hp1) as (s' & Hs' & Hp'); [lia|].
  exists s'. split; [done|].
  replace (t + Z.of_nat (S (length ks)))
    with (t + 1 + Z.of_nat (length ks)) by lia.
  done.
Qed.

Lemma held_app (ks1 ks2 : list Keys) :
  held (ks1 ++ ks2) = held ks1 ++ held ks2.
Proof. unfold held. by rewrite fmap_app, concat_app. Qed.

(** One cell's worth of a retraction: the frames up to and with the one
    whose [update] finds the cooldown expired. *)
Lemma held_pulling_fire (C : Z) (l : list cell) (t : Z) (d : Z * Z)
    (ks : list Keys) (s : Anteater) :
  pulling C l t true d s → 0 ≤ t < C →
  Z.of_nat (length ks) = C - t →
  ∃ s', run (held ks) s = Ok s' ∧
        match l with
        | _ :: (_ :: _) as l' => pulling C l' 0 true d s'
        | _ => pulling C l 0 false (0, 1) s' ∨ l = []
        end.
Proof.
  intros Hp Ht Hlen.
  destruct (exists_last (l:=ks)) as (ks0 & k & ->).
  { intros ->. simpl in Hlen. lia. }
  rewrite length_app in Hlen. simpl in Hlen.
  rewrite held_app, run_app.
  destruct (held_pulling_wait C l t d ks0 s Hp) as (s1 & -> & Hp1); [lia|].
  simpl. change (held [k]) with [Input k; Tick]. cbn [run step]. simpl.
  apply (handle_input_pulling k) in Hp1.
  destruct l as [|c [|c' l]].
  - destruct Hp1 as (HC & He & Hr & Hl & Htm & Hd).
    unfold update. rewrite extend_phase_not_extending by done. simpl.
    unfold retract_phase. rewrite Hr. simpl. rewrite HC, Htm, Hl.
    destruct (Z.leb_spec C (t + Z.of_nat (length ks0) + 1)); [|lia]. simpl.
    eexists. split; [done|]. by right.
  - destruct (update_pulling_done _ _ _ _ _ Hp1) as (s' & -> & Hp'); [lia|].
    simpl. exists s'. split; [done|]. by left.
  - destruct (update_pulling_pop _ _ _ _ _ _ _ Hp1) as (s' & -> & Hp'); [lia|].
    simpl. by exists s'.
Qed.

Lemma held_pulling_all (C : Z) (c0 : cell) (l : list cell) (t : Z)
    (d : Z * Z) (ks : list Keys) (s : Anteater) :
  pulling C l t true d s → 0 ≤ t < C → last l = Some c0 →
  Z.of_nat (length ks) = C * Z.of_nat (length l) - t →
  ∃ s', run (held ks) s = Ok s' ∧ pulling C [c0] 0 false (0, 1) s'.
Proof.
  revert t ks s. induction l as [|c l IH]; intros t ks s Hp Ht Hlast Hlen.
  { done. }
  destruct l as [|c' l].
  - injection Hlast as ->.
    destruct (held_pulling_fire C [c0] t d ks s Hp Ht) as (s' & Hs' & [Hp'|[=]]).
    { simpl in Hlen. lia. }
    by exists s'.
  - rewrite <- (take_drop (Z.to_nat (C - t)) ks).
    rewrite held_app, run_app.
    cbn [length] in Hlen.
    destruct (held_pulling_fire C (c :: c' :: l) t d
                (take (Z.to_nat (C - t)) ks) s Hp Ht) as (s1 & -> & Hp1).
    { rewrite length_take. lia. }
    simpl.
    apply (IH 0 (drop (Z.to_nat (C - t)) ks) s1 Hp1); [lia|done|].
    rewrite length_drop. cbn [length]. lia.
Qed.

(** X10. Once space is released the tongue always comes back: if the cooldown
    is [C] frames and the tongue has [n] cells, then after [C * n] frames,
    whatever arrow keys are held in them, the tongue is down to its last
    cell, the retraction is over and the direction is (0, 1) again. *)
Theorem retraction_completes (s : Anteater) (ks : list Keys) (c0 : cell) :
  retracting s = true →
  extending s = false →
  last (tongue s) = Some c0 →
  0 ≤ move_timer s < move_cooldown s →
  Z.of_nat (length ks) = move_cooldown s * Z.of_nat (length (tongue s)) →
  ∃ s' : Anteater,
    run (held ks) s = Ok s' ∧
    tongue s' = [c0] ∧
    retracting s' = false ∧
    extending s' = false ∧
    direction s' = (0, 1).
Proof.
  intros Hr He Hlast Ht Hlen.
  set (C := move_cooldown s) in *. set (t := move_timer s) in *.
  assert (pulling C (tongue s) t true (direction s) s) as Hp by done.
  assert (0 < Z.of_nat (length (tongue s))) as Hpos
    by (destruct (tongue s); [done|simpl; lia]).
  rewrite <- (take_drop (Z.to_nat (C * Z.of_nat (length (tongue s)) - t)) ks).
  rewrite held_app, run_app.
  destruct (held_pulling_all C c0 (tongue s) t (direction s)
              (take (Z.to_nat (C * Z.of_nat (length (tongue s)) - t)) ks) s)
    as (s1 & -> & Hp1); try done.
  { rewrite length_take. nia. }
  simpl.
  destruct (held_pulling_idle C [c0] 0 (0, 1)
              (drop (Z.to_nat (C * Z.of_nat (length (tongue s)) - t)) ks) s1 Hp1)
    as (s' & Hs' & (_ & He' & Hr' & Hl' & _ & Hd')).
  by exists s'.
Qed.

Lemma retraction_completes_witness :
  ∃ s' : Anteater,
    run (held (replicate 15 key_up)) retracting_state = Ok s' ∧
    tongue s' = [(20, 5)] ∧
    retracting s' = false ∧
    extending s' = false ∧
    direction s' = (0, 1).
Proof.
  apply (retraction_completes retracting_state (replicate 15 key_up) (20, 5));
    (reflexivity || (vm_compute; split; congruence)).
Defined.

(** ** The capture delay *)

Lemma update_loop_active (s : Anteater) :
  loop_active s = true →
  ∃ s', update s = Ok s' ∧ loop_active s' = true ∧
        loop_cells s' = loop_cells s ∧ loop_path s' = loop_path s ∧
        trapped_ants s' = trapped_ants s ∧
        capture_timer s' = capture_timer s.
Proof.
  intros Hact. unfold update, extend_phase. rewrite Hact, andb_false_r. simpl.
  unfold retract_phase. destruct (retracting s); [|by eauto 10].
  simpl. destruct (_ <=? _); [|by eauto 10].
  destruct (tongue s) as [|c [|c' t]]; simpl; try by eauto 10.
  destruct (1 <? _); by eauto 10.
Qed.

Lemma play_frame_countdown (f : Keys * list nat) (s : Anteater) :
  loop_active s = true → trapped_ants s ≠ [] →
  ∃ s', run (play_frame f) s = Ok s' ∧
        loop_path s' = loop_path s ∧
        if 0 <? capture_timer s then
          loop_active s' = true ∧ loop_cells s' = loop_cells s ∧
          trapped_ants s' = trapped_ants s ∧
          capture_timer s' = capture_timer s - 1
        else
          loop_active s' = false ∧ loop_cells s' = ∅ ∧ trapped_ants s' = [].
Proof.
  intros Hact Htr. unfold play_frame. cbn [run step].
  destruct (handle_input_fields f.1 s) as [d ->]. simpl.
  destruct (update_loop_active (set_next_direction d s) Hact)
    as (s1 & -> & Hact1 & Hc1 & Hp1 & Ht1 & Hn1).
  simpl in *. rewrite Hact1, Ht1.
  rewrite (bool_decide_eq_false_2 (trapped_ants s = [])) by done. simpl.
  rewrite Hact1, Ht1.
  rewrite (bool_decide_eq_false_2 (trapped_ants s = [])) by done. simpl.
  rewrite Hn1. destruct (0 <? capture_timer s); simpl;
    (eexists; split; [done|]); simpl; by split_and!.
Qed.

Lemma res_bind_Ok {A B : Type} (a : A) (f : A → res B) : (Ok a ≫= f) = f a.
Proof. reflexivity. Qed.

Lemma play_frames_app (fs1 fs2 : list (Keys * list nat)) :
  play_frames (fs1 ++ fs2) = play_frames fs1 ++ play_frames fs2.
Proof. unfold play_frames. by rewrite fmap_app, concat_app. Qed.

Lemma play_frames_cons (f : Keys * list nat) (fs : list (Keys * list nat)) :
  play_frames (f :: fs) = play_frame f ++ play_frames fs.
Proof. reflexivity. Qed.

Lemma play_frames_countdown (fs : list (Keys * list nat)) (s : Anteater) :
  loop_active s = true → trapped_ants s ≠ [] →
  Z.of_nat (length fs) ≤ capture_timer s →
  ∃ s', run (play_frames fs) s = Ok s' ∧
        loop_active s' = true ∧ loop_cells s' = loop_cells s ∧
        loop_path s' = loop_path s ∧ trapped_ants s' = trapped_ants s ∧
        capture_timer s' = capture_timer s - Z.of_nat (length fs).
Proof.
  revert s. induction fs as [|f fs IH]; intros s Hact Htr Hlen.
  { exists s. split; [done|]. split_and!; try done. simpl. lia. }
  rewrite play_frames_cons, run_app. cbn [length] in Hlen.
  destruct (play_frame_countdown f s Hact Htr) as (s1 & -> & Hp1 & H1).
  destruct (Z.ltb_spec 0 (capture_timer s)); [|lia].
  destruct H1 as (Hact1 & Hc1 & Ht1 & Hn1). simpl.
  destruct (IH s1) as (s' & Hs' & Hact' & Hc' & Hp' & Ht' & Hn');
    [done|by rewrite Ht1|lia|].
  exists s'. split; [done|].
  rewrite Hc', Hp', Ht', Hn'. split_and!; try done. cbn [length]. lia.
Qed.

(** X11. Ants trapped in a loop are taken when the capture timer has run out
    and not before: with [n >= 0] on the timer, the loop, its cells and
    its trapped ants stay as they are through the next [n] frames,
    whatever keys are held, and the frame after clears them.  (A loop
    starts with 60 on the timer.) *)
Theorem capture_after_delay (s : Anteater) (fs : list (Keys * list nat)) :
  loop_active s = true →
  trapped_ants s ≠ [] →
  0 ≤ capture_timer s →
  (Z.of_nat (length fs) ≤ capture_timer s →
     ∃ s' : Anteater,
       run (play_frames fs) s = Ok s' ∧
       loop_active s' = true ∧
       loop_cells s' = loop_cells s ∧
       loop_path s' = loop_path s ∧
       trapped_ants s' = trapped_ants s ∧
       capture_timer s' = capture_timer s - Z.of_nat (length fs)) ∧
  (Z.of_nat (length fs) = capture_timer s + 1 →
     ∃ s' : Anteater,
       run (play_frames fs) s = Ok s' ∧
       loop_active s' = false ∧
       loop_cells s' = ∅ ∧
       trapped_ants s' = []).
Proof.
  intros Hact Htr Hn. split; [by apply play_frames_countdown|].
  intros Hlen.
  destruct (exists_last (l:=fs)) as (fs0 & f & ->).
  { intros ->. simpl in Hlen. lia. }
  rewrite length_app in Hlen. simpl in Hlen.
  rewrite play_frames_app, run_app.
  destruct (play_frames_countdown fs0 s Hact Htr) as
    (s1 & -> & Hact1 & Hc1 & Hp1 & Ht1 & Hn1); [lia|].
  rewrite res_bind_Ok.
  change (play_frames [f]) with (play_frame f ++ []). rewrite app_nil_r.
  destruct (play_frame_countdown f s1 Hact1) as (s' & -> & _ & H');
    [by rewrite Ht1|].
  destruct (Z.ltb_spec 0 (capture_timer s1)); [lia|].
  by exists s'.
Qed.

Lemma capture_after_delay_witness :
  (Z.of_nat (length (replicate 61 (no_keys, [7%nat])))
     ≤ capture_timer (set_trapped_ants [7%nat] scenario_A_state) →
     ∃ s' : Anteater,
       run (play_frames (replicate 61 (no_keys, [7%nat])))
         (set_trapped_ants [7%nat] scenario_A_state) = Ok s' ∧
       loop_active s' = true ∧
       loop_cells s' = loop_cells (set_trapped_ants [7%nat] scenario_A_state) ∧
       loop_path s' = loop_path (set_trapped_ants [7%nat] scenario_A_state) ∧
       trapped_ants s' = trapped_ants (set_trapped_ants [7%nat] scenario_A_state) ∧
       capture_timer s'
         = capture_timer (set_trapped_ants [7%nat] scenario_A_state)
           - Z.of_nat (length (replicate 61 (no_keys, [7%nat])))) ∧
  (Z.of_nat (length (replicate 61 (no_keys, [7%nat])))
     = capture_timer (set_trapped_ants [7%nat] scenario_A_state) + 1 →
     ∃ s' : Anteater,
       run (play_frames (replicate 61 (no_keys, [7%nat])))
         (set_trapped_ants [7%nat] scenario_A_state) = Ok s' ∧
       loop_active s' = false ∧
       loop_cells s' = ∅ ∧
       trapped_ants s' = []).
Proof.
  apply (capture_after_delay (set_trapped_ants [7%nat] scenario_A_state)
           (replicate 61 (no_keys, [7%nat]))); [reflexivity|done|done].
Defined.

(** ** The traced polygon runs along boundary edges *)

Lemma walk_next_in (nexts : list point) (n0 : point) (prev : option point) :
  n0 ∈ nexts →
  match list_find (λ c, Some c ≠ prev) nexts with
  | Some (_, c) => c
  | None => n0
  end ∈ nexts.
Proof.
  intros Hn0. destruct (list_find _ nexts) as [[i c]|] eqn:Hfind; [|done].
  apply list_find_Some in Hfind as (Hi & _). by eapply list_elem_of_lookup_2.
Qed.

Lemma walk_chain (E : edge → Prop) (adj : list (point * list point))
    (start : point) (fuel : nat) (cur : point) (prev : option point)
    (poly : list point) :
  (∀ p q, q ∈ adj_get adj p → E (p, q)) →
  last poly = Some cur →
  Forall E (chain poly) →
  Forall E (chain (walk adj start fuel cur prev poly)).
Proof.
  intros Hadj. revert cur prev poly.
  induction fuel as [|fuel IH]; intros cur prev poly Hlast Hpoly; simpl; [done|].
  destruct (adj_get adj cur) as [|n0 ns] eqn:Hget; [done|].
  pose proof (walk_next_in (n0 :: ns) n0 prev) as Hin.
  match goal with |- context [decide (?n = start)] =>
    destruct (decide (n = start)); [done|]; apply IH
  end.
  - by rewrite last_snoc.
  - rewrite chain_snoc, Hlast. simpl. apply Forall_app. split; [done|].
    apply Forall_singleton, Hadj. rewrite Hget. apply Hin. by left.
Qed.

Lemma walk_length (adj : list (point * list point)) (start : point)
    (fuel : nat) (cur : point) (prev : option point) (poly : list point) :
  (length (walk adj start fuel cur prev poly) ≤ length poly + fuel)%nat.
Proof.
  revert cur prev poly.
  induction fuel as [|fuel IH]; intros cur prev poly; simpl; [lia|].
  destruct (adj_get adj cur) as [|n0 ns]; [lia|].
  match goal with |- context [decide (?n = start)] =>
    destruct (decide (n = start)); [lia|];
    specialize (IH n (Some cur) (poly ++ [n]))
  end.
  rewrite length_app in IH. simpl in IH. lia.
Qed.

Lemma min_key_spec (l : list point) (m : point) :
  min_key l = Ok m → m ∈ l ∧ ∀ p, p ∈ l → key_lt p m = false.
Proof.
  destruct l as [|q l]; [done|]. intros [= <-].
  destruct (min_from_spec q l) as (Hin & Hq & Hall). split.
  - destruct Hin as [->|?]; [left|by right].
  - intros p [->|Hp]%elem_of_cons; [done|by apply Hall].
Qed.

Lemma elem_of_adj_get_build (es : list edge) (p q : point) :
  q ∈ adj_get (build_adj es) p → (p, q) ∈ es.
Proof.
  rewrite adj_get_build. intros ([a b] & -> & He)%list_elem_of_fmap.
  apply list_elem_of_filter in He as [Ha He]. simpl in *. by subst.
Qed.

Lemma emitted_shape (gs : Z) (cells : gset cell) (c : cell) (e : edge) :
  e ∈ emitted gs cells c →
  e.1 ∈ corners gs c ∧ e.2 ∈ corners gs c ∧ unit_step gs e ∧ axis_aligned e.
Proof.
  destruct c as [gx gy]. unfold emitted, corners, unit_step, axis_aligned.
  repeat match goal with
         | |- context [absent cells ?n] => destruct (absent cells n)
         end; cbn [app];
    rewrite ?elem_of_cons, ?elem_of_nil;
    intros He; repeat destruct He as [->|He]; try done; cbn [fst snd];
    (split_and!; [| | |lia]);
    repeat first [ (left; solve [done | f_equal; lia]) | right ].
Qed.

Lemma elem_of_chain_or_head (l : list point) (p : point) :
  p ∈ l → head l = Some p ∨ ∃ e, e ∈ chain l ∧ e.2 = p.
Proof.
  intros Hp. destruct l as [|a l]; [by apply elem_of_nil in Hp|].
  apply elem_of_cons in Hp as [->|Hp]; [by left|]. right.
  revert a. induction l as [|b l IH]; intros a; [by apply elem_of_nil in Hp|].
  apply elem_of_cons in Hp as [->|Hp].
  - exists (a, b). split; [left|done].
  - destruct (IH Hp b) as (e & He & <-). exists e. split; [by right|done].
Qed.

Lemma trace_boundary_path `{SetOrder} (gs : Z) (path : list cell)
    (poly : list point) :
  trace_boundary gs path = Ok poly →
  (∀ e : edge, e ∈ chain poly →
     e ∈ boundary_edges gs (list_to_set path) ∧
     unit_step gs e ∧ axis_aligned e) ∧
  (∀ p : point, p ∈ poly → ∃ c : cell, c ∈ path ∧ p ∈ corners gs c) ∧
  (length poly ≤ 3 * size (boundary_edges gs (list_to_set path)) + 1)%nat ∧
  (path ≠ [] →
     ∃ start : point,
       head poly = Some start ∧
       (∃ b, (start, b) ∈ boundary_edges gs (list_to_set path)) ∧
       ∀ a b, (a, b) ∈ boundary_edges gs (list_to_set path) →
              key_lt a start = false).
Proof.
  unfold trace_boundary.
  set (edges := boundary_edges gs (list_to_set path)).
  assert (∀ e, e ∈ edges → ∃ c, c ∈ path ∧ e ∈ emitted gs (list_to_set path) c)
    as Hemit.
  { intros e (c & Hc & He)%elem_of_boundary_edges.
    exists c. split; [by apply elem_of_list_to_set in Hc|done]. }
  case_bool_decide as Hempty.
  { intros [= <-]. split_and!.
    - by intros e ?%elem_of_nil.
    - by intros p ?%elem_of_nil.
    - simpl. lia.
    - intros Hne. exfalso.
      apply (boundary_edges_nonempty gs (list_to_set path)); [|done].
      by apply list_to_set_nonempty. }
  destruct (min_key (build_adj (iter edges)).*1) as [start|] eqn:Hmin;
    simpl; [|done].
  intros [= <-].
  apply min_key_spec in Hmin as [Hstart Hleast].
  apply elem_of_build_adj_keys in Hstart as [b0 Hb0].
  apply elem_of_iter in Hb0.
  set (adj := build_adj (iter edges)) in *.
  assert (Forall (λ e, e ∈ edges)
            (chain (walk adj start (size edges * 3) start None [start])))
    as Hchain.
  { apply walk_chain; [|done|by apply Forall_nil].
    intros p q Hq. by apply elem_of_iter, elem_of_adj_get_build. }
  rewrite Forall_forall in Hchain.
  destruct (walk_extends adj start (size edges * 3) start None [start])
    as [rest Hrest].
  split_and!.
  - intros e He. specialize (Hchain e He). split; [done|].
    destruct (Hemit e Hchain) as (c & _ & Hc).
    by apply emitted_shape in Hc as (_ & _ & ? & ?).
  - intros p Hp. apply elem_of_chain_or_head in Hp as [Hp|(e & He & <-)].
    + rewrite Hrest in Hp. injection Hp as <-.
      destruct (Hemit _ Hb0) as (c & Hc & Hec). exists c. split; [done|].
      by apply emitted_shape in Hec as (? & _).
    + destruct (Hemit e (Hchain e He)) as (c & Hc & Hec). exists c.
      split; [done|]. by apply emitted_shape in Hec as (_ & ? & _).
  - pose proof (walk_length adj start (size edges * 3) start None [start]).
    simpl in *. lia.
  - intros _. exists start. rewrite Hrest. split; [done|].
    split; [by exists b0|].
    intros a b Hab. apply Hleast, elem_of_build_adj_keys.
    exists b. by apply elem_of_iter.
Qed.

(** X12. Whatever the set of cells and the iteration order of the sets, the
    polygon of the primary path is a walk along boundary edges: it starts
    at the corner that is least in (y, x) among the corners that boundary
    edges leave from; each of its points is joined to the next by a
    boundary edge, a horizontal or vertical step of one grid size; all
    its points are corners of cells of the loop; and it has no more than
    three times the number of boundary edges plus one points. *)
Theorem trace_follows_boundary `{SetOrder} (gs : Z) (path : list cell)
    (poly : list point) :
  trace_boundary gs path = Ok poly →
  (∀ e : edge, e ∈ chain poly →
     e ∈ boundary_edges gs (list_to_set path) ∧
     unit_step gs e ∧ axis_aligned e) ∧
  (∀ p : point, p ∈ poly → ∃ c : cell, c ∈ path ∧ p ∈ corners gs c) ∧
  (length poly ≤ 3 * size (boundary_edges gs (list_to_set path)) + 1)%nat ∧
  (path ≠ [] →
     ∃ start : point,
       head poly = Some start ∧
       (∃ b, (start, b) ∈ boundary_edges gs (list_to_set path)) ∧
       ∀ a b, (a, b) ∈ boundary_edges gs (list_to_set path) →
              key_lt a start = false).
Proof. apply trace_boundary_path. Qed.

Lemma trace_follows_boundary_witness :
  (∀ e : edge, e ∈ chain (block_perimeter 20 0 0) →
     e ∈ @boundary_edges elements_order 20
           (list_to_set (loop_path block_state)) ∧
     unit_step 20 e ∧ axis_aligned e) ∧
  (∀ p : point, p ∈ block_perimeter 20 0 0 →
     ∃ c : cell, c ∈ loop_path block_state ∧ p ∈ corners 20 c) ∧
  (length (block_perimeter 20 0 0)
     ≤ 3 * size (@boundary_edges elements_order 20
                   (list_to_set (loop_path block_state))) + 1)%nat ∧
  (loop_path block_state ≠ [] →
     ∃ start : point,
       head (block_perimeter 20 0 0) = Some start ∧
       (∃ b, (start, b) ∈ @boundary_edges elements_order 20
                            (list_to_set (loop_path block_state))) ∧
       ∀ a b, (a, b) ∈ @boundary_edges elements_order 20
                         (list_to_set (loop_path block_state)) →
              key_lt a start = false).
Proof.
  apply (@trace_follows_boundary elements_order 20 (loop_path block_state)
           (block_perimeter 20 0 0)).
  vm_compute. reflexivity.
Defined.

(** ** [point_in_polygon] returns *)

Lemma crosses_returns (px py : Z) (p1 p2 : point) :
  in_bound p1 → in_bound p2 → ∃ c, crosses px py p1 p2 = Ok c.
Proof.
  destruct p1 as [x1 y1], p2 as [x2 y2]. unfold in_bound.
  cbn [fst snd]. intros [Hx1 Hy1] [Hx2 Hy2]. unfold crosses.
  destruct (negb (Bool.eqb (py <? y1) (py <? y2))) eqn:Hspan; [|by eauto].
  assert (y1 ≠ y2) as Hne.
  { intros ->. by rewrite eqb_reflx in Hspan. }
  assert (- coordinate_bound ≤ py ≤ coordinate_bound) as Hpy.
  { destruct (Z.ltb_spec py y1), (Z.ltb_spec py y2); simpl in Hspan;
      try done; lia. }
  assert (denominator_finite (y2 - y1) = true) as Hden
    by (apply denominator_finite_range; lia).
  unfold denominator_finite in Hden.
  destruct (float_of_int (y2 - y1)) as [fd|]; [|done].
  simpl.
  destruct (Prim2SF (PrimFloat.add fd eps)) as [| | |s m e] eqn:HD; try done.
  assert (∃ fnum, float_of_int ((x2 - x1) * (py - y1)) = Ok fnum) as [fnum ->].
  { unfold float_of_int.
    assert (4 * coordinate_bound * coordinate_bound < float_overflow)
      by (vm_compute; reflexivity).
    destruct (Z.ltb_spec (Z.abs ((x2 - x1) * (py - y1))) float_overflow);
      [by eauto|].
    unfold coordinate_bound in *. nia. }
  simpl. unfold float_div.
  rewrite FloatAxioms.eqb_spec, HD, Prim2SF_zero. simpl.
  replace (SFeqb (S754_finite s m e) (S754_zero false)) with false
    by (by destruct s).
  rewrite res_bind_Ok.
  destruct (float_of_int_in_bound x1 Hx1) as [fx ->]. simpl. by eauto.
Qed.

Lemma cycle_edges_in_bound (polygon : list point) (e : edge) :
  Forall in_bound polygon → e ∈ cycle_edges polygon →
  in_bound e.1 ∧ in_bound e.2.
Proof.
  intros Hbound He. rewrite Forall_forall in Hbound. destruct e as [p1 p2].
  apply elem_of_cycle_edges in He as (j & Hp1 & Hp2). simpl. split.
  - apply Hbound. by eapply list_elem_of_lookup_2.
  - apply Hbound. apply list_elem_of_lookup_2 in Hp2.
    apply elem_of_app in Hp2 as [Hp2|Hp2].
    + destruct polygon; [by apply elem_of_nil in Hp2|]. by right.
    + apply elem_of_take in Hp2 as (i & Hi & _).
      by eapply list_elem_of_lookup_2.
Qed.

Lemma point_in_polygon_total (px py : Z) (polygon : list point) :
  Forall in_bound polygon →
  ∃ b : bool,
    point_in_polygon px py polygon = Ok b ∧
    b = if (length polygon <? 3)%nat then false
        else parity (crossed px py <$> cycle_edges polygon).
Proof.
  intros Hbound. rewrite point_in_polygon_edges.
  destruct (length polygon <? 3)%nat; [by exists false|].
  rewrite cross_parity_Ok.
  2:{ intros e He.
      destruct (cycle_edges_in_bound polygon e Hbound He).
      by apply crosses_returns. }
  eexists. split; [done|]. by destruct (parity _).
Qed.

(** X13. [point_in_polygon] raises nothing on polygons of the size of a
    screen: if the coordinates of the polygon are within 2^20 in
    magnitude, it returns a boolean for every integer query point (the
    denominator [y2 - y1 + 1e-9] is never zero, and no conversion to
    [float] overflows): [False] for fewer than three points, otherwise
    the parity of the number of edges, the closing edge included, whose
    test holds. *)
Theorem point_in_polygon_returns (px py : Z) (polygon : list point) :
  Forall in_bound polygon →
  ∃ b : bool,
    point_in_polygon px py polygon = Ok b ∧
    b = if (length polygon <? 3)%nat then false
        else parity (crossed px py <$> cycle_edges polygon).
Proof. apply point_in_polygon_total. Qed.

Lemma point_in_polygon_returns_witness :
  ∃ b : bool,
    point_in_polygon 1 0 slanted_triangle = Ok b ∧
    b = if (length slanted_triangle <? 3)%nat then false
        else parity (crossed 1 0 <$> cycle_edges slanted_triangle).
Proof.
  apply (point_in_polygon_returns 1 0 slanted_triangle).
  unfold slanted_triangle, in_bound, coordinate_bound.
  repeat (apply Forall_cons; split; [simpl; lia|]). apply Forall_nil_2.
Defined.

(** ** Horizontal and vertical edges are tested exactly *)

Lemma int_lt_float_exact (px x : Z) (fx : float) :
  - coordinate_bound ≤ x ≤ coordinate_bound →
  float_of_int x = Ok fx →
  int_lt_float px fx = (px <? x).
Proof.
  intros Hx Hfx.
  assert (coordinate_bound < 2 ^ 53) as Hb by (vm_compute; reflexivity).
  assert (2 ^ 53 < 2 ^ 62) as Hb' by (vm_compute; reflexivity).
  destruct (Z.lt_trichotomy x 0) as [Hneg|[->|Hpos]].
  - replace x with (- (- x)) in Hfx by lia.
    rewrite float_of_int_neg in Hfx by lia. injection Hfx as <-.
    destruct (Prim2SF_of_int (- x) ltac:(lia)) as (m & e & HP & He & Hv).
    unfold int_lt_float. rewrite FloatAxioms.opp_spec, HP. simpl.
    assert (0 < 2 ^ (- e)) by (apply Z.pow_pos_nonneg; lia).
    destruct (Z.leb_spec 0 e).
    + replace e with 0 in * by lia. simpl in Hv.
      apply eq_true_iff_eq. rewrite !Z.ltb_lt. lia.
    + apply eq_true_iff_eq. rewrite !Z.ltb_lt. nia.
  - rewrite float_of_int_0 in Hfx. injection Hfx as <-.
    unfold int_lt_float. by rewrite Prim2SF_zero.
  - rewrite float_of_int_nonneg in Hfx by lia. injection Hfx as <-.
    destruct (Prim2SF_of_int x ltac:(lia)) as (m & e & HP & He & Hv).
    unfold int_lt_float. rewrite HP.
    assert (0 < 2 ^ (- e)) by (apply Z.pow_pos_nonneg; lia).
    destruct (Z.leb_spec 0 e).
    + replace e with 0 in * by lia. simpl in Hv.
      apply eq_true_iff_eq. rewrite !Z.ltb_lt. lia.
    + apply eq_true_iff_eq. rewrite !Z.ltb_lt. nia.
Qed.

Lemma crosses_ray_hits (px py : Z) (e : edge) :
  in_bound e.1 → in_bound e.2 → axis_aligned e →
  crosses px py e.1 e.2 = Ok (ray_hits px py e).
Proof.
  destruct e as [[x1 y1] [x2 y2]]. unfold in_bound, axis_aligned, ray_hits.
  cbn [fst snd]. intros [Hx1 Hy1] [Hx2 Hy2] [ -> | -> ].
  - destruct (decide (y1 = y2)) as [->|Hne].
    { by rewrite crosses_horizontal, eqb_reflx. }
    destruct (float_of_int_in_bound x2 Hx2) as [fx Hfx].
    rewrite (crosses_vertical _ _ _ _ _ fx Hfx)
      by (apply denominator_finite_range; lia).
    by rewrite (int_lt_float_exact px x2 fx).
  - by rewrite crosses_horizontal, eqb_reflx.
Qed.

Lemma point_in_polygon_ray_hits (px py : Z) (polygon : list point) :
  Forall in_bound polygon →
  Forall axis_aligned (cycle_edges polygon) →
  point_in_polygon px py polygon =
    Ok (if (length polygon <? 3)%nat then false
        else parity (ray_hits px py <$> cycle_edges polygon)).
Proof.
  intros Hbound Haxis. rewrite point_in_polygon_edges.
  destruct (length polygon <? 3)%nat; [done|].
  rewrite Forall_forall in Haxis.
  assert (∀ e, e ∈ cycle_edges polygon →
            crosses px py e.1 e.2 = Ok (ray_hits px py e)) as Hexact.
  { intros e He. destruct (cycle_edges_in_bound polygon e Hbound He).
    apply crosses_ray_hits; [done..|]. by apply Haxis. }
  rewrite cross_parity_Ok by (intros e He; rewrite (Hexact e He); by eauto).
  f_equal. rewrite xorb_false_l. f_equal.
  apply list_fmap_ext. intros i e Hi. unfold crossed.
  by rewrite (Hexact e) by (by eapply list_elem_of_lookup_2).
Qed.

(** X14. On a polygon whose edges, the closing edge included, are all
    horizontal or vertical (coordinates within 2^20), the floats of
    [point_in_polygon] play no part: the answer is the parity of the
    number of vertical edges that span the row of the point, the upper
    end included and the lower one not, and lie strictly to its right. *)
Theorem point_in_polygon_axis_aligned (px py : Z) (polygon : list point) :
  Forall in_bound polygon →
  Forall axis_aligned (cycle_edges polygon) →
  point_in_polygon px py polygon =
    Ok (if (length polygon <? 3)%nat then false
        else parity (ray_hits px py <$> cycle_edges polygon)).
Proof. apply point_in_polygon_ray_hits. Qed.

Lemma point_in_polygon_axis_aligned_witness :
  point_in_polygon 30 30 (block_perimeter 20 0 0) =
    Ok (if (length (block_perimeter 20 0 0) <? 3)%nat then false
        else parity (ray_hits 30 30 <$> cycle_edges (block_perimeter 20 0 0))).
Proof.
  apply (point_in_polygon_axis_aligned 30 30 (block_perimeter 20 0 0)).
  - unfold block_perimeter, in_bound, coordinate_bound.
    repeat (apply Forall_cons; split; [simpl; lia|]). apply Forall_nil_2.
  - unfold axis_aligned.
    cbn [cycle_edges block_perimeter zip zip_with tail take app].
    repeat (apply Forall_cons; split; [simpl; lia|]). apply Forall_nil_2.
Defined.

(** ** [capture_ants_in_loop] *)

Lemma capture_loop_filter `{Pygame} (pts : list point) (ants : list Ant.t)
    (captured : list Ant.t) :
  (∀ ant, ant ∈ ants →
     ∃ b, point_in_polygon (centerx (Ant.rect ant)) (centery (Ant.rect ant)) pts
            = Ok b) →
  capture_loop pts ants captured
    = Ok (captured ++ filter (λ ant, inside pts ant) ants).
Proof.
  revert captured. induction ants as [|ant ants IH]; intros captured Hok.
  { simpl. by rewrite app_nil_r. }
  cbn [capture_loop].
  destruct (Hok ant ltac:(by left)) as [b Hb].
  assert (inside pts ant = b) as Hin by (unfold inside; by rewrite Hb).
  rewrite Hb, res_bind_Ok.
  rewrite IH by (intros a Ha; apply Hok; by right).
  f_equal. destruct b.
  - rewrite filter_cons_True by (by rewrite Hin). by rewrite <- app_assoc.
  - rewrite filter_cons_False by (rewrite Hin; exact id). done.
Qed.

Lemma corners_on_screen (c : cell) (p : point) :
  on_grid 20 c → p ∈ corners 20 c → 0 ≤ p.1 ≤ 800 ∧ 0 ≤ p.2 ≤ 600.
Proof.
  intros Hc%on_grid_20. destruct c as [gx gy]. unfold corners. simpl in Hc.
  rewrite !elem_of_cons, elem_of_nil.
  intros [->|[->|[->|[->|[]]]]]; simpl; lia.
Qed.

(** The polygon of a reachable state lies on the screen. *)
Lemma reachable_polygon_on_screen `{SetOrder} `{Libm} (s : Anteater)
    (pts : list point) :
  reachable s → get_loop_polygon_pixels s = Ok pts →
  ∀ p, p ∈ pts → 0 ≤ p.1 ≤ 800 ∧ 0 ≤ p.2 ≤ 600.
Proof.
  intros Hr Hpts p Hp.
  destruct (reachable_polygon s Hr) as [Hoff Hon].
  pose proof (reachable_play_inv s Hr) as [Htinv Hs].
  destruct Htinv as (Hg & _).
  destruct Hs as (_ & _ & _ & _ & _ & _ & _ & _ & Hshape).
  destruct (loop_active s) eqn:Hact.
  - destruct (Hon eq_refl) as (_ & Heq & _). rewrite Heq, Hg in Hpts.
    destruct (trace_boundary_path 20 (loop_path s) pts Hpts) as (_ & Hcorner & _).
    destruct (Hcorner p Hp) as (c & Hc & Hpc).
    destruct (Hshape eq_refl) as (_ & _ & _ & Hgrid & _).
    rewrite Forall_forall in Hgrid. apply (corners_on_screen c); [|done].
    by apply Hgrid.
  - destruct (Hoff eq_refl) as [_ Heq]. rewrite Heq in Hpts.
    injection Hpts as <-. by apply elem_of_nil in Hp.
Qed.

(** X15. In play [capture_ants_in_loop] raises nothing, whatever the ants:
    it returns the ants of [ants_list] whose centre [point_in_polygon]
    finds inside the polygon of [get_loop_polygon_pixels], in the order
    of [ants_list], and none when no loop is active.  (The polygon lies
    within the 800x600 screen.) *)
Theorem capture_in_play `{SetOrder} `{Libm} `{Pygame} (s : Anteater)
    (ants_list : list Ant.t) :
  reachable s →
  ∃ pts : list point,
    get_loop_polygon_pixels s = Ok pts ∧
    (∀ p, p ∈ pts → 0 ≤ p.1 ≤ 800 ∧ 0 ≤ p.2 ≤ 600) ∧
    (∀ ant, ∃ b,
       point_in_polygon (centerx (Ant.rect ant)) (centery (Ant.rect ant)) pts
         = Ok b) ∧
    capture_ants_in_loop s ants_list
      = Ok (filter (λ ant, inside pts ant) ants_list) ∧
    (loop_active s = false →
       pts = [] ∧ capture_ants_in_loop s ants_list = Ok []).
Proof.
  intros Hr.
  assert (∃ pts, get_loop_polygon_pixels s = Ok pts) as [pts Hpts].
  { destruct (reachable_polygon s Hr) as [Hoff Hon].
    destruct (loop_active s).
    - destruct (Hon eq_refl) as (_ & _ & p & rest & ?). by eauto.
    - destruct (Hoff eq_refl) as [_ ?]. by eauto. }
  pose proof (reachable_polygon_on_screen s pts Hr Hpts) as Hscreen.
  assert (Forall in_bound pts) as Hbound.
  { apply Forall_forall. intros p Hp. specialize (Hscreen p Hp).
    unfold in_bound, coordinate_bound. lia. }
  assert (∀ ant, ∃ b,
            point_in_polygon (centerx (Ant.rect ant)) (centery (Ant.rect ant)) pts
              = Ok b) as Hok.
  { intros ant.
    destruct (point_in_polygon_total (centerx (Ant.rect ant))
                (centery (Ant.rect ant)) pts Hbound) as (b & Hb & _).
    by eauto. }
  exists pts. split; [done|]. split; [done|]. split; [done|].
  assert (capture_ants_in_loop s ants_list
            = Ok (filter (λ ant, inside pts ant) ants_list)) as Hcap.
  { unfold capture_ants_in_loop. rewrite Hpts, res_bind_Ok.
    case_bool_decide as Hnil;
      [|by rewrite capture_loop_filter by (intros ant _; apply Hok)].
    subst pts. f_equal. symmetry. clear.
    induction ants_list as [|ant ants IH]; [done|].
    rewrite filter_cons_False; [done|]. exact id. }
  split; [done|]. intros Hact.
  destruct (reachable_polygon s Hr) as [Hoff _].
  destruct (Hoff Hact) as [_ Heq]. rewrite Heq in Hpts. injection Hpts as <-.
  split; [done|]. unfold capture_ants_in_loop. by rewrite Heq.
Qed.

Lemma capture_in_play_witness :
  reachable scenario_A_state ∧
  ∃ pts : list point,
    @get_loop_polygon_pixels elements_order any_libm scenario_A_state = Ok pts ∧
    (∀ p, p ∈ pts → 0 ≤ p.1 ≤ 800 ∧ 0 ≤ p.2 ≤ 600) ∧
    (∀ ant, ∃ b,
       point_in_polygon (@centerx any_pygame (Ant.rect ant))
         (@centery any_pygame (Ant.rect ant)) pts = Ok b) ∧
    @capture_ants_in_loop elements_order any_libm any_pygame
      scenario_A_state two_ants
      = Ok (filter (λ ant, @inside any_pygame pts ant) two_ants) ∧
    (loop_active scenario_A_state = false →
       pts = [] ∧
       @capture_ants_in_loop elements_order any_libm any_pygame
         scenario_A_state two_ants = Ok []).
Proof.
  split; [exact scenario_A_state_reachable|].
  apply (@capture_in_play elements_order any_libm any_pygame
           scenario_A_state two_ants scenario_A_state_reachable).
Defined.

(** ** The text boxes *)

Lemma handle_event_length `{Pygame} (e : Event) (box : TextInput.t) :
  one_char e →
  (length (TextInput.text box) ≤ 64)%nat →
  (length (TextInput.text (TextInput.handle_event e box)) ≤ 64)%nat.
Proof.
  intros He Hlen. destruct e as [pos|key unicode|]; simpl; [done| |done].
  destruct (TextInput.active box); [|done].
  case_bool_decide; simpl.
  { destruct (TextInput.text box) as [|c l] using rev_ind; [simpl; lia|].
    rewrite removelast_last. rewrite length_app in Hlen. simpl in Hlen. lia. }
  case_bool_decide; simpl; [done|].
  destruct (bool_decide (unicode ≠ [])); simpl; [|done].
  destruct (Nat.ltb_spec (length (TextInput.text box)) 64); simpl; [|done].
  rewrite length_app. simpl in He. lia.
Qed.

(** X16. A text box never holds more than 64 characters: if it starts with
    at most 64 and every key event types at most one character (the
    [unicode] of a pygame key event is one character or empty), then
    after any sequence of events its text still has at most 64. *)
Theorem text_input_at_most_64 `{Pygame} (events : list Event)
    (box : TextInput.t) :
  Forall one_char events →
  (length (TextInput.text box) ≤ 64)%nat →
  (length (TextInput.text (handle_events events box)) ≤ 64)%nat.
Proof.
  unfold handle_events. revert box.
  induction events as [|e events IH]; intros box Hev Hlen; [done|].
  apply Forall_cons in Hev as [He Hev]. simpl.
  apply IH; [done|]. by apply handle_event_length.
Qed.

Lemma text_input_at_most_64_witness :
  (length (TextInput.text
     (@handle_events any_pygame
        (replicate 70 (KEYDOWN 97 [97%N])) username_input_active)) ≤ 64)%nat.
Proof.
  apply (@text_input_at_most_64 any_pygame
           (replicate 70 (KEYDOWN 97 [97%N])) username_input_active).
  - apply Forall_replicate. simpl. lia.
  - simpl. lia.
Defined.

(** X17. Backspace undoes a keystroke: in an active box with fewer than 64
    characters, typing one character with a key other than backspace and
    return, and then pressing backspace, gives the box back as it was. *)
Theorem backspace_undoes_keystroke `{Pygame} (key : Z) (c : char)
    (unicode : str) (box : TextInput.t) :
  TextInput.active box = true →
  (length (TextInput.text box) < 64)%nat →
  key ≠ K_BACKSPACE →
  key ≠ K_RETURN →
  TextInput.text (TextInput.handle_event (KEYDOWN key [c]) box)
    = TextInput.text box ++ [c] ∧
  TextInput.handle_event (KEYDOWN K_BACKSPACE unicode)
    (TextInput.handle_event (KEYDOWN key [c]) box) = box.
Proof.
  intros Hact Hlen Hk1 Hk2. destruct box as [r t a h]. simpl in *. subst a.
  rewrite (bool_decide_eq_false_2 (key = K_BACKSPACE)) by done.
  rewrite (bool_decide_eq_false_2 (key = K_RETURN)) by done.
  destruct (Nat.ltb_spec (length t) 64); [|lia]. simpl.
  split; [done|].
  rewrite (bool_decide_eq_true_2 (K_BACKSPACE = K_BACKSPACE)) by done.
  unfold TextInput.set_text. simpl. by rewrite removelast_last.
Qed.

Lemma backspace_undoes_keystroke_witness :
  TextInput.text
    (@TextInput.handle_event any_pygame (KEYDOWN 97 [97%N]) username_input_active)
    = TextInput.text username_input_active ++ [97%N] ∧
  @TextInput.handle_event any_pygame (KEYDOWN (@K_BACKSPACE any_pygame) [])
    (@TextInput.handle_event any_pygame (KEYDOWN 97 [97%N]) username_input_active)
    = username_input_active.
Proof.
  apply (@backspace_undoes_keystroke any_pygame 97 97%N [] username_input_active);
    (reflexivity || (simpl; lia) || discriminate).
Defined.

(** X18. A box without the focus is left alone: if it is not active, events
    that are not a click inside its rectangle change nothing of it,
    however many they are. *)
Theorem text_input_needs_focus `{Pygame} (events : list Event)
    (box : TextInput.t) :
  TextInput.active box = false →
  Forall (no_click (TextInput.rect box)) events →
  handle_events events box = box.
Proof.
  intros Hact Hev. unfold handle_events.
  induction events as [|e events IH]; [done|].
  apply Forall_cons in Hev as [He Hev]. simpl.
  assert (TextInput.handle_event e box = box) as ->; [|by apply IH].
  destruct box as [r t a h]. simpl in *. subst a.
  destruct e as [pos|key unicode|]; simpl; [|done..].
  unfold TextInput.set_active. simpl. by rewrite He.
Qed.

Lemma text_input_needs_focus_witness :
  @handle_events any_pygame
    [KEYDOWN 97 [97%N]; MOUSEBUTTONDOWN (10, 10); KEYDOWN 8 []]
    (TextInput.new 250 200 300 40 [] false)
  = TextInput.new 250 200 300 40 [] false.
Proof.
  apply (@text_input_needs_focus any_pygame
           [KEYDOWN 97 [97%N]; MOUSEBUTTONDOWN (10, 10); KEYDOWN 8 []]
           (TextInput.new 250 200 300 40 [] false)).
  - reflexivity.
  - repeat (apply Forall_cons; split; [done|]). apply Forall_nil_2.
Defined.

(** ** The ray of [point_in_polygon] along a row of cells *)

Lemma parity_filter {A : Type} (f : A → bool) (l : list A) :
  parity (f <$> l) = Nat.odd (length (filter (λ x, f x) l)).
Proof.
  induction l as [|a l IH]; [done|].
  rewrite fmap_cons. unfold parity in *. cbn [foldr]. rewrite IH.
  destruct (f a) eqn:Hf.
  - rewrite filter_cons_True by (by rewrite Hf). cbn [length].
    by rewrite Nat.odd_succ, <- Nat.negb_odd.
  - rewrite filter_cons_False by (rewrite Hf; exact id). done.
Qed.

Lemma elem_of_changes (F : gset cell) (j k : Z) (n : nat) (k' : Z) :
  k' ∈ changes F j k n ↔
  k ≤ k' < k + Z.of_nat n ∧ in_row F j (k' - 1) ≠ in_row F j k'.
Proof.
  revert k. induction n as [|n IH]; intros k; cbn [changes].
  { rewrite elem_of_nil. lia. }
  rewrite elem_of_app, IH.
  destruct (xorb (in_row F j (k - 1)) (in_row F j k)) eqn:Hx.
  - rewrite list_elem_of_singleton. split.
    + intros [->|[? ?]]; [|split; [lia|done]].
      split; [lia|]. intros Heq. rewrite Heq in Hx. by rewrite xorb_nilpotent in Hx.
    + intros [Hk Hne]. destruct (decide (k' = k)) as [->|]; [by left|].
      right. split; [lia|done].
  - rewrite elem_of_nil. split.
    + intros [[]|[? ?]]. split; [lia|done].
    + intros [Hk Hne]. right. split; [|done].
      destruct (decide (k' = k)) as [->|]; [|lia].
      exfalso. apply Hne. by apply xorb_eq.
Qed.

Lemma NoDup_changes (F : gset cell) (j k : Z) (n : nat) :
  NoDup (changes F j k n).
Proof.
  revert k. induction n as [|n IH]; intros k; cbn [changes]; [constructor|].
  destruct (xorb _ _); [|apply IH]. simpl. apply NoDup_cons. split; [|apply IH].
  rewrite elem_of_changes. lia.
Qed.

Lemma odd_changes (F : gset cell) (j k : Z) (n : nat) :
  Nat.odd (length (changes F j k n))
    = xorb (in_row F j (k - 1)) (in_row F j (k + Z.of_nat n - 1)).
Proof.
  revert k. induction n as [|n IH]; intros k; cbn [changes].
  { replace (k + Z.of_nat 0 - 1) with (k - 1) by lia. by rewrite xorb_nilpotent. }
  rewrite length_app, Nat.odd_add, IH.
  replace (k + 1 + Z.of_nat n - 1) with (k + Z.of_nat (S n) - 1) by lia.
  replace (k + 1 - 1) with k by lia.
  by destruct (in_row F j (k - 1)), (in_row F j k),
    (in_row F j (k + Z.of_nat (S n) - 1)).
Qed.

Lemma cells_right_bound (F : gset cell) (i : Z) :
  ∃ n : nat, ∀ c, c ∈ F → c.1 < i + Z.of_nat n.
Proof.
  induction F as [|c X Hc [n IH]] using set_ind_L.
  { exists 0%nat. intros c Hc. by apply elem_of_empty in Hc. }
  exists (n + Z.to_nat (c.1 - i + 1))%nat. intros c' Hc'.
  apply elem_of_union in Hc' as [Hc'|Hc'].
  - apply elem_of_singleton in Hc' as ->. lia.
  - specialize (IH c' Hc'). lia.
Qed.

Lemma row_of_span (gs py b : Z) :
  0 < gs → (b * gs ≤ py < b * gs + gs ↔ b = py `div` gs).
Proof.
  intros Hgs. split.
  - intros Hb. apply (Z.div_unique py gs b (py - b * gs)); lia.
  - intros ->. pose proof (Z.div_mod py gs ltac:(lia)).
    pose proof (Z.mod_pos_bound py gs Hgs). lia.
Qed.

Lemma column_of_bound (gs px k : Z) :
  0 < gs → (px < k * gs ↔ px `div` gs < k).
Proof.
  intros Hgs. split.
  - intros Hk. apply Z.div_lt_upper_bound; lia.
  - intros Hk. pose proof (Z.div_mod px gs ltac:(lia)).
    pose proof (Z.mod_pos_bound px gs Hgs). nia.
Qed.

Lemma ray_hits_vertical (gs px py x b : Z) (up : bool) :
  0 < gs →
  ray_hits px py
    (if up then ((x, b * gs + gs), (x, b * gs)) else ((x, b * gs), (x, b * gs + gs)))
    = true ↔ b = py `div` gs ∧ px < x.
Proof.
  intros Hgs. rewrite <- row_of_span by done. unfold ray_hits.
  destruct up; cbn [fst snd];
    destruct (Z.ltb_spec py (b * gs)), (Z.ltb_spec py (b * gs + gs)),
      (Z.ltb_spec px x); simpl; split; try done; try lia.
  all: intros [? ?]; lia.
Qed.

Lemma elem_of_emitted (gs : Z) (F : gset cell) (gx gy : Z) (e : edge) :
  e ∈ emitted gs F (gx, gy) ↔
  (((gx, gy - 1) ∉ F) ∧
     e = ((gx * gs, gy * gs), (gx * gs + gs, gy * gs))) ∨
  (((gx + 1, gy) ∉ F) ∧
     e = ((gx * gs + gs, gy * gs), (gx * gs + gs, gy * gs + gs))) ∨
  (((gx, gy + 1) ∉ F) ∧
     e = ((gx * gs + gs, gy * gs + gs), (gx * gs, gy * gs + gs))) ∨
  (((gx - 1, gy) ∉ F) ∧
     e = ((gx * gs, gy * gs + gs), (gx * gs, gy * gs))).
Proof.
  unfold emitted, absent. rewrite !elem_of_app.
  repeat case_bool_decide;
    rewrite ?list_elem_of_singleton, ?elem_of_nil; tauto.
Qed.

(** The boundary edges that the ray from [(px, py)] hits are the sides
    between two cells of its row, to the right of its column, of which
    one is in the set and one is not. *)
Lemma ray_hits_boundary `{SetOrder} (gs : Z) (F : gset cell) (px py : Z)
    (e : edge) :
  0 < gs →
  (e ∈ boundary_edges gs F ∧ ray_hits px py e = true) ↔
  ∃ k, px `div` gs < k ∧
       in_row F (py `div` gs) (k - 1) ≠ in_row F (py `div` gs) k ∧
       e = side_edge gs F (py `div` gs) k.
Proof.
  intros Hgs. rewrite elem_of_boundary_edges. split.
  - intros [([a b] & Hc & He) Hhit].
    apply elem_of_emitted in He as [[_ ->]|[[Hn ->]|[[_ ->]|[Hn ->]]]].
    + unfold ray_hits in Hhit. cbn [fst snd] in Hhit.
      by rewrite eqb_reflx in Hhit.
    + apply (ray_hits_vertical gs px py (a * gs + gs) b false Hgs) in Hhit
        as [-> Hpx].
      exists (a + 1). unfold side_edge, in_row.
      replace (a + 1 - 1) with a by lia.
      rewrite (bool_decide_eq_true_2 _ Hc), (bool_decide_eq_false_2 _ Hn).
      split; [|done]. apply column_of_bound; [done|lia].
    + unfold ray_hits in Hhit. cbn [fst snd] in Hhit.
      by rewrite eqb_reflx in Hhit.
    + apply (ray_hits_vertical gs px py (a * gs) b true Hgs) in Hhit
        as [-> Hpx].
      exists a. unfold side_edge, in_row.
      rewrite (bool_decide_eq_true_2 _ Hc), (bool_decide_eq_false_2 _ Hn).
      split; [|done]. by apply column_of_bound.
  - intros (k & Hk & Hchg & ->). unfold side_edge, in_row in *.
    apply (column_of_bound gs px k Hgs) in Hk.
    case_bool_decide as Hl; case_bool_decide as Hr; try done.
    + split.
      * exists (k - 1, py `div` gs). split; [done|].
        apply elem_of_emitted. right. left.
        by replace (k - 1 + 1) with k by lia.
      * apply (ray_hits_vertical gs px py ((k - 1) * gs + gs) _ false Hgs).
        split; [done|lia].
    + split.
      * exists (k, py `div` gs). split; [done|].
        apply elem_of_emitted. by do 3 right.
      * by apply (ray_hits_vertical gs px py (k * gs) _ true Hgs).
Qed.

Lemma side_edge_inj (gs : Z) (F : gset cell) (j : Z) :
  0 < gs → Inj (=) (=) (side_edge gs F j).
Proof.
  intros Hgs k k' Heq. unfold side_edge in Heq.
  destruct (in_row F j (k - 1)), (in_row F j (k' - 1));
    injection Heq; intros; nia.
Qed.

Lemma parity_boundary `{SetOrder} (gs : Z) (F : gset cell) (px py : Z)
    (l : list edge) :
  0 < gs → NoDup l → (∀ e, e ∈ l ↔ e ∈ boundary_edges gs F) →
  parity (ray_hits px py <$> l) = in_row F (py `div` gs) (px `div` gs).
Proof.
  intros Hgs Hnd Hl. rewrite parity_filter.
  set (i := px `div` gs). set (j := py `div` gs).
  destruct (cells_right_bound F i) as [n Hn].
  assert (filter (λ e, ray_hits px py e) l
            ≡ₚ side_edge gs F j <$> changes F j (i + 1) n) as Hperm.
  { apply NoDup_Permutation.
    - by apply NoDup_filter.
    - apply NoDup_fmap_2; [by apply side_edge_inj|apply NoDup_changes].
    - intros e. rewrite list_elem_of_filter, list_elem_of_fmap, Hl.
      rewrite Is_true_true.
      rewrite (and_comm (ray_hits px py e = true)).
      rewrite (ray_hits_boundary gs F px py e Hgs). fold i j.
      split.
      + intros (k & Hk & Hchg & ->). exists k. split; [done|].
        apply elem_of_changes. split; [|done].
        split; [lia|].
        destruct (Z.lt_ge_cases k (i + 1 + Z.of_nat n)) as [|Hbig]; [done|].
        exfalso. apply Hchg. unfold in_row.
        rewrite !bool_decide_eq_false_2; [done|..];
          intros Hin; apply Hn in Hin; simpl in Hin; lia.
      + intros (k & -> & Hk). apply elem_of_changes in Hk as [Hk Hchg].
        exists k. split; [lia|]. by split. }
  rewrite Hperm, length_fmap, odd_changes.
  replace (i + 1 - 1) with i by lia.
  replace (in_row F j (i + 1 + Z.of_nat n - 1)) with false;
    [by rewrite xorb_false_r|].
  symmetry. unfold in_row. apply bool_decide_eq_false_2.
  intros Hin. apply Hn in Hin. simpl in Hin. lia.
Qed.

Lemma least_cell (f : cell → Z) (cells : gset cell) :
  cells ≠ ∅ → ∃ c, c ∈ cells ∧ ∀ c', c' ∈ cells → f c ≤ f c'.
Proof.
  induction cells as [|c X Hc IH] using set_ind_L; [done|]. intros _.
  destruct (decide (X = ∅)) as [->|Hne].
  - exists c. split; [apply elem_of_union; left; by apply elem_of_singleton|].
    intros c' Hc'. rewrite union_empty_r_L in Hc'.
    apply elem_of_singleton in Hc' as ->. lia.
  - destruct (IH Hne) as (m & Hm & Hmin).
    destruct (Z.le_gt_cases (f c) (f m)).
    + exists c. split; [apply elem_of_union; left; by apply elem_of_singleton|].
      intros c' Hc'.
      apply elem_of_union in Hc' as [Hc'|Hc'].
      * apply elem_of_singleton in Hc' as ->. lia.
      * specialize (Hmin c' Hc'). lia.
    + exists m. split; [by apply elem_of_union; right|]. intros c' Hc'.
      apply elem_of_union in Hc' as [Hc'|Hc'].
      * apply elem_of_singleton in Hc' as ->. lia.
      * by apply Hmin.
Qed.

(** A set of cells that is not empty has at least three boundary
    edges: one going right, one going left and one going up. *)
Lemma boundary_three_edges `{SetOrder} (gs : Z) (F : gset cell)
    (l : list edge) :
  gs ≠ 0 → F ≠ ∅ → (∀ e, e ∈ boundary_edges gs F → e ∈ l) →
  (3 ≤ length l)%nat.
Proof.
  intros Hgs Hne Hl.
  destruct (least_cell (λ c, c.2) F Hne) as ([a1 b1] & H1 & Hmin1).
  destruct (least_cell (λ c, - c.2) F Hne) as ([a2 b2] & H2 & Hmin2).
  destruct (least_cell (λ c, c.1) F Hne) as ([a3 b3] & H3 & Hmin3).
  set (e1 := ((a1 * gs, b1 * gs), (a1 * gs + gs, b1 * gs)) : edge).
  set (e2 := ((a2 * gs + gs, b2 * gs + gs), (a2 * gs, b2 * gs + gs)) : edge).
  set (e3 := ((a3 * gs, b3 * gs + gs), (a3 * gs, b3 * gs)) : edge).
  assert (e1 ∈ l) as He1.
  { apply Hl, elem_of_boundary_edges. exists (a1, b1). split; [done|].
    apply elem_of_emitted. left. split; [|done].
    intros Hin. specialize (Hmin1 _ Hin). simpl in Hmin1. lia. }
  assert (e2 ∈ l) as He2.
  { apply Hl, elem_of_boundary_edges. exists (a2, b2). split; [done|].
    apply elem_of_emitted. right. right. left. split; [|done].
    intros Hin. specialize (Hmin2 _ Hin). simpl in Hmin2. lia. }
  assert (e3 ∈ l) as He3.
  { apply Hl, elem_of_boundary_edges. exists (a3, b3). split; [done|].
    apply elem_of_emitted. do 3 right. split; [|done].
    intros Hin. specialize (Hmin3 _ Hin). simpl in Hmin3. lia. }
  assert (NoDup [e1; e2; e3]) as Hnd.
  { repeat (apply NoDup_cons; split); [| |by apply not_elem_of_nil|constructor].
    - rewrite !elem_of_cons, elem_of_nil. unfold e1, e2, e3.
      intros [[=]|[[=]|[]]]; lia.
    - rewrite !elem_of_cons, elem_of_nil. unfold e2, e3.
      intros [[=]|[]]; lia. }
  change 3%nat with (length [e1; e2; e3]).
  apply submseteq_length, NoDup_submseteq; [done|].
  intros e. rewrite !elem_of_cons, elem_of_nil.
  by intros [->|[->|[->|[]]]].
Qed.

Lemma point_in_polygon_outline `{SetOrder} (gs : Z) (F : gset cell)
    (polygon : list point) (px py : Z) :
  0 < gs →
  Forall in_bound polygon →
  NoDup (cycle_edges polygon) →
  (∀ e, e ∈ cycle_edges polygon ↔ e ∈ boundary_edges gs F) →
  point_in_polygon px py polygon
    = Ok (bool_decide ((px `div` gs, py `div` gs) ∈ F)).
Proof.
  intros Hgs Hbound Hnd Hedges.
  rewrite point_in_polygon_ray_hits; [|done|].
  2:{ apply Forall_forall. intros e He. apply Hedges in He.
      apply elem_of_boundary_edges in He as (c & _ & He).
      by apply emitted_shape in He as (_ & _ & _ & ?). }
  f_equal. destruct (Nat.ltb_spec (length polygon) 3) as [Hshort|_].
  - symmetry. apply bool_decide_eq_false_2. intros Hin.
    assert (F ≠ ∅) as Hne by (intros ->; by apply elem_of_empty in Hin).
    pose proof (boundary_three_edges gs F (cycle_edges polygon)
                  ltac:(lia) Hne ltac:(intros e; apply Hedges)) as Hlen.
    rewrite length_cycle_edges in Hlen. lia.
  - by apply parity_boundary.
Qed.

(** ** Tracing an outer boundary *)

(** If the boundary edges contain a simple closed chain of corners, no
    other boundary edge leaves a corner of the chain, and the first
    corner of the chain is the start corner, then the chain is what the
    walk returns (holes inside do not matter). *)
Lemma trace_boundary_outer `{SetOrder} (gs : Z) (path : list cell)
    (start : point) (rest : list point) :
  NoDup (start :: rest) →
  (∀ e, e ∈ cycle_edges (start :: rest) →
        e ∈ boundary_edges gs (list_to_set path)) →
  (∀ p q, p ∈ start :: rest →
          (p, q) ∈ boundary_edges gs (list_to_set path) →
          (p, q) ∈ cycle_edges (start :: rest)) →
  (∀ a b, (a, b) ∈ boundary_edges gs (list_to_set path) →
          key_lt a start = false) →
  trace_boundary gs path = Ok (start :: rest).
Proof.
  intros Hnd Hsub Hleave Hleast. unfold trace_boundary.
  set (edges := boundary_edges gs (list_to_set path)) in *.
  assert (∀ j p q, (start :: rest) !! j = Some p →
            (rest ++ [start]) !! j = Some q → (p, q) ∈ edges) as Hcyc.
  { intros j p q Hp Hq. apply Hsub. eapply list_elem_of_lookup_2.
    by apply cycle_edges_lookup. }
  assert (∃ q, (start, q) ∈ edges) as [q0 Hq0].
  { destruct (lookup_lt_is_Some_2 (rest ++ [start]) 0) as [q Hq].
    { rewrite length_app. simpl. lia. }
    exists q. by apply (Hcyc 0%nat). }
  rewrite bool_decide_eq_false_2.
  2:{ intros Hemp. rewrite Hemp in Hq0. by apply elem_of_empty in Hq0. }
  rewrite (min_key_least _ start).
  2:{ apply elem_of_build_adj_keys. exists q0. by apply elem_of_iter. }
  2:{ intros p [b Hb]%elem_of_build_adj_keys. apply elem_of_iter in Hb.
      by apply (Hleast p b). }
  simpl. f_equal. apply walk_cycle; [done| |].
  - intros j p q Hp Hq. apply adj_get_unique.
    + apply NoDup_iter.
    + apply elem_of_iter. by apply (Hcyc j).
    + intros b Hb. apply elem_of_iter in Hb.
      apply Hleave in Hb; [|by eapply list_elem_of_lookup_2].
      apply elem_of_cycle_edges in Hb as (i & Hi & Hb).
      assert (i = j) as -> by (by eapply NoDup_lookup).
      change (tail (start :: rest) ++ take 1 (start :: rest))
        with (rest ++ [start]) in Hb.
      congruence.
  - assert (length (cycle_edges (start :: rest)) ≤ size edges)%nat as Hlen.
    { rewrite <- length_iter. apply submseteq_length, NoDup_submseteq.
      - by apply cycle_edges_NoDup.
      - intros e He. by apply elem_of_iter, Hsub. }
    rewrite length_cycle_edges in Hlen. lia.
Qed.

(** ** The outline of a rectangle of cells *)

Lemma length_rect_perimeter (gs c r : Z) (w h : nat) :
  length (rect_perimeter gs c r w h) = (2 * (w + h))%nat.
Proof. unfold rect_perimeter. by rewrite length_fmap, length_seq. Qed.

Lemma lookup_rect_perimeter (gs c r : Z) (w h j : nat) :
  (j < 2 * (w + h))%nat →
  rect_perimeter gs c r w h !! j = Some (rect_corner gs c r w h j).
Proof.
  intros Hj. unfold rect_perimeter.
  by rewrite list_lookup_fmap, lookup_seq_lt.
Qed.

Lemma length_tail_pred {A : Type} (l : list A) :
  length (tail l) = Nat.pred (length l).
Proof. by destruct l. Qed.

Lemma lookup_rect_perimeter_next (gs c r : Z) (w h j : nat) :
  (j < 2 * (w + h))%nat →
  (tail (rect_perimeter gs c r w h) ++ take 1 (rect_perimeter gs c r w h)) !! j
    = Some (rect_corner gs c r w h (S j `mod` (2 * (w + h)))).
Proof.
  intros Hj. set (N := (2 * (w + h))%nat) in *.
  pose proof (length_rect_perimeter gs c r w h) as Hlen. fold N in Hlen.
  destruct (decide (S j = N)) as [Heq|Hne].
  - rewrite Heq, Nat.Div0.mod_same.
    rewrite lookup_app_r by (rewrite length_tail_pred; lia).
    rewrite length_tail_pred, Hlen.
    replace (j - Nat.pred N)%nat with 0%nat by lia.
    rewrite lookup_take_lt by lia. apply lookup_rect_perimeter. lia.
  - rewrite Nat.mod_small by lia.
    rewrite lookup_app_l by (rewrite length_tail_pred; lia).
    rewrite lookup_tail. apply lookup_rect_perimeter. lia.
Qed.

(** Equations between multiples of the grid size. *)
Ltac scaled :=
  match goal with
  | |- ?a * ?g = ?b * ?g => f_equal; lia
  | |- ?a * ?g + ?g = ?b * ?g + ?g => do 2 f_equal; lia
  | |- ?a * ?g + ?g = ?b * ?g => replace b with (a + 1) by lia; ring
  | |- ?a * ?g = ?b * ?g + ?g => replace a with (b + 1) by lia; ring
  end.

Lemma rect_side_ends (gs c r : Z) (w h j : nat) :
  (0 < w)%nat → (0 < h)%nat → (j < 2 * (w + h))%nat →
  rect_side gs c r w h j
    = (rect_corner gs c r w h j,
       rect_corner gs c r w h (S j `mod` (2 * (w + h)))).
Proof.
  intros Hw Hh Hj.
  destruct (decide (S j = 2 * (w + h))%nat) as [Heq|Hne].
  - rewrite Heq, Nat.Div0.mod_same.
    unfold rect_side, rect_side_cell, rect_corner.
    destruct (Nat.ltb_spec j w); [lia|].
    destruct (Nat.ltb_spec j (w + h)); [lia|].
    destruct (Nat.ltb_spec j (w + h + w)); [lia|].
    destruct (Nat.ltb_spec 0 w); [|lia].
    apply edge_eq; scaled.
  - rewrite Nat.mod_small by lia.
    unfold rect_side, rect_side_cell, rect_corner.
    destruct (Nat.ltb_spec j w), (Nat.ltb_spec j (w + h)),
      (Nat.ltb_spec j (w + h + w)), (Nat.ltb_spec (S j) w),
      (Nat.ltb_spec (S j) (w + h)), (Nat.ltb_spec (S j) (w + h + w));
      try lia; apply edge_eq; scaled.
Qed.

Lemma cycle_edges_rect_perimeter (gs c r : Z) (w h : nat) :
  (0 < w)%nat → (0 < h)%nat →
  cycle_edges (rect_perimeter gs c r w h)
    = rect_side gs c r w h <$> seq 0 (2 * (w + h)).
Proof.
  intros Hw Hh. apply (list_eq_same_length _ _ (2 * (w + h))).
  - by rewrite length_fmap, length_seq.
  - by rewrite length_cycle_edges, length_rect_perimeter.
  - intros j e e' Hj He He'.
    pose proof (cycle_edges_lookup _ j _ _
                  (lookup_rect_perimeter gs c r w h j Hj)
                  (lookup_rect_perimeter_next gs c r w h j Hj)) as Hc.
    assert ((rect_side gs c r w h <$> seq 0 (2 * (w + h))) !! j
              = Some (rect_side gs c r w h j)) as Hs.
    { by rewrite list_lookup_fmap, lookup_seq_lt by done. }
    rewrite <- rect_side_ends in Hc by done.
    assert (Some e = Some (rect_side gs c r w h j)) as [= ->]
      by (rewrite <- He; exact Hc).
    assert (Some e' = Some (rect_side gs c r w h j)) as [= ->]
      by (rewrite <- He'; exact Hs).
    done.
Qed.

Lemma elem_of_cycle_edges_rect (gs c r : Z) (w h : nat) (e : edge) :
  (0 < w)%nat → (0 < h)%nat →
  e ∈ cycle_edges (rect_perimeter gs c r w h) ↔
  ∃ j, (j < 2 * (w + h))%nat ∧ e = rect_side gs c r w h j.
Proof.
  intros Hw Hh. rewrite cycle_edges_rect_perimeter, list_elem_of_fmap by done.
  split.
  - intros (j & -> & Hj). apply elem_of_seq in Hj. exists j. split; [lia|done].
  - intros (j & Hj & ->). exists j. split; [done|]. apply elem_of_seq. lia.
Qed.

Lemma scaled_inj (gs a b : Z) : gs ≠ 0 → a * gs = b * gs → a = b.
Proof. intros Hgs Heq. by apply Z.mul_cancel_r in Heq. Qed.

Lemma scaled_inj_succ (gs a b : Z) : gs ≠ 0 → a * gs = b * gs + gs → a = b + 1.
Proof.
  intros Hgs Heq. apply (scaled_inj gs); [done|]. rewrite Heq. ring.
Qed.

Lemma rect_side_outer (gs c r : Z) (w h j : nat) :
  (0 < w)%nat → (0 < h)%nat → (j < 2 * (w + h))%nat →
  outer_side gs c r w h (rect_side gs c r w h j).
Proof.
  intros Hw Hh Hj. unfold outer_side, rect_side, rect_side_cell, in_rect.
  destruct (Nat.ltb_spec j w);
    [|destruct (Nat.ltb_spec j (w + h));
      [|destruct (Nat.ltb_spec j (w + h + w))]].
  - exists (c + Z.of_nat j), r. simpl. split; [lia|]. by left.
  - exists (c + Z.of_nat w - 1), (r + Z.of_nat (j - w)). simpl.
    split; [lia|]. right. by left.
  - exists (c + Z.of_nat w - 1 - Z.of_nat (j - (w + h))), (r + Z.of_nat h - 1).
    simpl. split; [lia|]. right. right. by left.
  - exists c, (r + Z.of_nat h - 1 - Z.of_nat (j - (w + h + w))). simpl.
    split; [lia|]. by do 3 right.
Qed.

(** Splits on the comparisons of naturals in the goal. *)
Ltac split_ltb :=
  repeat match goal with
         | |- context [(?x <? ?y)%nat] => destruct (Nat.ltb_spec x y); try lia
         end.

Ltac rect_side_at j :=
  exists j; split; [lia|];
  unfold rect_side, rect_side_cell;
  split_ltb;
  apply edge_eq; scaled.

Lemma outer_side_rect_side (gs c r : Z) (w h : nat) (e : edge) :
  outer_side gs c r w h e →
  ∃ j, (j < 2 * (w + h))%nat ∧ e = rect_side gs c r w h j.
Proof.
  intros (a & b & [Ha Hb] & Hside). simpl in Ha, Hb.
  destruct Hside as [[-> ->]|[[-> ->]|[[-> ->]|[-> ->]]]].
  - rect_side_at (Z.to_nat (a - c)).
  - rect_side_at (w + Z.to_nat (b - r))%nat.
  - rect_side_at (w + h + Z.to_nat (c + Z.of_nat w - 1 - a))%nat.
  - rect_side_at (w + h + w + Z.to_nat (r + Z.of_nat h - 1 - b))%nat.
Qed.

Lemma elem_of_cycle_edges_outer (gs c r : Z) (w h : nat) (e : edge) :
  (0 < w)%nat → (0 < h)%nat →
  e ∈ cycle_edges (rect_perimeter gs c r w h) ↔ outer_side gs c r w h e.
Proof.
  intros Hw Hh. rewrite elem_of_cycle_edges_rect by done. split.
  - intros (j & Hj & ->). by apply rect_side_outer.
  - apply outer_side_rect_side.
Qed.

(** The outer sides are boundary edges of every set of cells of the
    rectangle that has all the cells of its border. *)
Lemma outer_side_boundary `{SetOrder} (gs c r : Z) (w h : nat) (F : gset cell)
    (e : edge) :
  (∀ x, on_border c r w h x → x ∈ F) →
  (∀ x, x ∈ F → in_rect c r w h x) →
  outer_side gs c r w h e → e ∈ boundary_edges gs F.
Proof.
  intros Hborder Hsub (a & b & Hin & Hside).
  apply elem_of_boundary_edges. exists (a, b).
  pose proof Hin as [Ha Hb]. simpl in Ha, Hb. split.
  - apply Hborder. split; [done|]. simpl.
    destruct Hside as [[? _]|[[? _]|[[? _]|[? _]]]]; lia.
  - apply elem_of_emitted.
    destruct Hside as [[-> ->]|[[-> ->]|[[-> ->]|[-> ->]]]];
      [left|right; left|right; right; left|do 3 right];
      (split; [|done]); intros [Hx Hy]%Hsub; simpl in Hx, Hy; lia.
Qed.

(** The corners of the outline, in grid units. *)
Lemma rect_corner_outline (gs c r : Z) (w h j : nat) :
  (j < 2 * (w + h))%nat →
  ∃ X Y, rect_corner gs c r w h j = (X * gs, Y * gs) ∧
         c ≤ X ≤ c + Z.of_nat w ∧ r ≤ Y ≤ r + Z.of_nat h ∧
         (X = c ∨ X = c + Z.of_nat w ∨ Y = r ∨ Y = r + Z.of_nat h).
Proof.
  intros Hj. unfold rect_corner.
  split_ltb; (eexists _, _; split; [reflexivity|]; lia).
Qed.

Lemma elem_of_rect_perimeter (gs c r : Z) (w h : nat) (p : point) :
  p ∈ rect_perimeter gs c r w h →
  ∃ X Y, p = (X * gs, Y * gs) ∧
         c ≤ X ≤ c + Z.of_nat w ∧ r ≤ Y ≤ r + Z.of_nat h ∧
         (X = c ∨ X = c + Z.of_nat w ∨ Y = r ∨ Y = r + Z.of_nat h).
Proof.
  unfold rect_perimeter. intros (j & -> & Hj%elem_of_seq)%list_elem_of_fmap.
  apply rect_corner_outline. lia.
Qed.

(** A boundary edge that leaves a corner of the outline is an outer
    side: the cells of the border keep the inner edges away from it. *)
Lemma boundary_leaving_outline `{SetOrder} (gs c r : Z) (w h : nat)
    (F : gset cell) (p q : point) :
  gs ≠ 0 →
  (∀ x, on_border c r w h x → x ∈ F) →
  (∀ x, x ∈ F → in_rect c r w h x) →
  p ∈ rect_perimeter gs c r w h →
  (p, q) ∈ boundary_edges gs F →
  outer_side gs c r w h (p, q).
Proof.
  intros Hgs Hborder Hsub (X & Y & -> & HX & HY & Hline)%elem_of_rect_perimeter
    ([a b] & Hc & He)%elem_of_boundary_edges.
  pose proof (Hsub _ Hc) as Hin. pose proof Hin as [Ha Hb]. simpl in Ha, Hb.
  exists a, b. split; [done|].
  apply elem_of_emitted in He as [[Hn He]|[[Hn He]|[[Hn He]|[Hn He]]]];
    injection He as HpX HpY ->; rewrite HpX, HpY.
  - apply scaled_inj in HpX, HpY; [|done..].
    left. split; [|done].
    destruct (decide (b = r)) as [|Hne]; [done|]. exfalso. apply Hn, Hborder.
    unfold on_border, in_rect. simpl. lia.
  - apply scaled_inj_succ in HpX; [|done]. apply scaled_inj in HpY; [|done].
    right. left. split; [|done].
    destruct (decide (a = c + Z.of_nat w - 1)) as [|Hne]; [done|].
    exfalso. apply Hn, Hborder. unfold on_border, in_rect. simpl. lia.
  - apply scaled_inj_succ in HpX, HpY; [|done..].
    right. right. left. split; [|done].
    destruct (decide (b = r + Z.of_nat h - 1)) as [|Hne]; [done|].
    exfalso. apply Hn, Hborder. unfold on_border, in_rect. simpl. lia.
  - apply scaled_inj in HpX; [|done]. apply scaled_inj_succ in HpY; [|done].
    do 3 right. split; [|done].
    destruct (decide (a = c)) as [|Hne]; [done|].
    exfalso. apply Hn, Hborder. unfold on_border, in_rect. simpl. lia.
Qed.

(** No boundary edge of cells of the rectangle starts before its
    top-left corner in the order of the start corner. *)
Lemma rect_start_least `{SetOrder} (gs c r : Z) (w h : nat) (F : gset cell)
    (a b : point) :
  0 < gs →
  (∀ x, x ∈ F → in_rect c r w h x) →
  (a, b) ∈ boundary_edges gs F →
  key_lt a (c * gs, r * gs) = false.
Proof.
  intros Hgs Hsub ([x y] & [Hx Hy]%Hsub & He)%elem_of_boundary_edges.
  simpl in Hx, Hy.
  assert (c * gs ≤ x * gs) by nia. assert (r * gs ≤ y * gs) by nia.
  unfold key_lt.
  apply elem_of_emitted in He as [[_ He]|[[_ He]|[[_ He]|[_ He]]]];
    apply pair_equal_spec in He as [-> _]; simpl;
    destruct (Z.ltb_spec (y * gs) (r * gs)), (Z.ltb_spec (y * gs + gs) (r * gs)),
      (Z.eqb_spec (y * gs) (r * gs)), (Z.eqb_spec (y * gs + gs) (r * gs)),
      (Z.ltb_spec (x * gs) (c * gs)), (Z.ltb_spec (x * gs + gs) (c * gs));
    simpl; try done; lia.
Qed.

Lemma NoDup_rect_perimeter (gs c r : Z) (w h : nat) :
  gs ≠ 0 → (0 < w)%nat → (0 < h)%nat → NoDup (rect_perimeter gs c r w h).
Proof.
  intros Hgs Hw Hh. unfold rect_perimeter.
  apply NoDup_fmap_2_strong; [|apply NoDup_seq].
  intros i j Hi%elem_of_seq Hj%elem_of_seq. unfold rect_corner.
  split_ltb; intros [HX HY]%pair_equal_spec;
    apply scaled_inj in HX, HY; try done; lia.
Qed.

Lemma rect_perimeter_start (gs c r : Z) (w h : nat) :
  (0 < w)%nat →
  rect_perimeter gs c r w h = (c * gs, r * gs) :: tail (rect_perimeter gs c r w h).
Proof.
  intros Hw. unfold rect_perimeter.
  destruct (2 * (w + h))%nat as [|n] eqn:Hn; [lia|].
  cbn [seq fmap list_fmap tail]. f_equal. unfold rect_corner.
  destruct (Nat.ltb_spec 0 w); [|lia]. f_equal. f_equal. lia.
Qed.

(** A loop around a rectangle of cells traces to the outline of the
    rectangle, whatever it has of the cells inside. *)
Lemma rect_trace `{SetOrder} (gs c r : Z) (w h : nat) (path : list cell) :
  0 < gs → (0 < w)%nat → (0 < h)%nat →
  (∀ x, on_border c r w h x → x ∈ path) →
  (∀ x, x ∈ path → in_rect c r w h x) →
  trace_boundary gs path = Ok (rect_perimeter gs c r w h).
Proof.
  intros Hgs Hw Hh Hborder Hsub.
  assert (∀ x, on_border c r w h x → x ∈ (list_to_set path : gset cell))
    as Hborder' by (intros x Hx; by apply elem_of_list_to_set, Hborder).
  assert (∀ x, x ∈ (list_to_set path : gset cell) → in_rect c r w h x)
    as Hsub' by (intros x Hx%elem_of_list_to_set; by apply Hsub).
  pose proof (NoDup_rect_perimeter gs c r w h ltac:(lia) Hw Hh) as Hnd.
  assert (∀ e, e ∈ cycle_edges (rect_perimeter gs c r w h) →
               e ∈ boundary_edges gs (list_to_set path)) as Hin.
  { intros e He%elem_of_cycle_edges_outer; [|done..].
    by apply (outer_side_boundary gs c r w h). }
  assert (∀ p q, p ∈ rect_perimeter gs c r w h →
                 (p, q) ∈ boundary_edges gs (list_to_set path) →
                 (p, q) ∈ cycle_edges (rect_perimeter gs c r w h)) as Hout.
  { intros p q Hp Hpq. apply elem_of_cycle_edges_outer; [done..|].
    apply (boundary_leaving_outline gs c r w h (list_to_set path));
      [lia|done..]. }
  rewrite (rect_perimeter_start gs c r w h Hw) in Hnd, Hin, Hout |- *.
  apply trace_boundary_outer; [done..|].
  intros a b Hab. by apply (rect_start_least gs c r w h (list_to_set path) a b).
Qed.

Lemma elem_of_rect_cells (c r : Z) (w h : nat) (x : cell) :
  x ∈ rect_cells c r w h ↔ in_rect c r w h x.
Proof.
  unfold rect_cells, in_rect. rewrite elem_of_list_to_set, list_elem_of_bind.
  destruct x as [a b]. simpl. split.
  - intros (a' & (b' & [= -> ->] & Hb)%list_elem_of_fmap & Ha).
    apply elem_of_seqZ in Ha, Hb. lia.
  - intros [Ha Hb]. exists a. split; [|apply elem_of_seqZ; lia].
    apply list_elem_of_fmap. exists b. split; [done|]. apply elem_of_seqZ. lia.
Qed.

(** The boundary edges of the full rectangle are its outer sides. *)
Lemma rect_boundary_edges `{SetOrder} (gs c r : Z) (w h : nat) (e : edge) :
  e ∈ boundary_edges gs (rect_cells c r w h) ↔ outer_side gs c r w h e.
Proof.
  split.
  - intros ([a b] & Hc%elem_of_rect_cells & He)%elem_of_boundary_edges.
    pose proof Hc as [Ha Hb]. simpl in Ha, Hb.
    exists a, b. split; [done|].
    apply elem_of_emitted in He as [[Hn ->]|[[Hn ->]|[[Hn ->]|[Hn ->]]]];
      rewrite elem_of_rect_cells in Hn; unfold in_rect in Hn; simpl in Hn;
      [left|right; left|right; right; left|do 3 right];
      (split; [lia|done]).
  - apply outer_side_boundary.
    + intros x [Hx _]. by apply elem_of_rect_cells.
    + intros x Hx. by apply elem_of_rect_cells.
Qed.

Lemma in_rect_pixels (gs c r : Z) (w h : nat) (px py : Z) :
  0 < gs →
  in_rect c r w h (px `div` gs, py `div` gs) ↔ in_pixels gs c r w h px py.
Proof.
  intros Hgs. unfold in_rect, in_pixels. simpl.
  pose proof (column_of_bound gs px (c + Z.of_nat w) Hgs).
  pose proof (column_of_bound gs px c Hgs).
  pose proof (column_of_bound gs py (r + Z.of_nat h) Hgs).
  pose proof (column_of_bound gs py r Hgs).
  lia.
Qed.

Lemma point_in_polygon_rect (gs c r : Z) (w h : nat) (px py : Z) :
  0 < gs → (0 < w)%nat → (0 < h)%nat →
  Forall in_bound (rect_perimeter gs c r w h) →
  point_in_polygon px py (rect_perimeter gs c r w h)
    = Ok (bool_decide (in_pixels gs c r w h px py)).
Proof.
  intros Hgs Hw Hh Hbound.
  rewrite (@point_in_polygon_outline elements_order gs (rect_cells c r w h));
    [|done|done| |].
  - f_equal. apply bool_decide_ext.
    rewrite elem_of_rect_cells. by apply in_rect_pixels.
  - apply cycle_edges_NoDup, NoDup_rect_perimeter; [lia|done..].
  - intros e. rewrite rect_boundary_edges. by apply elem_of_cycle_edges_outer.
Qed.

Lemma rect_perimeter_in_bound (gs c r : Z) (w h : nat) :
  0 < gs →
  in_bound (c * gs, r * gs) →
  in_bound ((c + Z.of_nat w) * gs, (r + Z.of_nat h) * gs) →
  Forall in_bound (rect_perimeter gs c r w h).
Proof.
  intros Hgs [Hx0 Hy0] [Hx1 Hy1]. simpl in Hx0, Hy0, Hx1, Hy1.
  apply Forall_forall.
  intros p (X & Y & -> & HX & HY & _)%elem_of_rect_perimeter.
  unfold in_bound. simpl.
  assert (c * gs ≤ X * gs ≤ (c + Z.of_nat w) * gs) by nia.
  assert (r * gs ≤ Y * gs ≤ (r + Z.of_nat h) * gs) by nia.
  lia.
Qed.

(** X19. For a polygon whose edges are the boundary edges of a set of cells,
    each one once, in whatever order and from whatever corner,
    [point_in_polygon] raises nothing and tells whether the cell of the
    pixel is one of the set: the float arithmetic of the ray test never
    puts a pixel on the wrong side. *)
Theorem point_in_polygon_cells `{SetOrder} (gs : Z) (F : gset cell)
    (polygon : list point) (px py : Z) :
  0 < gs →
  Forall in_bound polygon →
  NoDup (cycle_edges polygon) →
  (∀ e, e ∈ cycle_edges polygon ↔ e ∈ boundary_edges gs F) →
  point_in_polygon px py polygon
    = Ok (bool_decide ((px `div` gs, py `div` gs) ∈ F)).
Proof. apply point_in_polygon_outline. Qed.

Lemma point_in_polygon_cells_witness :
  point_in_polygon 350 210 (rect_perimeter 20 15 5 6 11)
    = Ok (bool_decide ((350 `div` 20, 210 `div` 20) ∈ rect_cells 15 5 6 11)).
Proof.
  apply (@point_in_polygon_cells elements_order 20 (rect_cells 15 5 6 11)
           (rect_perimeter 20 15 5 6 11) 350 210).
  - lia.
  - apply rect_perimeter_in_bound; [lia|..];
      unfold in_bound, coordinate_bound; simpl; lia.
  - apply cycle_edges_NoDup, NoDup_rect_perimeter; lia.
  - intros e. rewrite rect_boundary_edges.
    apply elem_of_cycle_edges_outer; lia.
Defined.

(** X20. A loop around a rectangle of [w] by [h] cells (its path has every
    cell of the border of the rectangle and no cell outside it; cells
    inside may or may not be in it) traces to the outline of the
    rectangle: [2 * (w + h)] distinct corners, one per cell side,
    clockwise on screen from the top-left corner, whatever the order in
    which the sets are iterated. *)
Theorem loop_around_rectangle `{SetOrder} `{Libm} (s : Anteater) (c r : Z)
    (w h : nat) :
  0 < grid_size s →
  (0 < w)%nat → (0 < h)%nat →
  loop_cells s ≠ ∅ →
  min_loop_area s ≤ Z.of_nat (length (loop_path s)) →
  (∀ x, on_border c r w h x → x ∈ loop_path s) →
  (∀ x, x ∈ loop_path s → in_rect c r w h x) →
  get_loop_polygon_pixels s = Ok (rect_perimeter (grid_size s) c r w h) ∧
  length (rect_perimeter (grid_size s) c r w h) = (2 * (w + h))%nat ∧
  NoDup (rect_perimeter (grid_size s) c r w h).
Proof.
  intros Hgs Hw Hh Hcells Hlen Hborder Hsub.
  split; [|split; [apply length_rect_perimeter|
                   apply NoDup_rect_perimeter; [lia|done..]]].
  assert (loop_path s ≠ []) as Hne.
  { intros Hnil. assert ((c, r) ∈ loop_path s) as Hin.
    { apply Hborder. unfold on_border, in_rect. simpl. lia. }
    rewrite Hnil in Hin. by apply elem_of_nil in Hin. }
  unfold get_loop_polygon_pixels.
  rewrite bool_decide_eq_false_2, bool_decide_eq_true_2 by done. simpl.
  destruct (Z.leb_spec (min_loop_area s) (Z.of_nat (length (loop_path s))));
    [|lia].
  by apply rect_trace.
Qed.

Lemma loop_around_rectangle_witness :
  @get_loop_polygon_pixels elements_order any_libm scenario_A_state
    = Ok (rect_perimeter (grid_size scenario_A_state) 15 5 6 11) ∧
  length (rect_perimeter (grid_size scenario_A_state) 15 5 6 11)
    = (2 * (6 + 11))%nat ∧
  NoDup (rect_perimeter (grid_size scenario_A_state) 15 5 6 11).
Proof.
  apply (@loop_around_rectangle elements_order any_libm scenario_A_state
           15 5 6 11).
  - simpl. lia.
  - lia.
  - lia.
  - apply (bool_decide_unpack _). vm_compute. reflexivity.
  - simpl. lia.
  - intros x Hx. apply scenario_A_path_ring.
    unfold on_border, in_rect, on_ring in *. lia.
  - intros x Hx%scenario_A_path_ring.
    unfold in_rect, on_ring in *. lia.
Defined.

(** X21. On the outline of a rectangle of cells, [point_in_polygon] raises
    nothing and holds of exactly the pixels of the rectangle: left and
    top sides included, right and bottom sides excluded. *)
Theorem point_in_rectangle_outline (gs c r : Z) (w h : nat) (px py : Z) :
  0 < gs → (0 < w)%nat → (0 < h)%nat →
  in_bound (c * gs, r * gs) →
  in_bound ((c + Z.of_nat w) * gs, (r + Z.of_nat h) * gs) →
  point_in_polygon px py (rect_perimeter gs c r w h)
    = Ok (bool_decide (c * gs ≤ px < (c + Z.of_nat w) * gs ∧
                       r * gs ≤ py < (r + Z.of_nat h) * gs)).
Proof.
  intros Hgs Hw Hh H0 H1.
  by apply point_in_polygon_rect; [..|apply rect_perimeter_in_bound].
Qed.

Lemma point_in_rectangle_outline_witness :
  point_in_polygon 300 100 (rect_perimeter 20 15 5 6 11)
    = Ok (bool_decide (15 * 20 ≤ 300 < (15 + Z.of_nat 6) * 20 ∧
                       5 * 20 ≤ 100 < (5 + Z.of_nat 11) * 20)).
Proof.
  apply (point_in_rectangle_outline 20 15 5 6 11 300 100); try lia;
    unfold in_bound, coordinate_bound; simpl; lia.
Defined.

(** X22. In play, when the loop runs around a rectangle of cells, the ants
    that [capture_ants_in_loop] returns are those whose centre is a pixel
    of the rectangle, the cells that the tongue encloses included, in the
    order of [ants_list]. *)
Theorem capture_in_rectangle `{SetOrder} `{Libm} `{Pygame} (s : Anteater)
    (ants_list : list Ant.t) (c r : Z) (w h : nat) :
  reachable s →
  loop_active s = true →
  (∀ x, on_border c r w h x → x ∈ loop_path s) →
  (∀ x, x ∈ loop_path s → in_rect c r w h x) →
  get_loop_polygon_pixels s = Ok (rect_perimeter 20 c r w h) ∧
  capture_ants_in_loop s ants_list
    = Ok (filter (λ ant, centre_in 20 c r w h ant) ants_list).
Proof.
  intros Hr Hact Hborder Hsub.
  destruct (reachable_polygon s Hr) as [_ Hon].
  destruct (Hon Hact) as (_ & Heq & _).
  pose proof (reachable_play_inv s Hr) as [(Hg & _) Hs].
  destruct Hs as (_ & _ & _ & _ & _ & _ & _ & _ & Hshape).
  destruct (Hshape Hact) as (_ & _ & Hlen & _).
  assert ((0 < w)%nat ∧ (0 < h)%nat) as [Hw Hh].
  { destruct (loop_path s) as [|x l] eqn:Hpath; [simpl in Hlen; lia|].
    destruct (Hsub x ltac:(left)) as [? ?]. lia. }
  assert (get_loop_polygon_pixels s = Ok (rect_perimeter 20 c r w h)) as Hpts.
  { rewrite Heq, Hg. by apply rect_trace. }
  split; [done|].
  pose proof (reachable_polygon_on_screen s _ Hr Hpts) as Hscreen.
  assert (Forall in_bound (rect_perimeter 20 c r w h)) as Hbound.
  { apply Forall_forall. intros q Hq. specialize (Hscreen q Hq).
    unfold in_bound, coordinate_bound. lia. }
  unfold capture_ants_in_loop. rewrite Hpts, res_bind_Ok.
  rewrite bool_decide_eq_false_2.
  2:{ intros Hnil. pose proof (length_rect_perimeter 20 c r w h) as Hl.
      rewrite Hnil in Hl. simpl in Hl. lia. }
  rewrite capture_loop_filter.
  2:{ intros ant _. rewrite point_in_polygon_rect by done. by eauto. }
  simpl. f_equal. apply list_filter_iff. intros ant.
  unfold inside, centre_in. by rewrite point_in_polygon_rect by done.
Qed.

Lemma capture_in_rectangle_witness :
  @get_loop_polygon_pixels elements_order any_libm scenario_A_state
    = Ok (rect_perimeter 20 15 5 6 11) ∧
  @capture_ants_in_loop elements_order any_libm any_pygame
    scenario_A_state two_ants
    = Ok (filter (λ ant, @centre_in any_pygame 20 15 5 6 11 ant) two_ants).
Proof.
  apply (@capture_in_rectangle elements_order any_libm any_pygame
           scenario_A_state two_ants 15 5 6 11).
  - exact scenario_A_state_reachable.
  - reflexivity.
  - intros x Hx. apply scenario_A_path_ring.
    unfold on_border, in_rect, on_ring in *. lia.
  - intros x Hx%scenario_A_path_ring.
    unfold in_rect, on_ring in *. lia.
Defined.
